(** * PsychSheet: the system-file (.sav) reader

    A shallow embedding of the .sav reader of PsychSheet ([sav/main.ts]: the
    classes [Feeder], [DataReader] and [SavParser]) and the properties its
    specification states.

    Modelling conventions.
    - An [ArrayBuffer] is a [list byte]; [slice] follows ECMAScript's
      [ArrayBuffer.prototype.slice] (negative indices count from the end),
      and a [DataView] getter fails outside its view.
    - A JavaScript number that holds a cursor, a size or a 32-bit field is a
      [Z].  The parser only adds and multiplies 32-bit fields; a double
      holds the result exactly while it stays within 2^53 in magnitude, and
      the model keeps the exact integer.  Beyond 2^53 the source rounds
      where the model does not, so a statement about a cursor or a size
      stays within that range: by a buffer that holds the bytes read, or
      by the bound [safe_integer].
    - A JavaScript number that holds a decoded double (a cell, the bias, a
      missing code) is a primitive [float], built from its 64 bits.
    - A JavaScript string is the list of its UTF-16 code units, and
      [TextDecoder] is the UTF-8 decoder of the Encoding Standard.
    - A method that mutates the feeder and the log is a function in a
      state-and-exception monad [M]: the state a computation leaves is kept
      when it throws, as a mutated object is.  The loops that a crafted file
      can keep running take a fuel argument and answer [OutOfFuel] when it
      runs out.
    - A promise is the value it settles to; the callbacks of [then] and
      [finally] run in the order the chain gives them. *)

From Stdlib Require Import ZArith List Lia Bool Floats Uint63.
From Stdlib Require Import Strings.Byte.
Import ListNotations.
Local Open Scope Z_scope.

(** ** Bytes, buffers and views *)

Definition ArrayBuffer := list byte.

Definition byte_val (b : byte) : Z := Z.of_N (Byte.to_N b).

Definition byteLength (b : ArrayBuffer) : Z := Z.of_nat (length b).

(** A relative index of [slice]: negative counts from the end, and the
    result is clamped to [0, len]. *)
Definition rel_index (len i : Z) : Z :=
  if i <? 0 then Z.max (len + i) 0 else Z.min i len.

Definition slice (b : ArrayBuffer) (first final : Z) : ArrayBuffer :=
  let len := byteLength b in
  let lo := rel_index len first in
  let hi := rel_index len final in
  firstn (Z.to_nat (Z.max (hi - lo) 0)) (skipn (Z.to_nat lo) b).

(** The unsigned value of a run of bytes, least significant byte first. *)
Fixpoint le_value (bs : list byte) : Z :=
  match bs with
  | [] => 0
  | b :: rest => byte_val b + 256 * le_value rest
  end.

Definition be_value (bs : list byte) : Z := le_value (rev bs).

Definition to_signed (bits : Z) (u : Z) : Z :=
  if u <? 2 ^ (bits - 1) then u else u - 2 ^ bits.

(** The double whose IEEE-754 binary64 encoding is [w]. *)
Definition f64_of_bits (w : Z) : float :=
  let e := Z.land (Z.shiftr w 52) 2047 in
  let m := Z.land w (2 ^ 52 - 1) in
  let mag :=
    if e =? 2047 then (if m =? 0 then infinity else nan)
    else if e =? 0 then Z.ldexp (of_uint63 (Uint63.of_Z m)) (-1074)
    else Z.ldexp (of_uint63 (Uint63.of_Z (m + 2 ^ 52))) (e - 1075) in
  if Z.testbit w 63 then PrimFloat.opp mag else mag.

(** A [DataView] getter fails with a RangeError when the read leaves the
    view; [None] is that failure. *)
Definition view_bytes (v : ArrayBuffer) (off n : Z) : option (list byte) :=
  if (off <? 0) || (off + n >? byteLength v) then None
  else Some (firstn (Z.to_nat n) (skipn (Z.to_nat off) v)).

Definition getUint8 (v : ArrayBuffer) (off : Z) : option Z :=
  option_map le_value (view_bytes v off 1).

Definition getInt8 (v : ArrayBuffer) (off : Z) : option Z :=
  option_map (fun bs => to_signed 8 (le_value bs)) (view_bytes v off 1).

Definition getInt32 (v : ArrayBuffer) (off : Z) (littleEndian : bool) : option Z :=
  option_map
    (fun bs => to_signed 32 (if littleEndian then le_value bs else be_value bs))
    (view_bytes v off 4).

Definition getFloat64 (v : ArrayBuffer) (off : Z) (littleEndian : bool) : option float :=
  option_map
    (fun bs => f64_of_bits (if littleEndian then le_value bs else be_value bs))
    (view_bytes v off 8).

(** ** Strings *)

(** A string is its UTF-16 code units. *)
Definition text := list Z.

Fixpoint text_eqb (a b : text) : bool :=
  match a, b with
  | [], [] => true
  | x :: a', y :: b' => (x =? y) && text_eqb a' b'
  | _, _ => false
  end.

(** [TextDecoder] (UTF-8, not fatal, BOM not ignored), after the WHATWG
    Encoding Standard: the decoder's state, one byte at a time. *)
Record utf8_state := {
  u_cp : Z;
  u_seen : Z;
  u_needed : Z;
  u_lower : Z;
  u_upper : Z
}.

Definition u_init : utf8_state :=
  {| u_cp := 0; u_seen := 0; u_needed := 0; u_lower := 0x80; u_upper := 0xBF |}.

(** A byte met when no sequence is open. *)
Definition utf8_lead (b : Z) : list Z * utf8_state :=
  if b <=? 0x7F then ([b], u_init)
  else if (0xC2 <=? b) && (b <=? 0xDF) then
    ([], {| u_cp := Z.land b 0x1F; u_seen := 0; u_needed := 1;
            u_lower := 0x80; u_upper := 0xBF |})
  else if (0xE0 <=? b) && (b <=? 0xEF) then
    ([], {| u_cp := Z.land b 0xF; u_seen := 0; u_needed := 2;
            u_lower := if b =? 0xE0 then 0xA0 else 0x80;
            u_upper := if b =? 0xED then 0x9F else 0xBF |})
  else if (0xF0 <=? b) && (b <=? 0xF4) then
    ([], {| u_cp := Z.land b 0x7; u_seen := 0; u_needed := 3;
            u_lower := if b =? 0xF0 then 0x90 else 0x80;
            u_upper := if b =? 0xF4 then 0x8F else 0xBF |})
  else ([0xFFFD], u_init).

Definition utf8_step (st : utf8_state) (b : Z) : list Z * utf8_state :=
  if u_needed st =? 0 then utf8_lead b
  else if negb ((u_lower st <=? b) && (b <=? u_upper st)) then
    (* the open sequence is cut: U+FFFD, and the byte is read again *)
    let (out, st') := utf8_lead b in (0xFFFD :: out, st')
  else
    let cp := Z.lor (Z.shiftl (u_cp st) 6) (Z.land b 0x3F) in
    if u_seen st + 1 =? u_needed st then ([cp], u_init)
    else ([], {| u_cp := cp; u_seen := u_seen st + 1; u_needed := u_needed st;
                 u_lower := 0x80; u_upper := 0xBF |}).

Fixpoint utf8_run (st : utf8_state) (bs : list byte) : list Z :=
  match bs with
  | [] => if u_needed st =? 0 then [] else [0xFFFD]
  | b :: rest =>
      let (out, st') := utf8_step st (byte_val b) in out ++ utf8_run st' rest
  end.

Definition strip_bom (cps : list Z) : list Z :=
  match cps with
  | c :: rest => if c =? 0xFEFF then rest else cps
  | [] => []
  end.

Definition utf16_units (cp : Z) : list Z :=
  if cp <? 0x10000 then [cp]
  else [0xD800 + Z.shiftr (cp - 0x10000) 10; 0xDC00 + Z.land (cp - 0x10000) 0x3FF].

Definition decode (bs : ArrayBuffer) : text :=
  flat_map utf16_units (strip_bom (utf8_run u_init bs)).

(** [String.prototype.trim]: white space and line terminators. *)
Definition is_space (c : Z) : bool :=
  ((0x09 <=? c) && (c <=? 0x0D)) || (c =? 0x20) || (c =? 0xA0) || (c =? 0x1680)
  || ((0x2000 <=? c) && (c <=? 0x200A)) || (c =? 0x2028) || (c =? 0x2029)
  || (c =? 0x202F) || (c =? 0x205F) || (c =? 0x3000) || (c =? 0xFEFF).

Fixpoint trim_start (s : text) : text :=
  match s with
  | c :: rest => if is_space c then trim_start rest else s
  | [] => []
  end.

Definition trim (s : text) : text := rev (trim_start (rev (trim_start s))).

(** [s.substring(0, n)]. *)
Definition substring0 (s : text) (n : Z) : text := firstn (Z.to_nat n) s.

(** [s.split(sep)] for a one-unit separator: never empty. *)
Fixpoint split (sep : Z) (s : text) : list text :=
  match s with
  | [] => [[]]
  | c :: rest =>
      match split sep rest with
      | piece :: more => if c =? sep then [] :: piece :: more else (c :: piece) :: more
      | [] => [[c]]
      end
  end.

Definition join (pieces : list text) : text := concat pieces.

(** [parseInt(s, 10)]: [None] is NaN, [Some z] the number of value [z],
    which is the source's number while [z] is within 2^53 in magnitude. *)
Fixpoint digits_value (acc : Z) (seen : bool) (s : text) : option Z :=
  match s with
  | c :: rest =>
      if (48 <=? c) && (c <=? 57) then digits_value (10 * acc + (c - 48)) true rest
      else if seen then Some acc else None
  | [] => if seen then Some acc else None
  end.

Definition parseInt (s : option text) : option Z :=
  match s with
  | None => None
  | Some s =>
      match trim_start s with
      | c :: rest =>
          if c =? 45 then option_map Z.opp (digits_value 0 false rest)
          else if c =? 43 then digits_value 0 false rest
          else digits_value 0 false (c :: rest)
      | [] => None
      end
  end.

(** A [Map] in insertion order: setting a present key keeps its place. *)
Fixpoint map_set {K V : Type} (eqb : K -> K -> bool) (k : K) (v : V)
    (m : list (K * V)) : list (K * V) :=
  match m with
  | [] => [(k, v)]
  | (k', v') :: rest =>
      if eqb k k' then (k', v) :: rest else (k', v') :: map_set eqb k v rest
  end.

Definition map_of {K V : Type} (eqb : K -> K -> bool) (entries : list (K * V))
    : list (K * V) :=
  fold_left (fun m kv => map_set eqb (fst kv) (snd kv) m) entries [].

(** Keys of a [Map] or [Set] compare by SameValueZero. *)
Definition float_key_eqb (a b : float) : bool :=
  PrimFloat.eqb a b || (is_nan a && is_nan b).

Fixpoint set_add (x : Z) (s : list Z) : list Z :=
  match s with
  | [] => [x]
  | y :: rest => if x =? y then s else y :: set_add x rest
  end.

Definition set_of (xs : list Z) : list Z := fold_left (fun s x => set_add x s) xs [].

(** ** Errors, the trace log and the monad *)

(** The errors the source throws, each with the values its message prints,
    and the two the runtime raises ([RangeError]: a read outside a view or
    an array of negative length; [TypeError]: a property of [undefined]). *)
Inductive error :=
| JumpOutOfBounds
| UnexpectedEndOfFile
| UnexpectedEndOfRecords
| CellCodeTypeMismatch
| DefaultCodeNotSupported
| NotSav (expected actual : text)
| LevelsReadError (expected actual : Z)
| SpecialCodeBytes (subcode expected actual : Z)
| SpecialCode11Factor (actual : Z)
| InternalCode (actual : Z)
| RangeError
| TypeError.

Inductive LogEntry :=
| LogCell (name : text)
| LogRow (idx : Z)
| LogReadingField (at_ : Z)
| LogScaleLevel (at_ : Z)
| LogScaleDefinition (at_ : Z)
| LogSysDocument (at_ : Z)
| LogSysInteger (at_ : Z)
| LogSysFloat (at_ : Z)
| LogSysDisplay (at_ : Z)
| LogNames (at_ : Z)
| LogLongWidths (at_ : Z)
| LogLongNames (at_ : Z)
| LogReadingInternal
| LogSubcode (subcode : Z)
| LogUnrecognizedSubcode.

Inductive outcome (A : Type) :=
| Ret (a : A)
| Throw (e : error)
| OutOfFuel.
Arguments Ret {A} a.
Arguments Throw {A} e.
Arguments OutOfFuel {A}.

Definition M (S A : Type) : Type := S -> outcome A * S.

Definition ret {S A} (a : A) : M S A := fun s => (Ret a, s).

Definition throw {S A} (e : error) : M S A := fun s => (Throw e, s).

Definition bind {S A B} (m : M S A) (k : A -> M S B) : M S B :=
  fun s =>
    match m s with
    | (Ret a, s') => k a s'
    | (Throw e, s') => (Throw e, s')
    | (OutOfFuel, s') => (OutOfFuel, s')
    end.

Declare Scope monad_scope.
Delimit Scope monad_scope with monad.
Notation "x <- m ;; k" := (bind m (fun x => k))
  (at level 61, m at next level, right associativity) : monad_scope.
Notation "m ;;; k" := (bind m (fun _ => k))
  (at level 61, right associativity) : monad_scope.
Local Open Scope monad_scope.

Definition gets {S A} (f : S -> A) : M S A := fun s => (Ret (f s), s).

Definition modify {S} (f : S -> S) : M S unit := fun s => (Ret tt, f s).

(** A runtime failure of a [DataView] getter. *)
Definition view {S A} (o : option A) : M S A :=
  match o with
  | Some a => ret a
  | None => throw RangeError
  end.

(** The indices [0 .. n - 1]. *)
Definition indices (n : Z) : list Z := map Z.of_nat (seq 0 (Z.to_nat n)).

(** [new Array(n)]: a RangeError unless [0 <= n]; the indices it maps over. *)
Definition new_Array {S} (n : Z) : M S (list Z) :=
  if n <? 0 then throw RangeError else ret (indices n).

(** [array.map(f)] with an effectful callback: left to right. *)
Fixpoint mapM {S A B} (f : A -> M S B) (xs : list A) : M S (list B) :=
  match xs with
  | [] => ret []
  | x :: rest => y <- f x ;; ys <- mapM f rest ;; ret (y :: ys)
  end.

(** Run a computation on a part of the state. *)
Definition zoom {S T A} (get : S -> T) (set : T -> S -> S) (m : M T A) : M S A :=
  fun s => let (r, t) := m (get s) in (r, set t s).

(** ** Feeder *)

Record Feeder := {
  buffer : ArrayBuffer;
  cursor : Z
}.

Definition new_Feeder (b : ArrayBuffer) : Feeder := {| buffer := b; cursor := 0 |}.

Module Feeder.

Definition jump (position : Z) : M Feeder unit :=
  fun f =>
    if (position <? 0) || (position >? byteLength (buffer f)) then
      (Throw JumpOutOfBounds, f)
    else (Ret tt, {| buffer := buffer f; cursor := position |}).

(** [cursor + size] is the exact sum: the source's sum of doubles while it
    is within 2^53 in magnitude. *)
Definition next (size : Z) : M Feeder ArrayBuffer :=
  fun f =>
    if cursor f + size >? byteLength (buffer f) then (Throw UnexpectedEndOfFile, f)
    else
      let c := cursor f + size in
      (Ret (slice (buffer f) (c - size) c), {| buffer := buffer f; cursor := c |}).

Definition position : M Feeder Z := gets cursor.

Definition done : M Feeder bool :=
  gets (fun f => cursor f =? byteLength (buffer f)).

End Feeder.

(** The parser and the feeder it is handed: the one log and the one cursor
    that every method call shares. *)
Record World := {
  feeder : Feeder;
  log : list LogEntry
}.

Definition on_feeder {A} (m : M Feeder A) : M World A :=
  zoom feeder (fun f w => {| feeder := f; log := log w |}) m.

Definition jump (position : Z) : M World unit := on_feeder (Feeder.jump position).
Definition next (size : Z) : M World ArrayBuffer := on_feeder (Feeder.next size).
Definition position : M World Z := on_feeder Feeder.position.

Definition log_push (e : LogEntry) : M World unit :=
  modify (fun w => {| feeder := feeder w; log := log w ++ [e] |}).

Definition log_clear : M World unit :=
  modify (fun w => {| feeder := feeder w; log := [] |}).

Definition out_of_fuel {S A} : M S A := fun s => (OutOfFuel, s).

(** ** The data model ([types.ts], as the parser fills it) *)

(** [range] is [None] for the pair [[undefined, undefined]]. *)
Record Missing := {
  codes : list float;
  range : option (float * float);
  strings : list text
}.

Record Header := {
  start : Z;
  code : Z;
  name : text;
  label : text;
  missing : Missing;
  trailers : Z
}.

Record Meta := {
  product : text;
  layout : Z;
  variables : Z;
  compression : Z;
  weightIndex : Z;
  cases : Z;
  bias : float;
  createdDate : text;
  createdTime : text;
  file_label : text
}.

Record Scale := {
  scale_map : list (float * text);
  scale_indices : list Z
}.

Record Display := {
  d_type : Z;
  d_width : Z;
  d_align : Z
}.

Record SysInteger := {
  major : Z;
  minor : Z;
  revision : Z;
  machine : Z;
  float_rep : Z;
  sys_compression : Z;
  endianness : Z;
  character : Z
}.

Record SysFloat := {
  sys_missing : float;
  high : float;
  low : float
}.

(** [sys_float] and [sys_integer] are [None] for the records whose fields
    are all [undefined]; a value of [names] is [None] for [undefined]. *)
Record Internal := {
  sys_float : option SysFloat;
  sys_integer : option SysInteger;
  display : list Display;
  documents : list text;
  names : list (text * option text);
  longs : list (text * option Z);
  levels : list Scale;
  extra : list ArrayBuffer;
  unrecognized : list (Z * list ArrayBuffer);
  finished : Z
}.

Record Schema := {
  meta_of : Meta;
  headers_of : list Header;
  internal_of : Internal
}.

Inductive Cell :=
| CNumber (x : float)
| CString (s : text)
| CNull.

Definition Row := list (text * Cell).

Record Parsed := {
  schema_of : Schema;
  rows : list Row
}.

(** An integer read as a number ([0 <= z < 2^63]; the parser does it to an
    instruction code). *)
Definition to_number (z : Z) : float := of_uint63 (Uint63.of_Z z).

(** The signature, '$FL2'. *)
Definition FL2 : text := [36; 70; 76; 50].

(** JavaScript's [%]: the remainder has the sign of the dividend. *)
Definition js_rem (a b : Z) : Z := Z.rem a b.

(** ** SavParser: the dictionary *)

Definition readFieldLabel : M World text :=
  chunk <- next 4 ;;
  length <- view (getInt32 chunk 0 true) ;;
  let length :=
    if js_rem length 4 =? 0 then length else length + (4 - js_rem length 4) in
  chunk <- next length ;;
  ret (trim (decode chunk)).

(** [view.getFloat64(8 * idx)]: no endianness argument, so big-endian. *)
Definition readFieldMissingCodes (v : ArrayBuffer) (count : Z) : M World (list float) :=
  readArray <- new_Array count ;;
  mapM (fun idx => view (getFloat64 v (8 * idx) false)) readArray.

Definition readFieldMissingStrings (chunk : ArrayBuffer) (count : Z)
    : M World (list text) :=
  readArray <- new_Array count ;;
  ret (map (fun idx => decode (slice chunk (8 * idx) (8 * idx + 8))) readArray).

Definition readFieldMissingRange (v : ArrayBuffer) : M World (float * float) :=
  lo <- view (getFloat64 v 0 true) ;;
  hi <- view (getFloat64 v 8 true) ;;
  ret (lo, hi).

Definition readFieldMissing (numeric : bool) (code : Z) : M World Missing :=
  chunk <- next (8 * Z.abs code) ;;
  cs <- (if numeric && (code >? 0) then readFieldMissingCodes chunk code
         else if numeric && (code =? -3) then
           three <- readFieldMissingCodes chunk 3 ;; ret (skipn 2 three)
         else ret []) ;;
  rg <- (if numeric && (code <? 0) then
           r <- readFieldMissingRange chunk ;; ret (Some r)
         else ret None) ;;
  ss <- (if negb numeric && (code >? 0) then readFieldMissingStrings chunk code
         else ret []) ;;
  ret {| codes := cs; range := rg; strings := ss |}.

Definition no_missing : Missing := {| codes := []; range := None; strings := [] |}.

Definition readField : M World Header :=
  at_ <- position ;;
  log_push (LogReadingField at_) ;;;
  start <- position ;;
  chunk <- next 28 ;;
  code <- view (getInt32 chunk 0 true) ;;
  labeled <- view (getInt32 chunk 4 true) ;;
  missings <- view (getInt32 chunk 8 true) ;;
  let name := trim (decode (slice chunk 20 28)) in
  label <- (if labeled =? 0 then ret [] else readFieldLabel) ;;
  missing <- (if missings =? 0 then ret no_missing
              else readFieldMissing (code =? 0) missings) ;;
  ret {| start := start; code := code; name := name; label := label;
         missing := missing; trailers := 0 |}.

(** [fields[fields.length - 1].trailers++]: [None] when there is no last
    field, where the source reads a property of [undefined]. *)
Fixpoint bump_last (fields : list Header) : option (list Header) :=
  match fields with
  | [] => None
  | [f] =>
      Some [{| start := start f; code := code f; name := name f; label := label f;
               missing := missing f; trailers := trailers f + 1 |}]
  | f :: rest => option_map (cons f) (bump_last rest)
  end.

Fixpoint readFields_loop (fuel : nat) (fields : list Header) : M World (list Header) :=
  match fuel with
  | O => out_of_fuel
  | S fuel' =>
      chunk <- next 4 ;;
      tag <- view (getInt32 chunk 0 true) ;;
      if negb (tag =? 2) then
        at_ <- position ;;
        jump (at_ - 4) ;;;
        ret fields
      else
        field <- readField ;;
        if code field >? -1 then readFields_loop fuel' (fields ++ [field])
        else
          match bump_last fields with
          | Some fields' => readFields_loop fuel' fields'
          | None => throw TypeError
          end
  end.

Definition readFields (fuel : nat) : M World (list Header) :=
  at_ <- position ;;
  log_push (LogReadingField at_) ;;;
  readFields_loop fuel [].

(** ** SavParser: the internal records *)

(** A [Map] stores the key -0 as +0. *)
Definition level_key (k : float) : float :=
  if PrimFloat.eqb k PrimFloat.zero then PrimFloat.zero else k.

Definition getLevel : M World (float * text) :=
  at_ <- position ;;
  log_push (LogScaleLevel at_) ;;;
  v <- next 9 ;;
  length <- view (getInt8 v 8) ;;
  let size :=
    if js_rem (length + 1) 8 =? 0 then length
    else length + (8 - js_rem (length + 1) 8) in
  key <- view (getFloat64 v 0 true) ;;
  chunk <- next size ;;
  ret (key, trim (substring0 (decode chunk) length)).

Definition readScale : M World Scale :=
  at_ <- position ;;
  log_push (LogScaleDefinition at_) ;;;
  chunk <- next 4 ;;
  count <- view (getInt32 chunk 0 true) ;;
  readArray <- new_Array count ;;
  lvls <- mapM (fun _ => getLevel) readArray ;;
  v <- next 8 ;;
  magic <- view (getInt32 v 0 true) ;;
  icount <- view (getInt32 v 4 true) ;;
  if negb (magic =? 4) then throw (LevelsReadError 4 magic)
  else
    iview <- next (4 * icount) ;;
    idxs <- new_Array icount ;;
    indices <- mapM (fun idx => view (getInt32 iview (idx * 4) true)) idxs ;;
    ret {| scale_map :=
             map_of float_key_eqb (map (fun kv => (level_key (fst kv), snd kv)) lvls);
           scale_indices := set_of indices |}.

Definition readDocument : M World (list text) :=
  at_ <- position ;;
  log_push (LogSysDocument at_) ;;;
  chunk <- next 4 ;;
  count <- view (getInt32 chunk 0 true) ;;
  chunk <- next (count * 80) ;;
  docArray <- new_Array count ;;
  ret (map (fun idx => decode (slice chunk (idx * 80) (idx * 80 + 80))) docArray).

Definition readSysInteger : M World SysInteger :=
  at_ <- position ;;
  log_push (LogSysInteger at_) ;;;
  v <- next 32 ;;
  a <- view (getInt32 v 0 true) ;;
  b <- view (getInt32 v 4 true) ;;
  c <- view (getInt32 v 8 true) ;;
  d <- view (getInt32 v 12 true) ;;
  e <- view (getInt32 v 16 true) ;;
  f <- view (getInt32 v 20 true) ;;
  g <- view (getInt32 v 24 true) ;;
  h <- view (getInt32 v 28 true) ;;
  ret {| major := a; minor := b; revision := c; machine := d; float_rep := e;
         sys_compression := f; endianness := g; character := h |}.

Definition readSysFloat : M World SysFloat :=
  at_ <- position ;;
  log_push (LogSysFloat at_) ;;;
  v <- next 24 ;;
  a <- view (getFloat64 v 0 true) ;;
  b <- view (getFloat64 v 8 true) ;;
  c <- view (getFloat64 v 16 true) ;;
  ret {| sys_missing := a; high := b; low := c |}.

Definition readSysDisplay (count : Z) : M World (list Display) :=
  at_ <- position ;;
  log_push (LogSysDisplay at_) ;;;
  v <- next (count * 12) ;;
  dispArray <- new_Array count ;;
  mapM (fun idx =>
          t <- view (getInt32 v (idx * 12) true) ;;
          w <- view (getInt32 v (idx * 12 + 4) true) ;;
          a <- view (getInt32 v (idx * 12 + 8) true) ;;
          ret {| d_type := t; d_width := w; d_align := a |}) dispArray.

(** [str.split('=')] read as a [Map] entry: its first two elements. *)
Definition entry_of (str : text) : text * option text :=
  match split 61 str with
  | k :: v :: _ => (k, Some v)
  | [k] => (k, None)
  | [] => ([], None)
  end.

Definition readNames (size : Z) : M World (list (text * option text)) :=
  at_ <- position ;;
  log_push (LogNames at_) ;;;
  chunk <- next size ;;
  let raw := decode chunk in
  ret (map_of text_eqb (map entry_of (split 9 raw))).

Definition readLongWidths (size : Z) : M World (list (text * option Z)) :=
  at_ <- position ;;
  log_push (LogLongWidths at_) ;;;
  chunk <- next size ;;
  let raw := decode chunk in
  let rows := split 9 raw in
  ret (map_of text_eqb
         (map (fun kv => (fst kv, parseInt (snd kv)))
              (map entry_of (removelast rows)))).

Definition readLongNames (size : Z) : M World ArrayBuffer :=
  at_ <- position ;;
  log_push (LogLongNames at_) ;;;
  next size.

(** [count * length], here and in [readExtension], is the exact product:
    the source's product of doubles while it is within 2^53 in magnitude. *)
Definition readUnrecognized (count length : Z) : M World (list ArrayBuffer) :=
  chunk <- next (count * length) ;;
  readArray <- new_Array count ;;
  ret (map (fun idx => slice chunk (idx * length) (idx * length + length)) readArray).

(** The [Partial<Internal>] the loop fills.  A list or map that is still
    [undefined] reads as empty at every use ([?? []]), so it starts empty. *)
Record PartialInternal := {
  p_float : option SysFloat;
  p_integer : option SysInteger;
  p_display : list Display;
  p_documents : list text;
  p_names : list (text * option text);
  p_longs : list (text * option Z);
  p_levels : list Scale;
  p_extra : list ArrayBuffer;
  p_unrecognized : list (Z * list ArrayBuffer);
  p_finished : option Z
}.

Definition empty_partial : PartialInternal :=
  {| p_float := None; p_integer := None; p_display := []; p_documents := [];
     p_names := []; p_longs := []; p_levels := []; p_extra := [];
     p_unrecognized := []; p_finished := None |}.

(** [new Map([...old, ...more])]. *)
Definition map_merge {V} (old more : list (text * V)) : list (text * V) :=
  fold_left (fun m kv => map_set text_eqb (fst kv) (snd kv) m) more old.

(** One tag-7 record, after its 12-byte sub-header. *)
Definition readExtension (p : PartialInternal) (subcode length count : Z)
    : M World PartialInternal :=
  if subcode =? 3 then
    log_push (LogSubcode 3) ;;;
    if negb (length * count =? 32) then throw (SpecialCodeBytes 3 32 (length * count))
    else
      i <- readSysInteger ;;
      ret {| p_float := p_float p; p_integer := Some i; p_display := p_display p;
             p_documents := p_documents p; p_names := p_names p; p_longs := p_longs p;
             p_levels := p_levels p; p_extra := p_extra p;
             p_unrecognized := p_unrecognized p; p_finished := p_finished p |}
  else if subcode =? 4 then
    log_push (LogSubcode 4) ;;;
    if negb (length * count =? 24) then throw (SpecialCodeBytes 4 24 (length * count))
    else
      f <- readSysFloat ;;
      ret {| p_float := Some f; p_integer := p_integer p; p_display := p_display p;
             p_documents := p_documents p; p_names := p_names p; p_longs := p_longs p;
             p_levels := p_levels p; p_extra := p_extra p;
             p_unrecognized := p_unrecognized p; p_finished := p_finished p |}
  else if subcode =? 11 then
    log_push (LogSubcode 11) ;;;
    if negb (length =? 4) then throw (SpecialCodeBytes 11 4 length)
    else if negb (js_rem count 3 =? 0) then throw (SpecialCode11Factor length)
    else
      d <- readSysDisplay (Z.quot count 3) ;;
      ret {| p_float := p_float p; p_integer := p_integer p;
             p_display := p_display p ++ d;
             p_documents := p_documents p; p_names := p_names p; p_longs := p_longs p;
             p_levels := p_levels p; p_extra := p_extra p;
             p_unrecognized := p_unrecognized p; p_finished := p_finished p |}
  else if subcode =? 13 then
    log_push (LogSubcode 13) ;;;
    n <- readNames (count * length) ;;
    ret {| p_float := p_float p; p_integer := p_integer p; p_display := p_display p;
           p_documents := p_documents p; p_names := map_merge (p_names p) n;
           p_longs := p_longs p;
           p_levels := p_levels p; p_extra := p_extra p;
           p_unrecognized := p_unrecognized p; p_finished := p_finished p |}
  else if subcode =? 14 then
    log_push (LogSubcode 14) ;;;
    l <- readLongWidths (count * length) ;;
    ret {| p_float := p_float p; p_integer := p_integer p; p_display := p_display p;
           p_documents := p_documents p; p_names := p_names p;
           p_longs := map_merge (p_longs p) l;
           p_levels := p_levels p; p_extra := p_extra p;
           p_unrecognized := p_unrecognized p; p_finished := p_finished p |}
  else if subcode =? 21 then
    log_push (LogSubcode 21) ;;;
    x <- readLongNames (count * length) ;;
    ret {| p_float := p_float p; p_integer := p_integer p; p_display := p_display p;
           p_documents := p_documents p; p_names := p_names p; p_longs := p_longs p;
           p_levels := p_levels p; p_extra := p_extra p ++ [x];
           p_unrecognized := p_unrecognized p; p_finished := p_finished p |}
  else
    log_push LogUnrecognizedSubcode ;;;
    u <- readUnrecognized count length ;;
    ret {| p_float := p_float p; p_integer := p_integer p; p_display := p_display p;
           p_documents := p_documents p; p_names := p_names p; p_longs := p_longs p;
           p_levels := p_levels p; p_extra := p_extra p;
           p_unrecognized := p_unrecognized p ++ [(subcode, u)];
           p_finished := p_finished p |}.

(** The body of the [while] loop: one record, dispatched on its tag. *)
Definition readRecord (p : PartialInternal) : M World PartialInternal :=
  chunk <- next 4 ;;
  tag <- view (getInt32 chunk 0 true) ;;
  if tag =? 3 then
    s <- readScale ;;
    ret {| p_float := p_float p; p_integer := p_integer p; p_display := p_display p;
           p_documents := p_documents p; p_names := p_names p; p_longs := p_longs p;
           p_levels := p_levels p ++ [s]; p_extra := p_extra p;
           p_unrecognized := p_unrecognized p; p_finished := p_finished p |}
  else if tag =? 6 then
    d <- readDocument ;;
    ret {| p_float := p_float p; p_integer := p_integer p; p_display := p_display p;
           p_documents := p_documents p ++ d; p_names := p_names p;
           p_longs := p_longs p;
           p_levels := p_levels p; p_extra := p_extra p;
           p_unrecognized := p_unrecognized p; p_finished := p_finished p |}
  else if tag =? 7 then
    subview <- next 12 ;;
    subcode <- view (getInt32 subview 0 true) ;;
    length <- view (getInt32 subview 4 true) ;;
    count <- view (getInt32 subview 8 true) ;;
    readExtension p subcode length count
  else if tag =? 999 then
    next 4 ;;;
    at_ <- position ;;
    ret {| p_float := p_float p; p_integer := p_integer p; p_display := p_display p;
           p_documents := p_documents p; p_names := p_names p; p_longs := p_longs p;
           p_levels := p_levels p; p_extra := p_extra p;
           p_unrecognized := p_unrecognized p; p_finished := Some at_ |}
  else throw (InternalCode tag).

(** [partial.finished] as the loop's condition reads it: [undefined] and 0
    are both false. *)
Definition finished_at (p : PartialInternal) : option Z :=
  match p_finished p with
  | Some z => if z =? 0 then None else Some z
  | None => None
  end.

Definition freeze (p : PartialInternal) (fin : Z) : Internal :=
  {| sys_float := p_float p; sys_integer := p_integer p; display := p_display p;
     documents := p_documents p; names := p_names p; longs := p_longs p;
     levels := p_levels p; extra := p_extra p; unrecognized := p_unrecognized p;
     finished := fin |}.

Fixpoint readInternal_loop (fuel : nat) (p : PartialInternal) : M World Internal :=
  match finished_at p with
  | Some fin => ret (freeze p fin)
  | None =>
      match fuel with
      | O => out_of_fuel
      | S fuel' => p' <- readRecord p ;; readInternal_loop fuel' p'
      end
  end.

Definition readInternal (fuel : nat) : M World Internal :=
  log_push LogReadingInternal ;;;
  readInternal_loop fuel empty_partial.

(** ** DataReader *)

(** [feeder.position()], read off the shared state. *)
Definition feeder_position (w : World) : Z := cursor (feeder w).

Module DataReader.

(** The reader's fields; [world] is the feeder and the log it shares with
    the parser that built it. *)
Record t := {
  world : World;
  position : Z;
  instructions : option ArrayBuffer;
  cursor : Z
}.

Definition on_world {A} (m : M World A) : M t A :=
  zoom world
    (fun w r => {| world := w; position := position r;
                   instructions := instructions r; cursor := cursor r |}) m.

Definition set_cursor (c : Z) : M t unit :=
  modify (fun r => {| world := world r; position := position r;
                      instructions := instructions r; cursor := c |}).

Definition set_instructions (v : ArrayBuffer) : M t unit :=
  modify (fun r => {| world := world r; position := position r;
                      instructions := Some v; cursor := cursor r |}).

(** [new DataReader(schema, feeder, log)]. *)
Definition create (w : World) : t :=
  {| world := w; position := feeder_position w;
     instructions := None; cursor := 8 |}.

Section WithSchema.

Variable sch : Schema.

(** The [do ... while (instruction === 0)] loop. *)
Fixpoint compressedCodes (fuel : nat) : M t Z :=
  match fuel with
  | O => out_of_fuel
  | S fuel' =>
      c <- gets cursor ;;
      (if c >? 7 then
         chunk <- on_world (next 8) ;;
         set_instructions chunk ;;;
         set_cursor 0
       else ret tt) ;;;
      ins <- gets instructions ;;
      match ins with
      | None => throw TypeError
      | Some v =>
          c <- gets cursor ;;
          set_cursor (c + 1) ;;;
          instruction <- view (getUint8 v c) ;;
          if instruction =? 0 then compressedCodes fuel' else ret instruction
      end
  end.

Definition little_endian : bool :=
  match sys_integer (internal_of sch) with
  | Some i => endianness i =? 2
  | None => false
  end.

Definition uncompressedNumber : M t float :=
  chunk <- on_world (next 8) ;;
  view (getFloat64 chunk 0 little_endian).

(** [pieces.concat(...)] builds a new array and the statement drops it:
    [pieces] is the same array at every turn of the loop. *)
Fixpoint uncompressedString_loop (fuel : nat) (length : Z) (pieces : list text)
    : M t text :=
  match fuel with
  | O => out_of_fuel
  | S fuel' =>
      chunk <- on_world (next 8) ;;
      let _ := pieces ++ [decode chunk] in
      let length := length - 1 in
      if length =? 0 then ret (join pieces)
      else uncompressedString_loop fuel' length pieces
  end.

Definition uncompressedString (fuel : nat) (length : Z) : M t text :=
  uncompressedString_loop fuel length [].

(** A numeric cell is a number or [null]. *)
Definition compressedNumber (fuel : nat) : M t Cell :=
  c <- compressedCodes fuel ;;
  if c =? 252 then throw UnexpectedEndOfRecords
  else if c =? 253 then
    chunk <- on_world (next 8) ;;
    x <- view (getFloat64 chunk 0 true) ;;
    ret (CNumber x)
  else if c =? 254 then throw CellCodeTypeMismatch
  else if c =? 255 then ret CNull
  else ret (CNumber (PrimFloat.sub (to_number c) (bias (meta_of sch)))).

Fixpoint compressedString_loop (fuel : nat) (length : Z) (pieces : list text)
    : M t Cell :=
  match fuel with
  | O => out_of_fuel
  | S fuel' =>
      c <- compressedCodes fuel ;;
      let continue pieces :=
        let length := length - 1 in
        if length =? 0 then ret (CString (join pieces))
        else compressedString_loop fuel' length pieces in
      if c =? 252 then throw UnexpectedEndOfRecords
      else if c =? 253 then
        chunk <- on_world (next 8) ;;
        continue (pieces ++ [decode chunk])
      else if c =? 254 then continue (pieces ++ [[]])
      else if c =? 255 then ret CNull
      else throw DefaultCodeNotSupported
  end.

Definition compressedString (fuel : nat) (length : Z) : M t Cell :=
  compressedString_loop fuel length [].

Definition readNumber (fuel : nat) : M t Cell :=
  if negb (compression (meta_of sch) =? 0) then compressedNumber fuel
  else x <- uncompressedNumber ;; ret (CNumber x).

Definition readString (fuel : nat) (length : Z) : M t Cell :=
  if negb (compression (meta_of sch) =? 0) then compressedString fuel length
  else s <- uncompressedString fuel length ;; ret (CString s).

(** [Math.ceil(n / 8)]. *)
Definition ceil8 (n : Z) : Z := - ((- n) / 8).

Definition readCell (fuel : nat) (header : Header) : M t Cell :=
  on_world (log_push (LogCell (name header))) ;;;
  if negb (code header =? 0) then readString fuel (ceil8 (code header))
  else readNumber fuel.

Definition readRow (fuel : nat) : M t Row :=
  entries <- mapM (fun header => v <- readCell fuel header ;; ret (name header, v))
                  (headers_of sch) ;;
  ret (map_of text_eqb entries).

Definition read (fuel : nat) : M t (list Row) :=
  on_world (jump (finished (internal_of sch))) ;;;
  idxs <- new_Array (cases (meta_of sch)) ;;
  readArray <- mapM (fun idx =>
                       on_world (log_push (LogRow idx)) ;;;
                       readRow fuel) idxs ;;
  p <- gets position ;;
  on_world (jump p) ;;;
  ret readArray.

End WithSchema.

End DataReader.

(** ** SavParser: the four entry points *)

(** How a promise ends.  An entry point is a computation of a [settled]
    value: [Ret (Resolved a)] and [Ret (Rejected e)] are the promise it
    returned, once settled; [Throw e] is an exception thrown before any
    promise was returned; [OutOfFuel] is a loop that has not ended. *)
Inductive settled (A : Type) :=
| Resolved (a : A)
| Rejected (e : error).
Arguments Resolved {A} a.
Arguments Rejected {A} e.

(** A promise executor or a [then] callback: what it throws rejects. *)
Definition in_promise {A} (m : M World A) : M World (settled A) :=
  fun w =>
    match m w with
    | (Ret a, w') => (Ret (Resolved a), w')
    | (Throw e, w') => (Ret (Rejected e), w')
    | (OutOfFuel, w') => (OutOfFuel, w')
    end.

(** [p.then(k)]. *)
Definition then_ {A B} (p : M World (settled A)) (k : A -> M World B)
    : M World (settled B) :=
  s <- p ;;
  match s with
  | Resolved a => in_promise (k a)
  | Rejected e => ret (Rejected e)
  end.

(** [p.finally(cb)]: [cb] runs when [p] has settled, and the result is
    [p]'s unless [cb] throws. *)
Definition finally_ {A} (p : M World (settled A)) (cb : M World unit)
    : M World (settled A) :=
  s <- p ;;
  fun w =>
    match cb w with
    | (Ret _, w') => (Ret s, w')
    | (Throw e, w') => (Ret (Rejected e), w')
    | (OutOfFuel, w') => (OutOfFuel, w')
    end.

(** The rest of an executor after [reject] was called: it runs, and nothing
    it returns or throws changes the promise. *)
Definition after_reject {A B} (e : error) (rest : M World B) : M World (settled A) :=
  fun w =>
    match rest w with
    | (OutOfFuel, w') => (OutOfFuel, w')
    | (_, w') => (Ret (Rejected e), w')
    end.

(** The object handed to [resolve]. *)
Definition meta_fields (chunk : ArrayBuffer) : M World Meta :=
  let product := trim (decode (slice chunk 4 64)) in
  layout <- view (getInt32 chunk 64 true) ;;
  variables <- view (getInt32 chunk 68 true) ;;
  compression <- view (getInt32 chunk 72 true) ;;
  weightIndex <- view (getInt32 chunk 76 true) ;;
  cases <- view (getInt32 chunk 80 true) ;;
  bias <- view (getFloat64 chunk 84 true) ;;
  ret {| product := product; layout := layout; variables := variables;
         compression := compression; weightIndex := weightIndex; cases := cases;
         bias := bias;
         createdDate := decode (slice chunk 92 101);
         createdTime := decode (slice chunk 101 109);
         file_label := trim (decode (slice chunk 109 173)) |}.

Definition meta_executor : M World (settled Meta) :=
  fun w =>
    match next 176 w with
    | (Ret chunk, w') =>
        let magic := decode (slice chunk 0 4) in
        if negb (text_eqb magic FL2) then
          after_reject (NotSav FL2 magic) (meta_fields chunk) w'
        else in_promise (meta_fields chunk) w'
    | (Throw e, w') => (Ret (Rejected e), w')
    | (OutOfFuel, w') => (OutOfFuel, w')
    end.

Definition meta : M World (settled Meta) :=
  log_clear ;;;
  at_ <- position ;;
  jump 0 ;;;
  finally_ meta_executor (jump at_).

(** [Promise.resolve(this.readFields(feeder))]: the fields are read before
    there is a promise, so what [readFields] throws leaves [headers] as an
    exception and [finally] is never attached. *)
Definition headers (fuel : nat) : M World (settled (list Header)) :=
  log_clear ;;;
  at_ <- position ;;
  jump 176 ;;;
  fields <- readFields fuel ;;
  finally_ (ret (Resolved fields)) (jump at_).

Definition schema (fuel : nat) : M World (settled Schema) :=
  log_clear ;;;
  at_ <- position ;;
  finally_
    (then_
       (then_ (then_ meta (fun m => ret m))
              (fun m =>
                 jump 176 ;;;
                 hs <- readFields fuel ;;
                 ret (m, hs)))
       (fun partial =>
          i <- readInternal fuel ;;
          ret {| meta_of := fst partial; headers_of := snd partial;
                 internal_of := i |}))
    (jump at_).

(** [new DataReader(schema, feeder, this.log).read()], run on the shared
    feeder and log. *)
Definition read_rows (fuel : nat) (sch : Schema) : M World (list Row) :=
  fun w =>
    let (r, rd) := DataReader.read sch fuel (DataReader.create w) in
    (r, DataReader.world rd).

Definition all (fuel : nat) : M World (settled Parsed) :=
  log_clear ;;;
  at_ <- position ;;
  finally_
    (then_ (schema fuel)
           (fun sch =>
              rs <- read_rows fuel sch ;;
              ret {| schema_of := sch; rows := rs |}))
    (jump at_).

(** A parser with an empty log handed a feeder. *)
Definition start_world (f : Feeder) : World := {| feeder := f; log := [] |}.

(** * Vocabulary of the properties *)

(** The bytes under the cursor, and the state once they are consumed. *)
Definition chunk_at (f : Feeder) (n : Z) : ArrayBuffer :=
  firstn (Z.to_nat n) (skipn (Z.to_nat (cursor f)) (buffer f)).

Definition advance (n : Z) (w : World) : World :=
  {| feeder := {| buffer := buffer (feeder w); cursor := cursor (feeder w) + n |};
     log := log w |}.

Definition logged (e : LogEntry) (w : World) : World :=
  {| feeder := feeder w; log := log w ++ [e] |}.

(** [n] bytes are left to read from a cursor inside the buffer. *)
Definition available (n : Z) (w : World) : Prop :=
  0 <= cursor (feeder w) /\ cursor (feeder w) + n <= byteLength (buffer (feeder w)).

(** A reader state with its world replaced. *)
Definition with_world (w : World) (r : DataReader.t) : DataReader.t :=
  {| DataReader.world := w; DataReader.position := DataReader.position r;
     DataReader.instructions := DataReader.instructions r;
     DataReader.cursor := DataReader.cursor r |}.

Definition with_cursor (c : Z) (r : DataReader.t) : DataReader.t :=
  {| DataReader.world := DataReader.world r;
     DataReader.position := DataReader.position r;
     DataReader.instructions := DataReader.instructions r;
     DataReader.cursor := c |}.


(** ** Sample files

    Byte sequences for worked examples: a 176-byte header, field records,
    the terminator record and case data. *)

Definition byte_of (z : Z) : byte :=
  match Byte.of_N (Z.to_N (z mod 256)) with
  | Some b => b
  | None => x00
  end.

Definition le32 (z : Z) : list byte :=
  map byte_of [z; z / 2 ^ 8; z / 2 ^ 16; z / 2 ^ 24].

Definition le64 (z : Z) : list byte := le32 z ++ le32 (z / 2 ^ 32).

Definition be64 (z : Z) : list byte := rev (le64 z).

(** [bs], cut or filled with spaces to [n] bytes. *)
Definition padded (n : nat) (bs : list byte) : list byte :=
  firstn n (bs ++ repeat x20 n).

(** The header of a file with one variable: signature, blank product,
    layout 2, the compression flag, no weight, the case count, bias 100. *)
Definition sample_header (compression cases : Z) : list byte :=
  map byte_of FL2 ++ padded 60 [] ++ le32 2 ++ le32 1 ++ le32 compression
  ++ le32 0 ++ le32 cases ++ le64 0x4059000000000000
  ++ padded 9 [] ++ padded 8 [] ++ padded 64 [] ++ repeat x00 3.

(** A field record with no label and no missing values, after its tag 2. *)
Definition sample_field (code : Z) (name : list byte) : list byte :=
  le32 2 ++ le32 code ++ le32 0 ++ le32 0 ++ le32 0 ++ le32 0 ++ padded 8 name.

Definition sample_terminator : list byte := le32 999 ++ le32 0.

(** One numeric variable AB, three cases 1, 2, 3, not compressed. *)
Definition sample_file : list byte :=
  sample_header 0 3 ++ sample_field 0 [x41; x42] ++ sample_terminator
  ++ be64 0x3FF0000000000000 ++ be64 0x4000000000000000
  ++ be64 0x4008000000000000.

(** A schema for the cell decoders: the compression flag, bias 100, and the
    headers. *)
Definition sample_schema (compression : Z) (hs : list Header) : Schema :=
  {| meta_of :=
       {| product := []; layout := 2; variables := 1; compression := compression;
          weightIndex := 0; cases := 1; bias := f64_of_bits 0x4059000000000000;
          createdDate := []; createdTime := []; file_label := [] |};
     headers_of := hs;
     internal_of :=
       {| sys_float := None; sys_integer := None; display := []; documents := [];
          names := []; longs := []; levels := []; extra := []; unrecognized := [];
          finished := 0 |} |}.

(** A reader that has read nothing yet, at the start of [data]. *)
Definition sample_reader (data : list byte) : DataReader.t :=
  DataReader.create {| feeder := new_Feeder data; log := [] |}.

(** [k] string segments read through the instruction stream, each a code
    253 with its eight literal bytes or a code 254, and the pieces they
    append. *)
Inductive segments (fuel : nat)
  : nat -> DataReader.t -> list text -> DataReader.t -> Prop :=
| segments_none r : segments fuel 0 r [] r
| segments_literal k r r1 chunk r2 ps r3 :
    DataReader.compressedCodes fuel r = (Ret 253, r1) ->
    DataReader.on_world (next 8) r1 = (Ret chunk, r2) ->
    segments fuel k r2 ps r3 ->
    segments fuel (S k) r (decode chunk :: ps) r3
| segments_empty k r r1 ps r3 :
    DataReader.compressedCodes fuel r = (Ret 254, r1) ->
    segments fuel k r1 ps r3 ->
    segments fuel (S k) r ([] :: ps) r3.

(** The [i]-th double of a view, in either byte order. *)
Definition double_at (littleEndian : bool) (v : ArrayBuffer) (i : Z) : float :=
  f64_of_bits
    ((if littleEndian then le_value else be_value)
       (firstn 8 (skipn (Z.to_nat (8 * i)) v))).

(** ** The field dictionary as a stream of records *)

(** The records of a field dictionary as they stand in the buffer: each is
    a tag 2 and what [readField] reads after it, and a tag other than 2
    ends the stream.  The last state is the one just after that tag. *)
Inductive field_stream : World -> list Header -> World -> Prop :=
| stream_end w chunk w1 tag :
    next 4 w = (Ret chunk, w1) ->
    getInt32 chunk 0 true = Some tag ->
    tag <> 2 ->
    field_stream w [] w1
| stream_record w chunk w1 field w2 fields w3 :
    next 4 w = (Ret chunk, w1) ->
    getInt32 chunk 0 true = Some 2 ->
    readField w1 = (Ret field, w2) ->
    field_stream w2 fields w3 ->
    field_stream w (field :: fields) w3.

(** A continuation record: its type code is negative. *)
Definition is_continuation (r : Header) : bool := negb (code r >? -1).

(** Every continuation record has a record that is not one before it. *)
Fixpoint preceded_from (seen : bool) (records : list Header) : bool :=
  match records with
  | [] => true
  | r :: rest =>
      if is_continuation r then seen && preceded_from seen rest
      else preceded_from true rest
  end.

Definition each_continuation_preceded (records : list Header) : bool :=
  preceded_from false records.

(** A field with the continuation records that follow it at once. *)
Definition group : Type := Header * list Header.

Definition records_of (groups : list group) : list Header :=
  flat_map (fun g => fst g :: snd g) groups.

Definition well_grouped (groups : list group) : Prop :=
  Forall (fun g => is_continuation (fst g) = false
                   /\ Forall (fun c => is_continuation c = true) (snd g)) groups.

Definition with_trailers (n : Z) (f : Header) : Header :=
  {| start := start f; code := code f; name := name f; label := label f;
     missing := missing f; trailers := n |}.

(** The field of a group, with its continuation records counted. *)
Definition fold_group (g : group) : Header :=
  with_trailers (Z.of_nat (length (snd g))) (fst g).

(** What one record does to the list of fields. *)
Definition absorb (fields : list Header) (r : Header) : option (list Header) :=
  if code r >? -1 then Some (fields ++ [r]) else bump_last fields.

Fixpoint absorb_all (fields : list Header) (records : list Header)
    : option (list Header) :=
  match records with
  | [] => Some fields
  | r :: rest =>
      match absorb fields r with
      | Some fields' => absorb_all fields' rest
      | None => None
      end
  end.

(** The continuation records at the head of a list, and what follows. *)
Fixpoint leading_continuations (records : list Header) : list Header :=
  match records with
  | r :: rest => if is_continuation r then r :: leading_continuations rest else []
  | [] => []
  end.

Fixpoint after_continuations (records : list Header) : list Header :=
  match records with
  | r :: rest => if is_continuation r then after_continuations rest else records
  | [] => []
  end.

(** A dictionary of three records: a string field of width 10, its
    continuation record, and a numeric field; then the terminator. *)
Definition sample_dictionary : list byte :=
  sample_field 10 [x41; x42] ++ sample_field (-1) [] ++ sample_field 0 [x43]
  ++ sample_terminator.

(** ** Extension records *)

(** The subtypes of a tag-7 record that the parser decodes. *)
Definition recognized (subcode : Z) : bool :=
  existsb (Z.eqb subcode) [3; 4; 11; 13; 14; 21].

(** The partial record with one more opaque block. *)
Definition add_unrecognized (subcode : Z) (slices : list ArrayBuffer)
    (p : PartialInternal) : PartialInternal :=
  {| p_float := p_float p; p_integer := p_integer p; p_display := p_display p;
     p_documents := p_documents p; p_names := p_names p; p_longs := p_longs p;
     p_levels := p_levels p; p_extra := p_extra p;
     p_unrecognized := p_unrecognized p ++ [(subcode, slices)];
     p_finished := p_finished p |}.

(** The payload of [count] elements of [length] bytes, cut into its elements. *)
Definition elements (payload : ArrayBuffer) (count length : Z) : list ArrayBuffer :=
  map (fun idx => firstn (Z.to_nat length) (skipn (Z.to_nat (idx * length)) payload))
      (indices count).

(** A tag-7 record of subtype 99 with two elements of three bytes, and the
    terminator record after it. *)
Definition sample_extension : list byte :=
  le32 7 ++ le32 99 ++ le32 3 ++ le32 2 ++ [x01; x02; x03; x04; x05; x06]
  ++ sample_terminator.

(** ** Rows in case order *)

(** Rows read one after another: the row of case [idx] is read from the
    state the row before it left, after its log line. *)
Inductive rows_in_order (sch : Schema) (fuel : nat)
  : Z -> DataReader.t -> list Row -> DataReader.t -> Prop :=
| rows_done idx r : rows_in_order sch fuel idx r [] r
| rows_next idx r row r1 rest r2 :
    DataReader.readRow sch fuel
      (with_world (logged (LogRow idx) (DataReader.world r)) r) = (Ret row, r1) ->
    rows_in_order sch fuel (idx + 1) r1 rest r2 ->
    rows_in_order sch fuel idx r (row :: rest) r2.

(** ** Frames *)

(** A computation that leaves the feeder's buffer as it found it. *)
Definition keeps_buffer {A} (m : M World A) : Prop :=
  forall w r w', m w = (r, w') -> buffer (feeder w') = buffer (feeder w).

Definition reader_keeps_buffer {A} (m : M DataReader.t A) : Prop :=
  forall r o r', m r = (o, r') ->
    buffer (feeder (DataReader.world r')) = buffer (feeder (DataReader.world r)).

(** A cursor inside the buffer, its end included. *)
Definition cursor_valid (w : World) : Prop :=
  0 <= cursor (feeder w) <= byteLength (buffer (feeder w)).

(** A computation that throws nothing before it returns its promise. *)
Definition never_throws {A} (m : M World A) : Prop :=
  forall w e w', m w <> (Throw e, w').

(** The turns the instruction reader can still take: the bytes left in the
    buffer and the codes left in the block it holds. *)
Definition codes_budget (r : DataReader.t) : nat :=
  Z.to_nat (byteLength (buffer (feeder (DataReader.world r)))
            - cursor (feeder (DataReader.world r)))
  + (if DataReader.cursor r >? 7 then 1 else Z.to_nat (9 - DataReader.cursor r)).

(** The sample file with byte-code compression and one case, whose only
    instruction code is 255. *)
Definition sample_compressed_file : list byte :=
  sample_header 1 1 ++ sample_field 0 [x41; x42] ++ sample_terminator
  ++ [x00; x00; xff; x00; x00; x00; x00; x00].

(** * Further vocabulary *)

(** A feeder whose cursor is inside its buffer, the end included. *)
Definition in_bounds (f : Feeder) : Prop :=
  0 <= cursor f <= byteLength (buffer f).

(** The state an entry point is meant to leave: the feeder as it was, and
    (for [meta], which logs nothing) an empty log. *)
Definition cleared (w : World) : World := {| feeder := feeder w; log := [] |}.

(** A computation that, whenever it returns, has moved the cursor forward by
    [n] bytes. *)
Definition consumes {A} (n : Z) (m : M World A) : Prop :=
  forall w a w', m w = (Ret a, w') -> cursor (feeder w') = cursor (feeder w) + n.

(** A reader computation that ends when it has more fuel than
    [codes_budget], and does not raise the budget. *)
Definition ends_within {A} (fuel : nat) (m : M DataReader.t A) : Prop :=
  forall r, (codes_budget r < fuel)%nat ->
    match m r with
    | (Ret _, r') => (codes_budget r' <= codes_budget r)%nat
    | (Throw _, _) => True
    | (OutOfFuel, _) => False
    end.

(** A value of a 32-bit field, as [getInt32] reads it. *)
Definition int32 (z : Z) : Prop := - 2 ^ 31 <= z < 2 ^ 31.

(** An integer within 2^53 in magnitude: a double holds it, and a sum or a
    product of doubles that has this value is exact. *)
Definition safe_integer (z : Z) : Prop := - 2 ^ 53 <= z <= 2 ^ 53.
(** * Properties *)

(** ** The monad *)

Lemma bind_Ret {S A B} (m : M S A) (k : A -> M S B) s a s1 :
  m s = (Ret a, s1) -> bind m k s = k a s1.
Proof. intros H. unfold bind. now rewrite H. Qed.

Lemma bind_Throw {S A B} (m : M S A) (k : A -> M S B) s e s1 :
  m s = (Throw e, s1) -> bind m k s = (Throw e, s1).
Proof. intros H. unfold bind. now rewrite H. Qed.

Lemma bind_Ret_inv {S A B} (m : M S A) (k : A -> M S B) s b s' :
  bind m k s = (Ret b, s') ->
  exists a s1, m s = (Ret a, s1) /\ k a s1 = (Ret b, s').
Proof.
  unfold bind. destruct (m s) as [[a | e |] s1]; intros H; try discriminate.
  now exists a, s1.
Qed.

Lemma view_Ret_inv {S A} (o : option A) (s : S) a s' :
  view o s = (Ret a, s') -> o = Some a /\ s' = s.
Proof.
  destruct o; cbn; intros H; inversion H; now subst.
Qed.

(** Take a successful monadic computation apart, one bind at a time. *)
Tactic Notation "inv_bind" hyp(H) "as" ident(a) ident(s) ident(H1) :=
  apply bind_Ret_inv in H; destruct H as (a & s & H1 & H).

(** ** Buffers *)

Lemma byteLength_nonneg b : 0 <= byteLength b.
Proof. unfold byteLength. lia. Qed.

Lemma slice_within b lo hi :
  0 <= lo -> lo <= hi -> hi <= byteLength b ->
  slice b lo hi = firstn (Z.to_nat (hi - lo)) (skipn (Z.to_nat lo) b).
Proof.
  intros Hlo Hle Hhi. unfold slice, rel_index.
  destruct (lo <? 0) eqn:E1; [apply Z.ltb_lt in E1; lia |].
  destruct (hi <? 0) eqn:E2; [apply Z.ltb_lt in E2; lia |].
  rewrite !Z.min_l by lia. now rewrite Z.max_l by lia.
Qed.

Lemma length_firstn_skipn {A} (l : list A) (a n : nat) :
  (a + n <= length l)%nat -> length (firstn n (skipn a l)) = n.
Proof.
  intros H. rewrite length_firstn, length_skipn. lia.
Qed.

Lemma byteLength_chunk b c n :
  0 <= c -> 0 <= n -> c + n <= byteLength b ->
  byteLength (firstn (Z.to_nat n) (skipn (Z.to_nat c) b)) = n.
Proof.
  intros Hc Hn H. unfold byteLength in *.
  rewrite length_firstn_skipn; lia.
Qed.

(** ** The platform model on small inputs *)

Example slice_negative_indices :
  slice [x0a; x0b; x0c; x0d] (-3) (-1) = [x0b; x0c]
  /\ slice [x0a; x0b; x0c; x0d] 1 9 = [x0b; x0c; x0d]
  /\ slice [x0a; x0b; x0c; x0d] 3 1 = [].
Proof. repeat split. Qed.

Example getInt32_little_endian :
  getInt32 [xe7; x03; x00; x00] 0 true = Some 999
  /\ getInt32 [xff; xff; xff; xff] 0 true = Some (-1)
  /\ getInt32 [x00; x00; x00; x80] 0 true = Some (- 2 ^ 31)
  /\ getInt32 [x00; x00; x00] 0 true = None.
Proof. repeat split. Qed.

Example getFloat64_both_orders :
  getFloat64 [x00; x00; x00; x00; x00; x00; xf0; x3f] 0 true = Some 1%float
  /\ getFloat64 [x3f; xf0; x00; x00; x00; x00; x00; x00] 0 false = Some 1%float
  /\ getFloat64 [x00; x00; x00; x00; x00; x00; x04; xc0] 0 true = Some (-2.5)%float
  /\ getFloat64 [x00; x00; x00; x00; x00; x00; xf0; x7f] 0 true = Some infinity.
Proof. repeat split. Qed.

Example decode_utf8 :
  decode [x41; xc3; xa9; xe2; x82; xac] = [65; 233; 8364]
  /\ decode [xf0; x9f; x98; x80] = [55357; 56832]
  /\ decode [xc0; x80; x41] = [65533; 65533; 65]
  /\ decode [xe2; x82] = [65533]
  /\ decode [xef; xbb; xbf; x41] = [65].
Proof. repeat split. Qed.

Example trim_and_split :
  trim [32; 9; 65; 32; 66; 10; 32] = [65; 32; 66]
  /\ split 9 [65; 61; 66; 9; 67; 9] = [[65; 61; 66]; [67]; []]
  /\ entry_of [65; 61; 66] = ([65], Some [66])
  /\ entry_of [65] = ([65], None).
Proof. repeat split. Qed.

Example parseInt_decimal :
  parseInt (Some [32; 49; 50; 97]) = Some 12
  /\ parseInt (Some [45; 55]) = Some (-7)
  /\ parseInt (Some [120]) = None
  /\ parseInt None = None.
Proof. repeat split. Qed.

(** ** Feeder *)

(** What [next] answers when the cursor and the size are not negative. *)
Lemma Feeder_next_ok f size :
  0 <= cursor f -> 0 <= size -> cursor f + size <= byteLength (buffer f) ->
  Feeder.next size f =
  (Ret (firstn (Z.to_nat size) (skipn (Z.to_nat (cursor f)) (buffer f))),
   {| buffer := buffer f; cursor := cursor f + size |}).
Proof.
  intros Hc Hs Hle. unfold Feeder.next.
  destruct (cursor f + size >? byteLength (buffer f)) eqn:E.
  - apply Z.gtb_lt in E. lia.
  - rewrite slice_within by lia.
    now replace (cursor f + size - (cursor f + size - size)) with size by lia;
      replace (cursor f + size - size) with (cursor f) by lia.
Qed.

Lemma Feeder_next_fail f size :
  cursor f + size > byteLength (buffer f) ->
  Feeder.next size f = (Throw UnexpectedEndOfFile, f).
Proof.
  intros H. unfold Feeder.next.
  destruct (cursor f + size >? byteLength (buffer f)) eqn:E; [reflexivity |].
  rewrite Z.gtb_ltb in E. apply Z.ltb_ge in E. lia.
Qed.

(** C10, as the code has it: a failing [jump] or [next] leaves the feeder
    as it was, and fails for the stated reason only; a [next] that succeeds
    keeps the buffer, and when neither the cursor nor the size is negative
    it returns the [size] bytes that start at the old cursor and moves the
    cursor by [size]. *)
Theorem Feeder_failure_keeps_cursor_next_reads_size (f : Feeder) :
  (forall p e f', Feeder.jump p f = (Throw e, f') ->
     f' = f /\ e = JumpOutOfBounds /\ (p < 0 \/ p > byteLength (buffer f)))
  /\ (forall p, p < 0 \/ p > byteLength (buffer f) ->
        Feeder.jump p f = (Throw JumpOutOfBounds, f))
  /\ (forall size e f', Feeder.next size f = (Throw e, f') ->
        f' = f /\ e = UnexpectedEndOfFile /\ cursor f + size > byteLength (buffer f))
  /\ (forall size, cursor f + size > byteLength (buffer f) ->
        Feeder.next size f = (Throw UnexpectedEndOfFile, f))
  /\ (forall size bytes f', Feeder.next size f = (Ret bytes, f') ->
        buffer f' = buffer f
        /\ (0 <= cursor f -> 0 <= size ->
            cursor f' = cursor f + size
            /\ bytes = firstn (Z.to_nat size) (skipn (Z.to_nat (cursor f)) (buffer f))
            /\ byteLength bytes = size)).
Proof.
  repeat split.
  - unfold Feeder.jump in H. destruct (_ || _); now inversion H.
  - unfold Feeder.jump in H. destruct (_ || _); now inversion H.
  - unfold Feeder.jump in H.
    destruct ((p <? 0) || (p >? byteLength (buffer f))) eqn:E; [| discriminate].
    apply orb_true_iff in E. destruct E as [E | E].
    + left. now apply Z.ltb_lt.
    + right. apply Z.gtb_lt in E. lia.
  - intros p [H | H]; unfold Feeder.jump.
    + apply Z.ltb_lt in H. now rewrite H.
    + assert (E : (p >? byteLength (buffer f)) = true) by (apply Z.gtb_lt; lia).
      now rewrite E, orb_true_r.
  - unfold Feeder.next in H. destruct (_ >? _); now inversion H.
  - unfold Feeder.next in H. destruct (_ >? _); now inversion H.
  - unfold Feeder.next in H.
    destruct (cursor f + size >? byteLength (buffer f)) eqn:E; [| discriminate].
    apply Z.gtb_lt in E. lia.
  - intros size. apply Feeder_next_fail.
  - unfold Feeder.next in H. destruct (_ >? _); inversion H. reflexivity.
  - unfold Feeder.next in H. destruct (_ >? _); inversion H. reflexivity.
  - assert (Hle : cursor f + size <= byteLength (buffer f)).
    { unfold Feeder.next in H.
      destruct (cursor f + size >? byteLength (buffer f)) eqn:E; [discriminate |].
      rewrite Z.gtb_ltb in E. now apply Z.ltb_ge in E. }
    rewrite Feeder_next_ok in H by assumption. now inversion H.
  - assert (Hle : cursor f + size <= byteLength (buffer f)).
    { unfold Feeder.next in H.
      destruct (cursor f + size >? byteLength (buffer f)) eqn:E; [discriminate |].
      rewrite Z.gtb_ltb in E. now apply Z.ltb_ge in E. }
    rewrite Feeder_next_ok in H by assumption. inversion H.
    now apply byteLength_chunk.
Qed.

(** C10 at a feeder of four bytes with the cursor on the second: [jump 9]
    and [next 5] fail and change nothing, [next 2] returns bytes two and
    three and puts the cursor on the fourth. *)
Lemma Feeder_failure_keeps_cursor_witness :
  let f := {| buffer := [x0a; x0b; x0c; x0d]; cursor := 1 |} in
  Feeder.jump 9 f = (Throw JumpOutOfBounds, f)
  /\ Feeder.next 5 f = (Throw UnexpectedEndOfFile, f)
  /\ Feeder.next 2 f = (Ret [x0b; x0c], {| buffer := buffer f; cursor := 3 |}).
Proof.
  intros f.
  destruct (Feeder_failure_keeps_cursor_next_reads_size f)
    as (_ & Hjump & _ & Hnext & _).
  split; [apply Hjump; right; vm_compute; reflexivity |].
  split; [apply Hnext; vm_compute; reflexivity |].
  reflexivity.
Defined.

(** C10 as it is stated fails for a negative size: [next (-1)] succeeds,
    returns three bytes and leaves the cursor before the buffer. *)
Lemma Feeder_next_negative_size :
  exists bytes,
    Feeder.next (-1) {| buffer := [x0a; x0b; x0c; x0d]; cursor := 0 |}
    = (Ret bytes, {| buffer := [x0a; x0b; x0c; x0d]; cursor := -1 |})
    /\ bytes = [x0a; x0b; x0c]
    /\ (byteLength bytes =? (-1)) = false.
Proof.
  exists [x0a; x0b; x0c]. repeat split.
Qed.

(** ** Reading through the shared feeder *)

Lemma next_ok w n :
  0 <= n -> available n w ->
  next n w = (Ret (chunk_at (feeder w) n), advance n w).
Proof.
  intros Hn [Hc Hle]. unfold next, on_feeder, zoom.
  now rewrite Feeder_next_ok.
Qed.

Lemma next_fail w n :
  cursor (feeder w) + n > byteLength (buffer (feeder w)) ->
  next n w = (Throw UnexpectedEndOfFile, w).
Proof.
  intros H. unfold next, on_feeder, zoom. rewrite Feeder_next_fail by assumption.
  now destruct w.
Qed.

Lemma next_never_out_of_fuel n w w' : next n w <> (OutOfFuel, w').
Proof.
  unfold next, on_feeder, zoom, Feeder.next. destruct (_ >? _); discriminate.
Qed.

Lemma next_Ret_inv n w chunk w1 :
  next n w = (Ret chunk, w1) ->
  w1 = advance n w
  /\ cursor (feeder w) + n <= byteLength (buffer (feeder w)).
Proof.
  unfold next, on_feeder, zoom, Feeder.next. intros H.
  destruct (cursor (feeder w) + n >? byteLength (buffer (feeder w))) eqn:E;
    [discriminate |].
  inversion H; subst. split; [reflexivity |].
  rewrite Z.gtb_ltb in E. now apply Z.ltb_ge in E.
Qed.

Lemma byteLength_chunk_at f n :
  0 <= cursor f -> 0 <= n -> cursor f + n <= byteLength (buffer f) ->
  byteLength (chunk_at f n) = n.
Proof. intros. now apply byteLength_chunk. Qed.

Lemma byte_val_range b : 0 <= byte_val b < 256.
Proof.
  unfold byte_val. pose proof (Byte.to_N_bounded b) as H. lia.
Qed.

Lemma getUint8_range v off i : getUint8 v off = Some i -> 0 <= i < 256.
Proof.
  unfold getUint8, view_bytes.
  destruct (_ || _); [discriminate |]. cbn.
  destruct (skipn (Z.to_nat off) v) as [| b rest]; cbn; intros H; inversion H.
  - lia.
  - pose proof (byte_val_range b). lia.
Qed.

(** ** DataReader *)

Lemma reader_next_ok r n :
  0 <= n -> available n (DataReader.world r) ->
  DataReader.on_world (next n) r
  = (Ret (chunk_at (feeder (DataReader.world r)) n),
     with_world (advance n (DataReader.world r)) r).
Proof.
  intros Hn Hav. unfold DataReader.on_world, zoom.
  now rewrite next_ok.
Qed.

Lemma reader_next_fail r n :
  cursor (feeder (DataReader.world r)) + n
  > byteLength (buffer (feeder (DataReader.world r))) ->
  DataReader.on_world (next n) r = (Throw UnexpectedEndOfFile, r).
Proof.
  intros H. unfold DataReader.on_world, zoom. rewrite next_fail by assumption.
  now destruct r.
Qed.

(** The instruction reader never answers 0: it answers a byte from 1 to 255. *)
Lemma compressedCodes_range fuel : forall r c r1,
  DataReader.compressedCodes fuel r = (Ret c, r1) -> 1 <= c <= 255.
Proof.
  induction fuel as [| fuel IH]; intros r c r1 H; [discriminate |].
  cbn [DataReader.compressedCodes] in H.
  inv_bind H as c0 s0 H0. inv_bind H as u1 s1 H1. inv_bind H as ins s2 H2.
  destruct ins as [v |]; [| discriminate].
  inv_bind H as c3 s3 H3. inv_bind H as u4 s4 H4. inv_bind H as i s5 H5.
  apply view_Ret_inv in H5. destruct H5 as [Hget _].
  destruct (i =? 0) eqn:E.
  - now apply IH in H.
  - inversion H; subst. apply getUint8_range in Hget.
    apply Z.eqb_neq in E. lia.
Qed.


Lemma view_bytes_whole v n :
  byteLength v = n -> view_bytes v 0 n = Some v.
Proof.
  intros H. unfold view_bytes. cbn [Z.ltb Z.compare orb].
  replace (0 + n >? byteLength v) with false.
  - cbn. subst n. unfold byteLength. rewrite Nat2Z.id. now rewrite firstn_all.
  - symmetry. rewrite Z.gtb_ltb. apply Z.ltb_ge. lia.
Qed.

Lemma getFloat64_whole v le :
  byteLength v = 8 ->
  getFloat64 v 0 le = Some (f64_of_bits (if le then le_value v else be_value v)).
Proof.
  intros H. unfold getFloat64. now rewrite view_bytes_whole.
Qed.

(** C3: the numeric cell decoder reads one instruction code [c], never 0.
    A code from 1 to 251 is the number [c - bias]; 255 is null; 253 is the
    next eight bytes read as a little-endian double (and the end of file
    when fewer than eight remain); 252 and 254 are fatal. *)
Theorem compressedNumber_by_code sch fuel r c r1 :
  DataReader.compressedCodes fuel r = (Ret c, r1) ->
  1 <= c <= 255
  /\ (1 <= c <= 251 ->
      DataReader.compressedNumber sch fuel r
      = (Ret (CNumber (PrimFloat.sub (to_number c) (bias (meta_of sch)))), r1))
  /\ (c = 255 -> DataReader.compressedNumber sch fuel r = (Ret CNull, r1))
  /\ (c = 253 -> available 8 (DataReader.world r1) ->
      DataReader.compressedNumber sch fuel r
      = (Ret (CNumber
                (f64_of_bits (le_value (chunk_at (feeder (DataReader.world r1)) 8)))),
         with_world (advance 8 (DataReader.world r1)) r1))
  /\ (c = 253 ->
      cursor (feeder (DataReader.world r1)) + 8
      > byteLength (buffer (feeder (DataReader.world r1))) ->
      DataReader.compressedNumber sch fuel r = (Throw UnexpectedEndOfFile, r1))
  /\ (c = 252 ->
      DataReader.compressedNumber sch fuel r = (Throw UnexpectedEndOfRecords, r1))
  /\ (c = 254 ->
      DataReader.compressedNumber sch fuel r = (Throw CellCodeTypeMismatch, r1)).
Proof.
  intros H. split; [now apply compressedCodes_range in H |].
  unfold DataReader.compressedNumber. rewrite (bind_Ret _ _ _ _ _ H).
  repeat split.
  - intros Hc.
    destruct (c =? 252) eqn:E1; [apply Z.eqb_eq in E1; lia |].
    destruct (c =? 253) eqn:E2; [apply Z.eqb_eq in E2; lia |].
    destruct (c =? 254) eqn:E3; [apply Z.eqb_eq in E3; lia |].
    destruct (c =? 255) eqn:E4; [apply Z.eqb_eq in E4; lia |].
    reflexivity.
  - intros ->. reflexivity.
  - intros -> Hav. cbn [Z.eqb Pos.eqb].
    rewrite (bind_Ret _ _ _ _ _ (reader_next_ok r1 8 ltac:(lia) Hav)).
    rewrite getFloat64_whole.
    + reflexivity.
    + destruct Hav. apply byteLength_chunk_at; lia.
  - intros -> Hlt. cbn [Z.eqb Pos.eqb].
    now rewrite (bind_Throw _ _ _ _ _ (reader_next_fail r1 8 Hlt)).
  - intros ->. reflexivity.
  - intros ->. reflexivity.
Qed.

(** C3 on an instruction block [0, 0, 101, 253, ...] followed by the
    double 2.5: the two zero bytes are skipped, code 101 is the number 1
    (the bias is 100), and the next cell, code 253, is the literal 2.5. *)
Lemma compressedNumber_by_code_witness :
  let sch := sample_schema 1 [] in
  let r := sample_reader ([x00; x00; x65; xfd; xff; x00; x00; x00]
                          ++ le64 0x4004000000000000) in
  exists r1 r2,
    DataReader.compressedNumber sch 3 r = (Ret (CNumber 1%float), r1)
    /\ DataReader.compressedNumber sch 3 r1 = (Ret (CNumber 2.5%float), r2)
    /\ DataReader.cursor r2 = 4
    /\ cursor (feeder (DataReader.world r2)) = 16.
Proof.
  intros sch r.
  set (r1 := snd (DataReader.compressedCodes 3 r)).
  set (r2 := snd (DataReader.compressedCodes 3 r1)).
  assert (H1 : DataReader.compressedCodes 3 r = (Ret 101, r1))
    by (vm_compute; reflexivity).
  assert (H2 : DataReader.compressedCodes 3 r1 = (Ret 253, r2))
    by (vm_compute; reflexivity).
  destruct (compressedNumber_by_code sch 3 r 101 r1 H1) as (_ & Hnum & _).
  destruct (compressedNumber_by_code sch 3 r1 253 r2 H2)
    as (_ & _ & _ & Hlit & _).
  exists r1, (with_world (advance 8 (DataReader.world r2)) r2).
  split; [rewrite Hnum by lia; reflexivity |].
  split.
  - rewrite Hlit; [reflexivity | reflexivity | vm_compute; split; discriminate].
  - split; reflexivity.
Defined.

Lemma advance_advance a b w : advance a (advance b w) = advance (b + a) w.
Proof. unfold advance. cbn. f_equal. f_equal. lia. Qed.

Lemma available_advance a b w :
  0 <= a -> available (a + b) w -> available b (advance a w).
Proof. unfold available, advance. cbn. lia. Qed.

Lemma with_world_world w r : DataReader.world (with_world w r) = w.
Proof. reflexivity. Qed.

Lemma with_world_twice w1 w2 r : with_world w1 (with_world w2 r) = with_world w1 r.
Proof. reflexivity. Qed.

(** The loop of [uncompressedString]: [n] turns consume [n] segments, and
    [pieces] comes out as it went in. *)
Lemma uncompressedString_loop_ok fuel : forall n pieces r,
  1 <= n -> n <= Z.of_nat fuel -> available (8 * n) (DataReader.world r) ->
  DataReader.uncompressedString_loop fuel n pieces r
  = (Ret (join pieces), with_world (advance (8 * n) (DataReader.world r)) r).
Proof.
  induction fuel as [| fuel IH]; intros n pieces r Hn Hfuel Hav; [lia |].
  cbn [DataReader.uncompressedString_loop].
  assert (Hav8 : available 8 (DataReader.world r)) by (unfold available in *; lia).
  rewrite (bind_Ret _ _ _ _ _ (reader_next_ok r 8 ltac:(lia) Hav8)).
  cbv zeta. destruct (n - 1 =? 0) eqn:E.
  - apply Z.eqb_eq in E. replace n with 1 by lia. reflexivity.
  - apply Z.eqb_neq in E. rewrite IH.
    + rewrite with_world_world, with_world_twice, advance_advance.
      now replace (8 + 8 * (n - 1)) with (8 * n) by lia.
    + lia.
    + lia.
    + rewrite with_world_world. apply available_advance; [lia |].
      now replace (8 + 8 * (n - 1)) with (8 * n) by lia.
Qed.

Lemma ceil8_spec w : DataReader.ceil8 w = (w + 7) / 8.
Proof.
  unfold DataReader.ceil8.
  pose proof (Z.div_mod (- w) 8 ltac:(lia)) as H1.
  pose proof (Z.mod_pos_bound (- w) 8 ltac:(lia)) as H2.
  apply Z.div_unique with (r := 7 - (- w) mod 8); lia.
Qed.

Lemma ceil8_pos w : 0 < w -> 1 <= DataReader.ceil8 w.
Proof.
  intros H. rewrite ceil8_spec.
  apply Z.div_le_lower_bound; lia.
Qed.

(** C4, as the code has it: an uncompressed string cell of declared width
    [w > 0] consumes exactly [ceil (w / 8)] segments of eight bytes, and its
    value is the empty string whatever the segments hold. *)
Theorem readCell_uncompressed_string_is_empty sch fuel header r :
  compression (meta_of sch) = 0 ->
  0 < code header ->
  DataReader.ceil8 (code header) <= Z.of_nat fuel ->
  available (8 * DataReader.ceil8 (code header)) (DataReader.world r) ->
  DataReader.readCell sch fuel header r
  = (Ret (CString []),
     with_world
       (advance (8 * DataReader.ceil8 (code header))
                (logged (LogCell (name header)) (DataReader.world r))) r)
  /\ DataReader.ceil8 (code header) = (code header + 7) / 8.
Proof.
  intros Hcomp Hw Hfuel Hav. split; [| apply ceil8_spec].
  unfold DataReader.readCell, bind at 1. cbn [DataReader.on_world zoom log_push modify].
  destruct (code header =? 0) eqn:E; [apply Z.eqb_eq in E; lia |].
  cbn [negb]. unfold DataReader.readString. rewrite Hcomp. cbn [Z.eqb negb].
  unfold DataReader.uncompressedString.
  erewrite bind_Ret.
  2:{ apply uncompressedString_loop_ok; [now apply ceil8_pos | exact Hfuel | exact Hav]. }
  reflexivity.
Qed.

(** C4 on a field of width 8 whose segment holds HELLO and three spaces:
    the eight bytes are consumed and the cell is the empty string, not the
    text of the segment. *)
Lemma readCell_uncompressed_string_witness :
  let header := {| start := 0; code := 8; name := [65]; label := [];
                   missing := no_missing; trailers := 0 |} in
  let data := [x48; x45; x4c; x4c; x4f; x20; x20; x20] in
  exists r1,
    DataReader.readCell (sample_schema 0 [header]) 1 header (sample_reader data)
    = (Ret (CString []), r1)
    /\ cursor (feeder (DataReader.world r1)) = 8
    /\ decode data = [72; 69; 76; 76; 79; 32; 32; 32].
Proof.
  intros header data.
  destruct (readCell_uncompressed_string_is_empty
              (sample_schema 0 [header]) 1 header (sample_reader data))
    as [H _].
  - reflexivity.
  - reflexivity.
  - vm_compute. discriminate.
  - vm_compute. split; discriminate.
  - eexists. split; [exact H |]. split; reflexivity.
Defined.

(** More fuel does not change what the instruction reader answers. *)
Lemma compressedCodes_more_fuel fuel : forall fuel' r c r1,
  DataReader.compressedCodes fuel r = (Ret c, r1) ->
  (fuel <= fuel')%nat ->
  DataReader.compressedCodes fuel' r = (Ret c, r1).
Proof.
  induction fuel as [| fuel IH]; intros fuel' r c r1 H Hle; [discriminate |].
  destruct fuel' as [| fuel']; [lia |].
  cbn [DataReader.compressedCodes] in *.
  inv_bind H as c0 s0 H0. rewrite (bind_Ret _ _ _ _ _ H0).
  inv_bind H as u1 s1 H1. rewrite (bind_Ret _ _ _ _ _ H1).
  inv_bind H as ins s2 H2. rewrite (bind_Ret _ _ _ _ _ H2).
  destruct ins as [v |]; [| discriminate].
  inv_bind H as c3 s3 H3. rewrite (bind_Ret _ _ _ _ _ H3).
  inv_bind H as u4 s4 H4. rewrite (bind_Ret _ _ _ _ _ H4).
  inv_bind H as i s5 H5. rewrite (bind_Ret _ _ _ _ _ H5).
  destruct (i =? 0); [| exact H].
  apply IH; [exact H | lia].
Qed.

Lemma segments_zero fuel r ps r1 :
  segments fuel 0 r ps r1 -> ps = [] /\ r1 = r.
Proof. intros H. now inversion H. Qed.

Lemma segments_length fuel k r ps r1 :
  segments fuel k r ps r1 -> length ps = k.
Proof. induction 1; cbn; congruence. Qed.

(** The loop of [compressedString] run over [k] segments that were read
    before, with [pieces] collected so far. *)
Lemma compressedString_loop_segments fuel0 k r ps r1 :
  segments fuel0 k r ps r1 ->
  forall fuel n pieces,
    (fuel0 + n <= fuel)%nat -> (k <= n)%nat ->
    (k = n -> (0 < n)%nat ->
     DataReader.compressedString_loop fuel (Z.of_nat n) pieces r
     = (Ret (CString (join (pieces ++ ps))), r1))
    /\ ((k < n)%nat -> forall c r2,
        DataReader.compressedCodes fuel0 r1 = (Ret c, r2) ->
        (c = 255 ->
         DataReader.compressedString_loop fuel (Z.of_nat n) pieces r = (Ret CNull, r2))
        /\ (c = 252 ->
            DataReader.compressedString_loop fuel (Z.of_nat n) pieces r
            = (Throw UnexpectedEndOfRecords, r2))
        /\ (c < 252 ->
            DataReader.compressedString_loop fuel (Z.of_nat n) pieces r
            = (Throw DefaultCodeNotSupported, r2))).
Proof.
  induction 1 as [r | k r r1 chunk r2 ps r3 Hcode Hnext Hseg IH
                    | k r r1 ps r3 Hcode Hseg IH];
    intros fuel n pieces Hfuel Hk.
  - split; [lia |]. intros Hlt c r2 Hc.
    destruct fuel as [| fuel]; [lia |].
    cbn [DataReader.compressedString_loop].
    rewrite (bind_Ret _ _ _ _ _
               (compressedCodes_more_fuel _ (S fuel) _ _ _ Hc ltac:(lia))).
    repeat split.
    + intros ->. reflexivity.
    + intros ->. reflexivity.
    + intros Hlow.
      destruct (c =? 252) eqn:E1; [apply Z.eqb_eq in E1; lia |].
      destruct (c =? 253) eqn:E2; [apply Z.eqb_eq in E2; lia |].
      destruct (c =? 254) eqn:E3; [apply Z.eqb_eq in E3; lia |].
      destruct (c =? 255) eqn:E4; [apply Z.eqb_eq in E4; lia |].
      reflexivity.
  - destruct n as [| n]; [lia |]. destruct fuel as [| fuel]; [lia |].
    cbn [DataReader.compressedString_loop].
    rewrite (bind_Ret _ _ _ _ _
               (compressedCodes_more_fuel _ (S fuel) _ _ _ Hcode ltac:(lia))).
    cbn [Z.eqb Pos.eqb]. rewrite (bind_Ret _ _ _ _ _ Hnext).
    replace (Z.of_nat (S n) - 1) with (Z.of_nat n) by lia.
    destruct (IH fuel n (pieces ++ [decode chunk]) ltac:(lia) ltac:(lia))
      as [IHdone IHmore].
    destruct n as [| n].
    + cbn [Z.of_nat Z.eqb]. split; [| lia].
      intros Hk1 _. assert (k = 0)%nat by lia. subst k.
      apply segments_zero in Hseg. destruct Hseg as [-> ->]. reflexivity.
    + replace (Z.of_nat (S n) =? 0) with false
        by (symmetry; apply Z.eqb_neq; lia).
      split.
      * intros Hk1 _. rewrite IHdone by lia. now rewrite <- app_assoc.
      * intros Hlt c r4 Hc. apply IHmore; [lia | exact Hc].
  - destruct n as [| n]; [lia |]. destruct fuel as [| fuel]; [lia |].
    cbn [DataReader.compressedString_loop].
    rewrite (bind_Ret _ _ _ _ _
               (compressedCodes_more_fuel _ (S fuel) _ _ _ Hcode ltac:(lia))).
    cbn [Z.eqb Pos.eqb].
    replace (Z.of_nat (S n) - 1) with (Z.of_nat n) by lia.
    destruct (IH fuel n (pieces ++ [[]]) ltac:(lia) ltac:(lia))
      as [IHdone IHmore].
    destruct n as [| n].
    + cbn [Z.of_nat Z.eqb]. split; [| lia].
      intros Hk1 _. assert (k = 0)%nat by lia. subst k.
      apply segments_zero in Hseg. destruct Hseg as [-> ->]. reflexivity.
    + replace (Z.of_nat (S n) =? 0) with false
        by (symmetry; apply Z.eqb_neq; lia).
      split.
      * intros Hk1 _. rewrite IHdone by lia. now rewrite <- app_assoc.
      * intros Hlt c r4 Hc. apply IHmore; [lia | exact Hc].
Qed.

(** C5: a compressed string cell of [n] segments reads one instruction code
    per segment.  When [n] segments were read, each a code 253 with its
    eight literal bytes or a code 254, the cell is the concatenation of the
    [n] pieces.  When fewer were read and the next code is 255, the cell is
    null and the reader stands just after that code; when it is 252, or any
    code below 252, the cell fails. *)
Theorem compressedString_by_codes fuel0 fuel n k r ps r1 :
  segments fuel0 k r ps r1 ->
  (fuel0 + n <= fuel)%nat -> (k <= n)%nat ->
  (k = n -> (0 < n)%nat ->
   DataReader.compressedString fuel (Z.of_nat n) r = (Ret (CString (join ps)), r1)
   /\ length ps = n)
  /\ ((k < n)%nat -> forall c r2,
      DataReader.compressedCodes fuel0 r1 = (Ret c, r2) ->
      (c = 255 -> DataReader.compressedString fuel (Z.of_nat n) r = (Ret CNull, r2))
      /\ (c = 252 ->
          DataReader.compressedString fuel (Z.of_nat n) r
          = (Throw UnexpectedEndOfRecords, r2))
      /\ (c < 252 ->
          DataReader.compressedString fuel (Z.of_nat n) r
          = (Throw DefaultCodeNotSupported, r2))).
Proof.
  intros Hseg Hfuel Hk. unfold DataReader.compressedString.
  destruct (compressedString_loop_segments _ _ _ _ _ Hseg fuel n [] Hfuel Hk)
    as [Hdone Hmore].
  split.
  - intros Hkn Hn. split; [now apply Hdone |].
    apply segments_length in Hseg. lia.
  - exact Hmore.
Qed.

(** C5 on a field of width 10, two segments: code 253 with the literal
    HELLO and three zero bytes, then code 254.  The cell is the literal
    followed by the empty piece. *)
Lemma compressedString_by_codes_witness :
  let hello := [x48; x45; x4c; x4c; x4f; x00; x00; x00] in
  let r := sample_reader ([xfd; xfe; x00; x00; x00; x00; x00; x00] ++ hello) in
  exists r1,
    DataReader.compressedString 4 (DataReader.ceil8 10) r
    = (Ret (CString [72; 69; 76; 76; 79; 0; 0; 0]), r1)
    /\ DataReader.cursor r1 = 2
    /\ cursor (feeder (DataReader.world r1)) = 16.
Proof.
  intros hello r.
  assert (Hseg : exists r1, segments 2 2 r [decode hello; []] r1
                            /\ DataReader.cursor r1 = 2
                            /\ cursor (feeder (DataReader.world r1)) = 16).
  { eexists. split.
    - eapply segments_literal with (chunk := hello).
      + vm_compute. reflexivity.
      + vm_compute. reflexivity.
      + eapply segments_empty.
        * vm_compute. reflexivity.
        * apply segments_none.
    - split; reflexivity. }
  destruct Hseg as (r1 & Hseg & Hc & Hf).
  destruct (compressedString_by_codes 2 4 2 2 r _ r1 Hseg ltac:(lia) ltac:(lia))
    as [Hdone _].
  destruct (Hdone eq_refl ltac:(lia)) as [H _].
  exists r1. split; [exact H |]. split; assumption.
Defined.

(** The dispatch of [readCell] on a string field of a compressed file. *)
Lemma readCell_compressed_string sch fuel header r :
  compression (meta_of sch) <> 0 -> code header <> 0 ->
  DataReader.readCell sch fuel header r
  = DataReader.compressedString fuel (DataReader.ceil8 (code header))
      (with_world (logged (LogCell (name header)) (DataReader.world r)) r).
Proof.
  intros Hcomp Hcode.
  unfold DataReader.readCell, bind at 1.
  cbn [DataReader.on_world zoom log_push modify].
  apply Z.eqb_neq in Hcode. rewrite Hcode. cbn [negb].
  unfold DataReader.readString.
  apply Z.eqb_neq in Hcomp. rewrite Hcomp. reflexivity.
Qed.

(** ** Missing values *)

Lemma getFloat64_at v i le :
  0 <= i -> 8 * i + 8 <= byteLength v ->
  getFloat64 v (8 * i) le = Some (double_at le v i).
Proof.
  intros Hi Hle. unfold getFloat64, view_bytes, double_at.
  replace (8 * i <? 0) with false by (symmetry; apply Z.ltb_ge; lia).
  replace (8 * i + 8 >? byteLength v) with false
    by (symmetry; rewrite Z.gtb_ltb; apply Z.ltb_ge; lia).
  cbn. now destruct le.
Qed.

Lemma indices_range n i : In i (indices n) -> 0 <= i < n.
Proof.
  unfold indices. rewrite in_map_iff. intros (k & <- & Hk).
  apply in_seq in Hk. lia.
Qed.

Lemma length_indices n : length (indices n) = Z.to_nat n.
Proof. unfold indices. now rewrite length_map, length_seq. Qed.

Lemma new_Array_ok {S} n (s : S) : 0 <= n -> new_Array n s = (Ret (indices n), s).
Proof.
  intros H. unfold new_Array.
  now replace (n <? 0) with false by (symmetry; apply Z.ltb_ge; lia).
Qed.

Lemma mapM_getFloat64 {S} v le idxs (s : S) :
  (forall i, In i idxs -> 0 <= i /\ 8 * i + 8 <= byteLength v) ->
  mapM (fun idx => view (getFloat64 v (8 * idx) le)) idxs s
  = (Ret (map (double_at le v) idxs), s).
Proof.
  induction idxs as [| i idxs IH]; intros H; [reflexivity |].
  cbn [mapM map]. unfold bind at 1.
  rewrite getFloat64_at by (apply H; now left). cbn [view ret].
  unfold bind at 1. rewrite IH by (intros j Hj; apply H; now right).
  reflexivity.
Qed.

Lemma readFieldMissingCodes_ok v count w :
  0 <= count -> 8 * count <= byteLength v ->
  readFieldMissingCodes v count w
  = (Ret (map (double_at false v) (indices count)), w).
Proof.
  intros Hc Hle. unfold readFieldMissingCodes.
  rewrite (bind_Ret _ _ _ _ _ (new_Array_ok count w Hc)).
  apply mapM_getFloat64. intros i Hi. apply indices_range in Hi. lia.
Qed.

Lemma readFieldMissingRange_ok v w :
  16 <= byteLength v ->
  readFieldMissingRange v w = (Ret (double_at true v 0, double_at true v 1), w).
Proof.
  intros H. unfold readFieldMissingRange.
  change 0 with (8 * 0) at 1. change 8 with (8 * 1) at 2.
  unfold bind. rewrite !getFloat64_at by lia. reflexivity.
Qed.

(** C6, as the code has it, for a numeric field whose missing block of
    [8 * |count|] bytes is in the buffer.  A count [n > 0] gives exactly [n]
    codes, the [n] consecutive doubles of the block read big-endian, and no
    range; -2 gives the range, two doubles read little-endian, and no code;
    -3 gives the range and one code, the third double read big-endian. *)
Theorem readFieldMissing_numeric count w :
  available (8 * Z.abs count) w ->
  (0 < count ->
   readFieldMissing true count w
   = (Ret {| codes := map (double_at false (chunk_at (feeder w) (8 * count)))
                          (indices count);
             range := None; strings := [] |},
      advance (8 * count) w)
   /\ length (indices count) = Z.to_nat count)
  /\ (count = -2 ->
      readFieldMissing true count w
      = (Ret {| codes := [];
                range := Some (double_at true (chunk_at (feeder w) 16) 0,
                               double_at true (chunk_at (feeder w) 16) 1);
                strings := [] |},
         advance 16 w))
  /\ (count = -3 ->
      readFieldMissing true count w
      = (Ret {| codes := [double_at false (chunk_at (feeder w) 24) 2];
                range := Some (double_at true (chunk_at (feeder w) 24) 0,
                               double_at true (chunk_at (feeder w) 24) 1);
                strings := [] |},
         advance 24 w)).
Proof.
  intros Hav. unfold readFieldMissing.
  rewrite (bind_Ret _ _ _ _ _ (next_ok w (8 * Z.abs count) ltac:(lia) Hav)).
  destruct Hav as [Hc Hle].
  repeat split.
  - replace (Z.abs count) with count by lia.
    replace (count >? 0) with true by (symmetry; apply Z.gtb_lt; lia).
    replace (count <? 0) with false by (symmetry; apply Z.ltb_ge; lia).
    cbn [andb negb].
    erewrite bind_Ret.
    2:{ apply readFieldMissingCodes_ok; [lia |].
        rewrite byteLength_chunk_at; lia. }
    reflexivity.
  - apply length_indices.
  - intros ->. cbn [Z.abs Z.mul Pos.mul Z.gtb Z.eqb Z.ltb Z.compare Pos.eqb andb negb].
    cbn [Z.abs Z.mul Pos.mul] in Hle.
    unfold bind at 1. cbn [ret]. erewrite bind_Ret.
    2:{ erewrite bind_Ret.
        2:{ apply readFieldMissingRange_ok. rewrite byteLength_chunk_at; lia. }
        reflexivity. }
    reflexivity.
  - intros ->. cbn [Z.abs Z.mul Pos.mul Z.gtb Z.eqb Z.ltb Z.compare Pos.eqb andb negb].
    cbn [Z.abs Z.mul Pos.mul] in Hle.
    erewrite bind_Ret.
    2:{ erewrite bind_Ret.
        2:{ apply readFieldMissingCodes_ok; [lia |].
            rewrite byteLength_chunk_at; lia. }
        reflexivity. }
    erewrite bind_Ret.
    2:{ erewrite bind_Ret.
        2:{ apply readFieldMissingRange_ok. rewrite byteLength_chunk_at; lia. }
        reflexivity. }
    reflexivity.
Qed.

(** C6 on a numeric field with one missing code whose eight bytes are the
    little-endian encoding of 1.0: the block is consumed and the code is
    the double of the reversed bytes, which is not 1.0. *)
Lemma readFieldMissing_numeric_witness :
  let w := start_world (new_Feeder (le64 0x3FF0000000000000)) in
  exists m,
    readFieldMissing true 1 w = (Ret m, advance 8 w)
    /\ codes m = [f64_of_bits 0x000000000000F03F]
    /\ range m = None
    /\ double_at true (buffer (feeder w)) 0 = 1%float
    /\ PrimFloat.eqb (f64_of_bits 0x000000000000F03F) 1%float = false.
Proof.
  intros w.
  destruct (readFieldMissing_numeric 1 w) as [H _].
  - vm_compute. split; discriminate.
  - destruct (H ltac:(lia)) as [H1 _].
    eexists. split; [exact H1 |].
    repeat split; vm_compute; reflexivity.
Defined.

Lemma getInt32_some v off le :
  0 <= off -> off + 4 <= byteLength v -> exists z, getInt32 v off le = Some z.
Proof.
  intros H0 H4. unfold getInt32, view_bytes.
  replace (off <? 0) with false by (symmetry; apply Z.ltb_ge; lia).
  replace (off + 4 >? byteLength v) with false
    by (symmetry; rewrite Z.gtb_ltb; apply Z.ltb_ge; lia).
  cbn. eauto.
Qed.

(** When the missing count of a field record is 0 (and it has no label),
    [readField] reads the 28 bytes of the record and nothing more. *)
Lemma readField_without_missing_block w :
  available 28 w ->
  getInt32 (chunk_at (feeder w) 28) 4 true = Some 0 ->
  getInt32 (chunk_at (feeder w) 28) 8 true = Some 0 ->
  exists c,
    getInt32 (chunk_at (feeder w) 28) 0 true = Some c
    /\ readField w
       = (Ret {| start := cursor (feeder w); code := c;
                 name := trim (decode (slice (chunk_at (feeder w) 28) 20 28));
                 label := []; missing := no_missing; trailers := 0 |},
          advance 28 (logged (LogReadingField (cursor (feeder w))) w)).
Proof.
  intros Hav Hlab Hmis.
  destruct (getInt32_some (chunk_at (feeder w) 28) 0 true) as [c Hc]; [lia | |].
  { destruct Hav. rewrite byteLength_chunk_at; lia. }
  exists c. split; [exact Hc |].
  unfold readField.
  unfold bind at 1. cbn [position on_feeder zoom Feeder.position gets].
  unfold bind at 1. cbn [log_push modify].
  unfold bind at 1. cbn [position on_feeder zoom Feeder.position gets].
  erewrite bind_Ret by (apply next_ok; [lia | exact Hav]).
  cbn [logged feeder] in *.
  unfold bind at 1. rewrite Hc. cbn [view ret].
  unfold bind at 1. rewrite Hlab. cbn [view ret].
  unfold bind at 1. rewrite Hmis. cbn [view ret].
  reflexivity.
Qed.

(** ** Text *)

Lemma text_eqb_eq a : forall b, text_eqb a b = true <-> a = b.
Proof.
  induction a as [| x a IH]; intros [| y b]; cbn; split; intros H;
    try reflexivity; try discriminate.
  - apply andb_true_iff in H. destruct H as [Hx Ha].
    apply Z.eqb_eq in Hx. apply IH in Ha. now subst.
  - inversion H; subst. rewrite Z.eqb_refl. now apply IH.
Qed.

Lemma text_eqb_neq a b : a <> b -> text_eqb a b = false.
Proof.
  intros H. destruct (text_eqb a b) eqn:E; [| reflexivity].
  now apply text_eqb_eq in E.
Qed.

(** A byte met outside a sequence is echoed (ASCII), opens a sequence, or
    is replaced by U+FFFD. *)
Lemma utf8_lead_cases b :
  (b <= 0x7F /\ utf8_lead b = ([b], u_init))
  \/ (exists st, utf8_lead b = ([], st) /\ u_needed st <> 0)
  \/ utf8_lead b = ([0xFFFD], u_init).
Proof.
  unfold utf8_lead.
  destruct (b <=? 0x7F) eqn:E1; [left; split; [now apply Z.leb_le | reflexivity] |].
  destruct ((0xC2 <=? b) && (b <=? 0xDF));
    [right; left; eexists; split; [reflexivity | cbn; lia] |].
  destruct ((0xE0 <=? b) && (b <=? 0xEF));
    [right; left; eexists; split; [reflexivity | cbn; lia] |].
  destruct ((0xF0 <=? b) && (b <=? 0xF4));
    [right; left; eexists; split; [reflexivity | cbn; lia] |].
  now right; right.
Qed.

(** A decoding with no U+FFFD in it is no longer than its input, and when
    it starts outside a sequence and is as long as its input, every byte
    was ASCII and was echoed. *)
Lemma utf8_run_plain bs : forall st,
  ~ In 0xFFFD (utf8_run st bs) ->
  (length (utf8_run st bs) <= length bs)%nat
  /\ (u_needed st = 0 -> length (utf8_run st bs) = length bs ->
      utf8_run st bs = map byte_val bs).
Proof.
  induction bs as [| b rest IH]; intros st Hno.
  - cbn in *. destruct (u_needed st =? 0); [now split |].
    exfalso. apply Hno. now apply in_eq.
  - cbn [utf8_run] in *. unfold utf8_step in *.
    destruct (u_needed st =? 0) eqn:En.
    + destruct (utf8_lead_cases (byte_val b))
        as [[Hascii Hlead] | [(st' & Hlead & Hopen) | Hlead]];
        rewrite Hlead in *.
      * cbn [app] in *.
        destruct (IH u_init) as [Hlen Heq].
        { intros Hin. apply Hno. now apply in_cons. }
        split; [cbn [length]; lia |].
        intros _ Hfull. cbn [length] in Hfull. cbn [map]. f_equal.
        apply Heq; [reflexivity | lia].
      * cbn [app] in *. destruct (IH st' Hno) as [Hlen _].
        split; [cbn [length]; lia |]. intros _ Hfull. cbn [length] in Hfull. lia.
      * exfalso. apply Hno. now apply in_eq.
    + apply Z.eqb_neq in En.
      destruct (negb ((u_lower st <=? byte_val b) && (byte_val b <=? u_upper st))).
      * destruct (utf8_lead (byte_val b)) as [out st'].
        exfalso. apply Hno. cbn [app]. now apply in_eq.
      * destruct (u_seen st + 1 =? u_needed st).
        -- cbn [app] in *. destruct (IH u_init) as [Hlen _].
           { intros Hin. apply Hno. now apply in_cons. }
           split; [cbn [length]; lia | intros H; contradiction].
        -- cbn [app] in *. destruct (IH _ Hno) as [Hlen _].
           split; [cbn [length]; lia | intros H; contradiction].
Qed.

Lemma utf16_units_high c :
  0x10000 <= c -> exists lo, utf16_units c = [0xD800 + Z.shiftr (c - 0x10000) 10; lo]
                             /\ 0xD800 <= 0xD800 + Z.shiftr (c - 0x10000) 10.
Proof.
  intros H. unfold utf16_units.
  replace (c <? 0x10000) with false by (symmetry; apply Z.ltb_ge; lia).
  eexists. split; [reflexivity |].
  assert (0 <= Z.shiftr (c - 0x10000) 10) by (apply Z.shiftr_nonneg; lia). lia.
Qed.

(** Code units below the surrogates are the code points themselves. *)
Lemma flat_map_units_small l : forall t,
  flat_map utf16_units l = t -> Forall (fun u => u < 0xD800) t -> l = t.
Proof.
  induction l as [| c l IH]; intros t H Hsmall; [now cbn in H |].
  cbn [flat_map] in H.
  destruct (Z_lt_ge_dec c 0x10000) as [Hc | Hc].
  - unfold utf16_units in H.
    replace (c <? 0x10000) with true in H by (symmetry; apply Z.ltb_lt; lia).
    cbn in H. subst t. inversion Hsmall; subst. f_equal. now apply IH.
  - destruct (utf16_units_high c ltac:(lia)) as (lo & Hu & Hhi).
    rewrite Hu in H. cbn [app] in H. subst t.
    apply Forall_inv in Hsmall. cbv beta in Hsmall. lia.
Qed.

Lemma byte_val_inv b z :
  byte_val b = z -> Byte.of_N (Z.to_N z) = Some b.
Proof.
  intros <-. unfold byte_val. rewrite N2Z.id. apply Byte.of_to_N.
Qed.

(** The decoder answers '$FL2' on four bytes only when they are the bytes
    of '$FL2'. *)
Lemma decode_FL2 bs :
  length bs = 4%nat -> decode bs = FL2 -> bs = [x24; x46; x4c; x32].
Proof.
  intros Hlen Hdec. unfold decode in Hdec.
  apply flat_map_units_small in Hdec.
  2:{ unfold FL2. repeat constructor. }
  assert (Hcps : utf8_run u_init bs = FL2 \/ utf8_run u_init bs = 0xFEFF :: FL2).
  { unfold strip_bom in Hdec. destruct (utf8_run u_init bs) as [| c cps].
    - discriminate.
    - destruct (c =? 0xFEFF) eqn:E.
      + apply Z.eqb_eq in E. right. now subst.
      + now left. }
  assert (Hno : ~ In 0xFFFD (utf8_run u_init bs)).
  { destruct Hcps as [-> | ->]; cbn; intros H;
      repeat (destruct H as [H | H]; [discriminate |]); exact H. }
  destruct (utf8_run_plain bs u_init Hno) as [Hle Heq].
  destruct Hcps as [Hcps | Hcps].
  - rewrite Hcps in Heq. specialize (Heq eq_refl ltac:(cbn; lia)).
    destruct bs as [| b0 [| b1 [| b2 [| b3 [| b4 bs]]]]]; try discriminate.
    cbn in Heq. unfold FL2 in Heq. inversion Heq as [[H0 H1 H2 H3]].
    symmetry in H0, H1, H2, H3.
    apply byte_val_inv in H0, H1, H2, H3. cbn in H0, H1, H2, H3.
    congruence.
  - rewrite Hcps in Hle. cbn in Hle. lia.
Qed.

(** ** The metadata read *)

(** The signature as bytes. *)
Lemma FL2_bytes : map byte_of FL2 = [x24; x46; x4c; x32].
Proof. reflexivity. Qed.

(** Building the metadata object touches neither the feeder nor the log. *)
Lemma meta_fields_pure chunk w :
  exists r, meta_fields chunk w = (r, w) /\ r <> OutOfFuel.
Proof.
  unfold meta_fields, bind, view.
  repeat match goal with
         | |- context [getInt32 ?v ?o ?le] => destruct (getInt32 v o le)
         | |- context [getFloat64 ?v ?o ?le] => destruct (getFloat64 v o le)
         end;
    cbn; eexists; (split; [reflexivity | discriminate]).
Qed.

Lemma after_reject_pure {A} e chunk w :
  @after_reject A Meta e (meta_fields chunk) w = (Ret (Rejected e), w).
Proof.
  unfold after_reject. destruct (meta_fields_pure chunk w) as (r & -> & Hr).
  now destruct r.
Qed.

Lemma jump_ok w p :
  0 <= p <= byteLength (buffer (feeder w)) ->
  jump p w = (Ret tt, {| feeder := {| buffer := buffer (feeder w); cursor := p |};
                         log := log w |}).
Proof.
  intros [H0 Hle]. unfold jump, on_feeder, zoom, Feeder.jump.
  replace (p <? 0) with false by (symmetry; apply Z.ltb_ge; lia).
  replace (p >? byteLength (buffer (feeder w))) with false
    by (symmetry; rewrite Z.gtb_ltb; apply Z.ltb_ge; lia).
  reflexivity.
Qed.

Lemma jump_Ret_inv p w u w' :
  jump p w = (Ret u, w') ->
  0 <= p <= byteLength (buffer (feeder w))
  /\ w' = {| feeder := {| buffer := buffer (feeder w); cursor := p |};
             log := log w |}.
Proof.
  unfold jump, on_feeder, zoom, Feeder.jump.
  destruct (p <? 0) eqn:E1; [discriminate |].
  destruct (p >? byteLength (buffer (feeder w))) eqn:E2; [discriminate |].
  cbn [orb]. intros H. inversion H; subst.
  apply Z.ltb_ge in E1. rewrite Z.gtb_ltb in E2. apply Z.ltb_ge in E2.
  split; [lia | reflexivity].
Qed.

Lemma firstn_4_of_chunk buf :
  176 <= byteLength buf ->
  slice (chunk_at {| buffer := buf; cursor := 0 |} 176) 0 4 = firstn 4 buf.
Proof.
  intros H. unfold chunk_at. cbn [cursor buffer Z.to_nat skipn].
  rewrite slice_within.
  - cbn [Z.sub Z.to_nat skipn Z.opp Z.add]. rewrite firstn_firstn. reflexivity.
  - lia.
  - lia.
  - unfold byteLength in *. rewrite length_firstn. lia.
Qed.

(** C7, as the code has it.  The metadata read takes the 176 bytes of the
    header before it looks at the signature: on a buffer of at least 176
    bytes whose first four bytes are not those of '$FL2' the promise is
    rejected with the error that names '$FL2' and the text found, no
    metadata is produced and the cursor is back where it was; on a shorter
    buffer the promise is rejected with the end-of-file error. *)
Theorem meta_rejects_wrong_signature buf pos lg :
  0 <= pos <= byteLength buf ->
  (176 <= byteLength buf ->
   firstn 4 buf <> [x24; x46; x4c; x32] ->
   meta {| feeder := {| buffer := buf; cursor := pos |}; log := lg |}
   = (Ret (Rejected (NotSav FL2 (decode (firstn 4 buf)))),
      {| feeder := {| buffer := buf; cursor := pos |}; log := [] |})
   /\ decode (firstn 4 buf) <> FL2)
  /\ (byteLength buf < 176 ->
      meta {| feeder := {| buffer := buf; cursor := pos |}; log := lg |}
      = (Ret (Rejected UnexpectedEndOfFile),
         {| feeder := {| buffer := buf; cursor := pos |}; log := [] |})).
Proof.
  intros Hpos. split.
  - intros Hlen Hsig.
    assert (Hdec : decode (firstn 4 buf) <> FL2).
    { intros Hd. apply Hsig. apply decode_FL2; [| exact Hd].
      rewrite length_firstn. unfold byteLength in Hlen. lia. }
    split; [| exact Hdec].
    unfold meta.
    unfold bind at 1. cbn [log_clear modify feeder log].
    unfold bind at 1. cbn [position on_feeder zoom Feeder.position gets feeder cursor].
    erewrite bind_Ret by (apply jump_ok; cbn; lia).
    unfold finally_. cbn [feeder buffer log].
    erewrite bind_Ret.
    2:{ unfold meta_executor. rewrite next_ok; [| lia | split; cbn; lia].
        cbn [feeder]. rewrite firstn_4_of_chunk by exact Hlen.
        rewrite (text_eqb_neq _ _ Hdec). cbn [negb].
        apply after_reject_pure. }
    rewrite jump_ok by (cbn; lia). reflexivity.
  - intros Hlen.
    unfold meta.
    unfold bind at 1. cbn [log_clear modify feeder log].
    unfold bind at 1. cbn [position on_feeder zoom Feeder.position gets feeder cursor].
    erewrite bind_Ret by (apply jump_ok; cbn; lia).
    unfold finally_. cbn [feeder buffer log].
    erewrite bind_Ret.
    2:{ unfold meta_executor. rewrite next_fail by (cbn; lia). reflexivity. }
    rewrite jump_ok by (cbn; lia). reflexivity.
Qed.

(** C7 on the sample header with its first byte changed to A: rejected,
    naming '$FL2' and 'AFL2', with the cursor still at 0. *)
Lemma meta_rejects_wrong_signature_witness :
  let buf := x41 :: tl (sample_header 0 3) in
  meta (start_world (new_Feeder buf))
  = (Ret (Rejected (NotSav [36; 70; 76; 50] [65; 70; 76; 50])),
     start_world (new_Feeder buf)).
Proof.
  intros buf.
  destruct (meta_rejects_wrong_signature buf 0 []) as [H _].
  - vm_compute. split; discriminate.
  - destruct H as [H _].
    + vm_compute. discriminate.
    + vm_compute. discriminate.
    + exact H.
Defined.

(** C7 as it is stated fails on a short buffer: the four bytes ABCD are not
    the signature, and the error is the end of file, which names neither
    the expected nor the actual signature. *)
Lemma meta_short_buffer_end_of_file :
  meta (start_world (new_Feeder [x41; x42; x43; x44]))
  = (Ret (Rejected UnexpectedEndOfFile), start_world (new_Feeder [x41; x42; x43; x44]))
  /\ text_eqb (decode [x41; x42; x43; x44]) FL2 = false.
Proof. split; reflexivity. Qed.

(** ** The field dictionary *)

(** Take apart every bind of a successful computation. *)
Ltac inv_binds H :=
  repeat (apply bind_Ret_inv in H; destruct H as (? & ? & ? & H)).


Lemma readField_trailers w f w' : readField w = (Ret f, w') -> trailers f = 0.
Proof.
  unfold readField. intros H. inv_binds H.
  inversion H. reflexivity.
Qed.

Lemma field_stream_trailers w records w1 :
  field_stream w records w1 -> Forall (fun r => trailers r = 0) records.
Proof.
  induction 1 as [| w chunk w1 field w2 fields w3 _ _ Hfield _ IH].
  - constructor.
  - constructor; [now apply readField_trailers in Hfield | exact IH].
Qed.

(** The loop of [readFields] does to its list what [absorb] says, record
    by record, and rewinds over the tag that ended the stream. *)
Lemma readFields_loop_absorbs w records w1 :
  field_stream w records w1 ->
  forall fuel acc fields,
    4 <= cursor (feeder w1) ->
    (length records < fuel)%nat ->
    absorb_all acc records = Some fields ->
    readFields_loop fuel acc w = (Ret fields, advance (-4) w1).
Proof.
  induction 1 as [w chunk w1 tag Hnext Htag Hne
                 | w chunk w1 field w2 fields w3 Hnext Htag Hfield _ IH];
    intros fuel acc fs Hcur Hfuel Habs;
    (destruct fuel as [| fuel]; [cbn in Hfuel; lia |]);
    cbn [readFields_loop];
    rewrite (bind_Ret _ _ _ _ _ Hnext);
    unfold bind at 1; rewrite Htag; cbn [view ret].
  - apply Z.eqb_neq in Hne. rewrite Hne. cbn [negb].
    unfold bind at 1.
    cbn [position on_feeder zoom Feeder.position gets].
    apply next_Ret_inv in Hnext. destruct Hnext as [Hw1 Hle].
    erewrite bind_Ret.
    2:{ apply jump_ok. subst w1. cbn in *. lia. }
    cbn in Habs. inversion Habs; subst fs.
    unfold ret, advance. cbn. repeat f_equal.
  - cbn [Z.eqb Pos.eqb negb].
    rewrite (bind_Ret _ _ _ _ _ Hfield).
    cbn [absorb_all] in Habs. unfold absorb in Habs.
    destruct (code field >? -1).
    + apply IH; [exact Hcur | cbn in Hfuel; lia | exact Habs].
    + destruct (bump_last acc) as [acc' |]; [| discriminate].
      apply IH; [exact Hcur | cbn in Hfuel; lia | exact Habs].
Qed.

Lemma bump_last_app acc f :
  bump_last (acc ++ [f]) = Some (acc ++ [with_trailers (trailers f + 1) f]).
Proof.
  induction acc as [| a acc IH]; [reflexivity |].
  cbn [app bump_last]. rewrite IH.
  destruct (acc ++ [f]) eqn:E; [now destruct acc | reflexivity].
Qed.

Lemma with_trailers_same f : with_trailers (trailers f) f = f.
Proof. now destruct f. Qed.

Lemma absorb_continuations conts : forall acc f,
  Forall (fun c => is_continuation c = true) conts ->
  absorb_all (acc ++ [f]) conts
  = Some (acc ++ [with_trailers (trailers f + Z.of_nat (length conts)) f]).
Proof.
  induction conts as [| c conts IH]; intros acc f Hall.
  - cbn. now rewrite Z.add_0_r, with_trailers_same.
  - inversion Hall as [| ? ? Hc Hrest]; subst.
    cbn [absorb_all]. unfold absorb.
    unfold is_continuation in Hc. apply negb_true_iff in Hc. rewrite Hc.
    rewrite bump_last_app, IH by exact Hrest.
    replace (trailers f + Z.of_nat (length (c :: conts)))
      with (trailers f + 1 + Z.of_nat (length conts)) by (cbn [length]; lia).
    reflexivity.
Qed.

Lemma absorb_all_app l1 : forall acc l2,
  absorb_all acc (l1 ++ l2)
  = match absorb_all acc l1 with
    | Some acc' => absorb_all acc' l2
    | None => None
    end.
Proof.
  induction l1 as [| r l1 IH]; intros acc l2; [reflexivity |].
  cbn [app absorb_all]. destruct (absorb acc r); [apply IH | reflexivity].
Qed.

(** Over a grouped stream, the loop keeps one field per group and counts
    the group's continuation records in its trailers. *)
Lemma absorb_groups groups : forall acc,
  well_grouped groups ->
  Forall (fun r => trailers r = 0) (records_of groups) ->
  absorb_all acc (records_of groups) = Some (acc ++ map fold_group groups).
Proof.
  induction groups as [| [f conts] groups IH]; intros acc Hwg Hzero.
  - cbn. now rewrite app_nil_r.
  - inversion Hwg as [| ? ? [Hf Hconts] Hrest]; subst.
    cbn [records_of flat_map fst snd] in *.
    inversion Hzero as [| ? ? Hf0 Hzero']; subst.
    apply Forall_app in Hzero'. destruct Hzero' as [_ Hzero'].
    cbn [app absorb_all]. unfold absorb at 1.
    unfold is_continuation in Hf. apply negb_false_iff in Hf. rewrite Hf.
    rewrite absorb_all_app, absorb_continuations by exact Hconts.
    fold (records_of groups). rewrite IH by assumption.
    cbn [map]. rewrite <- app_assoc. cbn [app].
    unfold fold_group. cbn [fst snd]. rewrite Hf0. reflexivity.
Qed.

Lemma continuations_split records :
  records = leading_continuations records ++ after_continuations records
  /\ Forall (fun c => is_continuation c = true) (leading_continuations records)
  /\ (length (after_continuations records) <= length records)%nat
  /\ (after_continuations records = []
      \/ exists r rest, after_continuations records = r :: rest
                        /\ is_continuation r = false).
Proof.
  induction records as [| r rest (IH1 & IH2 & IH3 & IH4)].
  - cbn. repeat split; auto.
  - cbn [leading_continuations after_continuations].
    destruct (is_continuation r) eqn:E.
    + repeat split.
      * cbn [app]. now f_equal.
      * now constructor.
      * cbn [length]. lia.
      * exact IH4.
    + repeat split; auto. right. now exists r, rest.
Qed.

Lemma grouping n : forall records,
  (length records <= n)%nat ->
  (records = []
   \/ exists r rest, records = r :: rest /\ is_continuation r = false) ->
  exists groups, records = records_of groups /\ well_grouped groups.
Proof.
  induction n as [| n IH]; intros records Hlen Hhead.
  - destruct records; [| cbn in Hlen; lia]. exists []. split; constructor.
  - destruct Hhead as [-> | (r & rest & -> & Hr)].
    + exists []. split; constructor.
    + destruct (continuations_split rest) as (Hsplit & Hconts & Hle & Hnext).
      destruct (IH (after_continuations rest)) as (groups & Hg & Hwg).
      * cbn in Hlen. lia.
      * exact Hnext.
      * exists ((r, leading_continuations rest) :: groups). split.
        -- cbn [records_of flat_map fst snd]. fold (records_of groups).
           rewrite <- Hg. cbn [app]. now f_equal.
        -- constructor; [now split | exact Hwg].
Qed.

Lemma preceded_head records :
  each_continuation_preceded records = true ->
  records = []
  \/ exists r rest, records = r :: rest /\ is_continuation r = false.
Proof.
  destruct records as [| r rest]; [now left |].
  unfold each_continuation_preceded. cbn [preceded_from].
  destruct (is_continuation r) eqn:E; [discriminate |].
  intros _. right. now exists r, rest.
Qed.

(** C8: when every continuation record of the dictionary has a field
    record before it, the records fall into groups, a field followed by
    its continuation records, and [readFields] returns one field per group,
    in order, none of them a continuation record, each with the number of
    continuation records of its group as its trailer count.  The cursor is
    left on the tag that ended the dictionary. *)
Theorem readFields_folds_continuations fuel w records w1 :
  field_stream (logged (LogReadingField (cursor (feeder w))) w) records w1 ->
  each_continuation_preceded records = true ->
  4 <= cursor (feeder w1) ->
  (length records < fuel)%nat ->
  exists groups,
    records = records_of groups
    /\ well_grouped groups
    /\ readFields fuel w = (Ret (map fold_group groups), advance (-4) w1)
    /\ map (with_trailers 0) (map fold_group groups)
       = filter (fun r => negb (is_continuation r)) records
    /\ Forall (fun f => is_continuation f = false) (map fold_group groups).
Proof.
  intros Hstream Hpre Hcur Hfuel.
  destruct (grouping (length records) records (le_n _) (preceded_head _ Hpre))
    as (groups & Hrec & Hwg).
  exists groups. split; [exact Hrec |]. split; [exact Hwg |].
  pose proof (field_stream_trailers _ _ _ Hstream) as Hzero.
  split; [| split].
  - unfold readFields.
    unfold bind at 1. cbn [position on_feeder zoom Feeder.position gets].
    unfold bind at 1. cbn [log_push modify].
    apply (readFields_loop_absorbs _ _ _ Hstream); [exact Hcur | exact Hfuel |].
    rewrite Hrec in *. now rewrite absorb_groups.
  - rewrite Hrec in Hzero. rewrite Hrec. clear - Hwg Hzero.
    induction groups as [| [f conts] groups IH]; [reflexivity |].
    inversion Hwg as [| ? ? [Hf Hconts] Hrest]; subst.
    cbn [records_of flat_map fst snd map filter app] in *.
    inversion Hzero as [| ? ? Hf0 Hzero']; subst.
    apply Forall_app in Hzero'. destruct Hzero' as [_ Hzero'].
    rewrite Hf. cbn [negb]. rewrite filter_app.
    replace (filter (fun r => negb (is_continuation r)) conts) with (@nil Header).
    + cbn [app]. f_equal; [| now apply IH].
      unfold fold_group, with_trailers. cbn. rewrite <- Hf0. now destruct f.
    + clear - Hconts. induction conts as [| c conts IH]; [reflexivity |].
      inversion Hconts; subst. cbn [filter]. rewrite H1. cbn [negb]. now apply IH.
  - clear - Hwg. induction Hwg as [| g groups [Hf _] _ IH]; constructor.
    + exact Hf.
    + exact IH.
Qed.

(** C8 on the sample dictionary: the string field AB of width 10, its
    continuation record and the numeric field C.  Two fields come back, AB
    with one trailer and C with none, and the cursor is on the terminator's
    tag, at byte 96. *)
Lemma readFields_folds_continuations_witness :
  let w := start_world (new_Feeder sample_dictionary) in
  exists fields w',
    readFields 4 w = (Ret fields, w')
    /\ map code fields = [10; 0]
    /\ map trailers fields = [1; 0]
    /\ map name fields = [[65; 66]; [67]]
    /\ cursor (feeder w') = 96.
Proof.
  intros w.
  assert (Hs : exists records w1,
             field_stream (logged (LogReadingField (cursor (feeder w))) w) records w1
             /\ each_continuation_preceded records = true
             /\ cursor (feeder w1) = 100
             /\ length records = 3%nat).
  { eexists. eexists. split.
    - eapply stream_record;
        [vm_compute; reflexivity | vm_compute; reflexivity
         | vm_compute; reflexivity |].
      eapply stream_record;
        [vm_compute; reflexivity | vm_compute; reflexivity
         | vm_compute; reflexivity |].
      eapply stream_record;
        [vm_compute; reflexivity | vm_compute; reflexivity
         | vm_compute; reflexivity |].
      eapply stream_end;
        [vm_compute; reflexivity | vm_compute; reflexivity | discriminate].
    - repeat split; reflexivity. }
  destruct Hs as (records & w1 & Hs & Hpre & Hcur & Hlen).
  destruct (readFields_folds_continuations 4 w records w1 Hs Hpre)
    as (groups & _ & _ & Hread & _).
  - rewrite Hcur. lia.
  - rewrite Hlen. lia.
  - exists (map fold_group groups), (advance (-4) w1).
    split; [exact Hread |].
    assert (E : exists fs w2,
               readFields 4 w = (Ret fs, w2)
               /\ map code fs = [10; 0] /\ map trailers fs = [1; 0]
               /\ map name fs = [[65; 66]; [67]] /\ cursor (feeder w2) = 96).
    { eexists. eexists. split; [vm_compute; reflexivity |].
      repeat split; reflexivity. }
    destruct E as (fs & w2 & E & Hrest).
    rewrite Hread in E. inversion E; subst. exact Hrest.
Defined.

(** ** Extension records *)

Lemma concat_chunks {A} (len n : nat) : forall l : list A,
  length l = (n * len)%nat ->
  concat (map (fun k => firstn len (skipn (k * len) l)) (seq 0 n)) = l.
Proof.
  induction n as [| n IH]; intros l Hl.
  - cbn in *. now destruct l.
  - cbn [seq map concat]. rewrite <- seq_shift, map_map.
    cbn [Nat.mul Nat.add skipn].
    transitivity (firstn len l ++ skipn len l); [| apply firstn_skipn].
    f_equal.
    assert (Hrest : length (skipn len l) = (n * len)%nat)
      by (rewrite length_skipn; cbn in Hl; lia).
    etransitivity; [| exact (IH _ Hrest)].
    f_equal. apply map_ext. intros k.
    now rewrite skipn_skipn, Nat.add_comm.
Qed.

Lemma elements_concat payload count length :
  0 <= count -> 0 <= length -> byteLength payload = count * length ->
  concat (elements payload count length) = payload
  /\ List.length (elements payload count length) = Z.to_nat count
  /\ Forall (fun s => byteLength s = length) (elements payload count length).
Proof.
  intros Hc Hl Hlen. unfold elements, indices. rewrite map_map.
  repeat split.
  - assert (Hn : List.length payload = (Z.to_nat count * Z.to_nat length)%nat)
      by (unfold byteLength in Hlen; nia).
    etransitivity; [| exact (concat_chunks _ _ payload Hn)].
    f_equal. apply map_ext. intros k. f_equal. f_equal. nia.
  - now rewrite length_map, length_seq.
  - apply Forall_forall. intros s Hs. apply in_map_iff in Hs.
    destruct Hs as (k & <- & Hk). apply in_seq in Hk.
    unfold byteLength in *. rewrite length_firstn, length_skipn. nia.
Qed.

Lemma slices_are_elements payload count length :
  0 <= count -> 0 <= length -> byteLength payload = count * length ->
  map (fun idx => slice payload (idx * length) (idx * length + length))
      (indices count)
  = elements payload count length.
Proof.
  intros Hc Hl Hlen. unfold elements. apply map_ext_in.
  intros idx Hidx. apply indices_range in Hidx.
  rewrite slice_within by nia.
  now replace (idx * length + length - idx * length) with length by lia.
Qed.

Lemma recognized_false subcode :
  recognized subcode = false ->
  (subcode =? 3) = false /\ (subcode =? 4) = false /\ (subcode =? 11) = false
  /\ (subcode =? 13) = false /\ (subcode =? 14) = false /\ (subcode =? 21) = false.
Proof.
  unfold recognized. cbn [existsb]. intros H.
  repeat (apply orb_false_iff in H; destruct H as [? H]). now repeat split.
Qed.

(** C9: a tag-7 record whose subtype is not one of 3, 4, 11, 13, 14, 21,
    with an element count and an element size that are not negative and a
    payload of count times size bytes in the buffer, is not an error.  The
    payload is consumed, exactly count times size bytes, and stored under
    the subtype as its count elements of size bytes each; and a loop that
    stands on such a record goes on with the record after it. *)
Theorem readExtension_keeps_unrecognized p subcode length count w :
  recognized subcode = false ->
  0 <= count -> 0 <= length ->
  available (count * length) w ->
  let payload := chunk_at (feeder w) (count * length) in
  readExtension p subcode length count w
  = (Ret (add_unrecognized subcode (elements payload count length) p),
     advance (count * length) (logged LogUnrecognizedSubcode w))
  /\ concat (elements payload count length) = payload
  /\ List.length (elements payload count length) = Z.to_nat count
  /\ Forall (fun s => byteLength s = length) (elements payload count length)
  /\ (forall fuel w0 tag sub,
        finished_at p = None ->
        next 4 w0 = (Ret tag, advance 4 w0) ->
        getInt32 tag 0 true = Some 7 ->
        next 12 (advance 4 w0) = (Ret sub, w) ->
        getInt32 sub 0 true = Some subcode ->
        getInt32 sub 4 true = Some length ->
        getInt32 sub 8 true = Some count ->
        readInternal_loop (S fuel) p w0
        = readInternal_loop fuel
            (add_unrecognized subcode (elements payload count length) p)
            (advance (count * length) (logged LogUnrecognizedSubcode w))).
Proof.
  intros Hrec Hc Hl Hav payload.
  assert (Hlen : byteLength payload = count * length).
  { destruct Hav. apply byteLength_chunk_at; nia. }
  assert (Hext : readExtension p subcode length count w
                 = (Ret (add_unrecognized subcode (elements payload count length) p),
                    advance (count * length) (logged LogUnrecognizedSubcode w))).
  { unfold readExtension.
    destruct (recognized_false _ Hrec) as (-> & -> & -> & -> & -> & ->).
    unfold bind at 1. cbn [log_push modify].
    unfold readUnrecognized.
    erewrite bind_Ret.
    2:{ erewrite bind_Ret by (apply next_ok; [nia | exact Hav]).
        erewrite bind_Ret by (apply new_Array_ok; exact Hc).
        reflexivity. }
    cbn [logged feeder]. fold payload.
    now rewrite slices_are_elements. }
  split; [exact Hext |].
  destruct (elements_concat payload count length Hc Hl Hlen) as (H1 & H2 & H3).
  repeat split; try assumption.
  intros fuel w0 tag sub Hfin Htag Htag7 Hsub Hsc Hln Hct.
  cbn [readInternal_loop]. rewrite Hfin.
  unfold readRecord.
  erewrite bind_Ret.
  2:{ rewrite (bind_Ret _ _ _ _ _ Htag).
      unfold bind at 1. rewrite Htag7. cbn [view ret Z.eqb Pos.eqb].
      rewrite (bind_Ret _ _ _ _ _ Hsub).
      unfold bind at 1. rewrite Hsc. cbn [view ret].
      unfold bind at 1. rewrite Hln. cbn [view ret].
      unfold bind at 1. rewrite Hct. cbn [view ret].
      exact Hext. }
  reflexivity.
Qed.

(** C9 on the sample extension record, subtype 99 with two elements of
    three bytes: the loop stores the two elements under 99, reads the
    terminator after them and ends with the data offset 30. *)
Lemma readExtension_keeps_unrecognized_witness :
  let w0 := start_world (new_Feeder sample_extension) in
  exists i w',
    readInternal_loop 2 empty_partial w0 = (Ret i, w')
    /\ unrecognized i = [(99, [[x01; x02; x03]; [x04; x05; x06]])]
    /\ finished i = 30
    /\ cursor (feeder w') = 30.
Proof.
  intros w0.
  destruct (readExtension_keeps_unrecognized empty_partial 99 3 2 (advance 16 w0))
    as (_ & _ & _ & _ & Hloop).
  - reflexivity.
  - lia.
  - lia.
  - vm_compute. split; discriminate.
  - eexists. eexists. split.
    + rewrite (Hloop 1%nat w0 (chunk_at (feeder w0) 4)
                 (chunk_at (feeder (advance 4 w0)) 12))
        by (vm_compute; reflexivity).
      vm_compute. reflexivity.
    + repeat split; reflexivity.
Defined.

(** C9 as it is stated fails for a negative element count: on a record of
    subtype 99 that declares -1 elements of three bytes, the loop moves the
    cursor back by three bytes and then fails with a range error. *)
Lemma readInternal_unknown_subtype_negative_count :
  exists w',
    readInternal 2
      (start_world
         (new_Feeder (le32 7 ++ le32 99 ++ le32 3 ++ le32 (-1) ++ sample_terminator)))
    = (Throw RangeError, w')
    /\ cursor (feeder w') = 13.
Proof.
  eexists. split; [vm_compute; reflexivity | reflexivity].
Qed.

(** ** The full read *)

Lemma mapM_length {S A B} (f : A -> M S B) xs : forall s ys s',
  mapM f xs s = (Ret ys, s') -> length ys = length xs.
Proof.
  induction xs as [| x xs IH]; intros s ys s' H.
  - inversion H. reflexivity.
  - cbn [mapM] in H. inv_bind H as y s1 H1. inv_bind H as ys' s2 H2.
    inversion H; subst. cbn. f_equal. now apply IH in H2.
Qed.

Lemma new_Array_inv {S} n (s : S) l s' :
  new_Array n s = (Ret l, s') -> 0 <= n /\ l = indices n /\ s' = s.
Proof.
  unfold new_Array. destruct (n <? 0) eqn:E; [discriminate |].
  intros H. inversion H. apply Z.ltb_ge in E. now repeat split.
Qed.

Lemma mapM_rows_in_order sch fuel n : forall a r ys r',
  mapM (fun idx =>
          bind (DataReader.on_world (log_push (LogRow idx)))
               (fun _ => DataReader.readRow sch fuel))
       (map Z.of_nat (seq a n)) r = (Ret ys, r') ->
  rows_in_order sch fuel (Z.of_nat a) r ys r'.
Proof.
  induction n as [| n IH]; intros a r ys r' H.
  - inversion H. constructor.
  - cbn [seq map mapM] in H. inv_bind H as y s1 H1. inv_bind H as ys' s2 H2.
    inversion H; subst. econstructor.
    + unfold bind in H1. cbn [DataReader.on_world zoom log_push modify] in H1.
      exact H1.
    + replace (Z.of_nat a + 1) with (Z.of_nat (S a)) by lia.
      now apply IH.
Qed.

(** What a successful [read] did: it jumped to the data offset, read one
    row per declared case, in case order, and jumped back. *)
Lemma read_rows_in_order sch fuel r0 rs r1 :
  DataReader.read sch fuel r0 = (Ret rs, r1) ->
  0 <= cases (meta_of sch)
  /\ length rs = Z.to_nat (cases (meta_of sch))
  /\ exists ra rb,
       DataReader.on_world (jump (finished (internal_of sch))) r0 = (Ret tt, ra)
       /\ rows_in_order sch fuel 0 ra rs rb.
Proof.
  unfold DataReader.read. intros H.
  inv_bind H as u s1 H1. inv_bind H as idxs s2 H2. inv_bind H as ys s3 H3.
  inv_bind H as p s4 H4. inv_bind H as u5 s5 H5. inversion H; subst.
  apply new_Array_inv in H2. destruct H2 as (Hc & -> & ->).
  split; [exact Hc |]. split.
  - apply mapM_length in H3. now rewrite H3, length_indices.
  - exists s1, s3. split; [now destruct u |].
    unfold indices in H3. now apply (mapM_rows_in_order sch fuel _ 0%nat) in H3.
Qed.

Lemma finally_Resolved_inv {A} (p : M World (settled A)) cb w a w' :
  finally_ p cb w = (Ret (Resolved a), w') ->
  exists w1, p w = (Ret (Resolved a), w1) /\ cb w1 = (Ret tt, w').
Proof.
  unfold finally_. intros H. inv_bind H as s w1 H1.
  destruct (cb w1) as [[[] | e |] w2] eqn:E; inversion H; subst.
  now exists w1.
Qed.

Lemma then_Resolved_inv {A B} (p : M World (settled A)) (k : A -> M World B) w b w' :
  then_ p k w = (Ret (Resolved b), w') ->
  exists a w1, p w = (Ret (Resolved a), w1) /\ k a w1 = (Ret b, w').
Proof.
  unfold then_. intros H. inv_bind H as s w1 H1.
  destruct s as [a | e]; [| discriminate].
  exists a, w1. split; [exact H1 |].
  unfold in_promise in H. destruct (k a w1) as [[b' | e |] w2]; inversion H.
  reflexivity.
Qed.

(** C1: when the full read resolves, it has as many rows as the header
    declares cases, and the rows were read in case order from the data
    offset the schema gives, each from where the one before it stopped. *)
Theorem all_rows_length_is_cases fuel w p w' :
  all fuel w = (Ret (Resolved p), w') ->
  Z.of_nat (length (rows p)) = cases (meta_of (schema_of p))
  /\ exists ws ra rb,
       schema fuel {| feeder := feeder w; log := [] |}
       = (Ret (Resolved (schema_of p)), ws)
       /\ DataReader.on_world (jump (finished (internal_of (schema_of p))))
            (DataReader.create ws) = (Ret tt, ra)
       /\ rows_in_order (schema_of p) fuel 0 ra (rows p) rb.
Proof.
  unfold all. intros H.
  inv_bind H as u0 w0 H0. inv_bind H as at_ w1 H1.
  inversion H0; subst u0 w0. clear H0.
  inversion H1; subst at_ w1. clear H1.
  apply finally_Resolved_inv in H. destruct H as (w2 & H & _).
  apply then_Resolved_inv in H. destruct H as (sch & ws & Hsch & H).
  inv_bind H as rs w3 Hread. inversion H; subst p w3. clear H.
  unfold read_rows in Hread.
  destruct (DataReader.read sch fuel (DataReader.create ws)) as [o rd] eqn:E.
  inversion Hread; subst o. clear Hread.
  apply read_rows_in_order in E. destruct E as (Hc & Hlen & ra & rb & Hjump & Hrows).
  cbn [rows schema_of]. split; [lia |].
  exists ws, ra, rb. repeat split; assumption.
Qed.

(** C1 on the sample file: one numeric variable and three declared cases;
    the read resolves with three rows. *)
Lemma all_rows_length_is_cases_witness :
  exists p w',
    all 3 (start_world (new_Feeder sample_file)) = (Ret (Resolved p), w')
    /\ cases (meta_of (schema_of p)) = 3
    /\ length (rows p) = 3%nat
    /\ rows p = [[([65; 66], CNumber 1%float)]; [([65; 66], CNumber 2%float)];
                 [([65; 66], CNumber 3%float)]].
Proof.
  assert (E : exists p w',
             all 3 (start_world (new_Feeder sample_file)) = (Ret (Resolved p), w')
             /\ cases (meta_of (schema_of p)) = 3
             /\ rows p = [[([65; 66], CNumber 1%float)];
                          [([65; 66], CNumber 2%float)];
                          [([65; 66], CNumber 3%float)]]).
  { eexists. eexists. split; [vm_compute; reflexivity |]. split; reflexivity. }
  destruct E as (p & w' & Hall & Hcases & Hrows).
  destruct (all_rows_length_is_cases 3 _ p w' Hall) as [Hlen _].
  exists p, w'. repeat split; try assumption.
  rewrite Hcases in Hlen. lia.
Defined.

(** The compressed sample file: its one cell is null. *)
Example all_compressed_null_cell :
  exists p w',
    all 3 (start_world (new_Feeder sample_compressed_file)) = (Ret (Resolved p), w')
    /\ rows p = [[([65; 66], CNull)]]
    /\ cursor (feeder w') = 0.
Proof.
  eexists. eexists. split; [vm_compute; reflexivity |]. split; reflexivity.
Qed.

(** ** The buffer is never written *)

Lemma kb_ret {A} (a : A) : keeps_buffer (ret a).
Proof. intros w r w' H. now inversion H. Qed.

Lemma kb_throw {A} e : keeps_buffer (@throw World A e).
Proof. intros w r w' H. now inversion H. Qed.

Lemma kb_out_of_fuel {A} : keeps_buffer (@out_of_fuel World A).
Proof. intros w r w' H. now inversion H. Qed.

Lemma kb_view {A} (o : option A) : keeps_buffer (view o).
Proof. destruct o; [apply kb_ret | apply kb_throw]. Qed.

Lemma kb_new_Array n : keeps_buffer (new_Array n).
Proof. unfold new_Array. destruct (n <? 0); [apply kb_throw | apply kb_ret]. Qed.

Lemma kb_next n : keeps_buffer (next n).
Proof.
  intros w r w'. unfold next, on_feeder, zoom, Feeder.next.
  destruct (_ >? _); intros H; now inversion H.
Qed.

Lemma kb_jump p : keeps_buffer (jump p).
Proof.
  intros w r w'. unfold jump, on_feeder, zoom, Feeder.jump.
  destruct (_ || _); intros H; now inversion H.
Qed.

Lemma kb_position : keeps_buffer position.
Proof. intros w r w' H. now inversion H. Qed.

Lemma kb_log_push e : keeps_buffer (log_push e).
Proof. intros w r w' H. now inversion H. Qed.

Lemma kb_log_clear : keeps_buffer log_clear.
Proof. intros w r w' H. now inversion H. Qed.

Lemma kb_bind {A B} (m : M World A) (k : A -> M World B) :
  keeps_buffer m -> (forall a, keeps_buffer (k a)) -> keeps_buffer (bind m k).
Proof.
  intros Hm Hk w r w'. unfold bind.
  destruct (m w) as [[a | e |] w1] eqn:E; intros H.
  - apply Hk in H. apply Hm in E. congruence.
  - inversion H; subst. now apply Hm in E.
  - inversion H; subst. now apply Hm in E.
Qed.

Lemma kb_mapM {A B} (f : A -> M World B) xs :
  (forall x, keeps_buffer (f x)) -> keeps_buffer (mapM f xs).
Proof.
  intros Hf. induction xs as [| x xs IH]; cbn [mapM].
  - apply kb_ret.
  - apply kb_bind; [apply Hf | intros y].
    apply kb_bind; [exact IH | intros ys]. apply kb_ret.
Qed.

(** Frame goals, by the shape of the computation. *)
Ltac kb_step :=
  match goal with
  | |- keeps_buffer (bind _ _) => apply kb_bind; [| intros]
  | |- keeps_buffer (ret _) => apply kb_ret
  | |- keeps_buffer (throw _) => apply kb_throw
  | |- keeps_buffer out_of_fuel => apply kb_out_of_fuel
  | |- keeps_buffer (view _) => apply kb_view
  | |- keeps_buffer (new_Array _) => apply kb_new_Array
  | |- keeps_buffer (next _) => apply kb_next
  | |- keeps_buffer (jump _) => apply kb_jump
  | |- keeps_buffer position => apply kb_position
  | |- keeps_buffer (log_push _) => apply kb_log_push
  | |- keeps_buffer log_clear => apply kb_log_clear
  | |- keeps_buffer (mapM _ _) => apply kb_mapM; intros
  | |- keeps_buffer (if ?c then _ else _) => destruct c
  | |- keeps_buffer (match ?o with Some _ => _ | None => _ end) => destruct o
  | |- keeps_buffer (let _ := _ in _) => cbv zeta
  | H : keeps_buffer ?m |- keeps_buffer ?m => exact H
  | H : forall x, keeps_buffer (?f x) |- keeps_buffer (?f _) => apply H
  end.

Ltac kb := repeat kb_step.

Lemma kb_readFieldLabel : keeps_buffer readFieldLabel.
Proof. unfold readFieldLabel. kb. Qed.

Lemma kb_readFieldMissing numeric c : keeps_buffer (readFieldMissing numeric c).
Proof.
  unfold readFieldMissing, readFieldMissingCodes, readFieldMissingRange,
    readFieldMissingStrings. kb.
Qed.

Lemma kb_readField : keeps_buffer readField.
Proof.
  unfold readField. kb.
  - apply kb_readFieldLabel.
  - apply kb_readFieldMissing.
Qed.

Lemma kb_readFields_loop fuel : forall acc, keeps_buffer (readFields_loop fuel acc).
Proof.
  induction fuel as [| fuel IH]; intros acc; cbn [readFields_loop]; kb.
  apply kb_readField.
Qed.

Lemma kb_readFields fuel : keeps_buffer (readFields fuel).
Proof. unfold readFields. kb. apply kb_readFields_loop. Qed.

Lemma kb_getLevel : keeps_buffer getLevel.
Proof. unfold getLevel. kb. Qed.

Lemma kb_readScale : keeps_buffer readScale.
Proof. unfold readScale. kb. apply kb_getLevel. Qed.

Lemma kb_readExtension p subcode length count :
  keeps_buffer (readExtension p subcode length count).
Proof.
  unfold readExtension, readSysInteger, readSysFloat, readSysDisplay, readNames,
    readLongWidths, readLongNames, readUnrecognized. kb.
Qed.

Lemma kb_readRecord p : keeps_buffer (readRecord p).
Proof.
  unfold readRecord, readDocument. kb.
  - apply kb_readScale.
  - apply kb_readExtension.
Qed.

Lemma kb_readInternal_loop fuel : forall p, keeps_buffer (readInternal_loop fuel p).
Proof.
  induction fuel as [| fuel IH]; intros p; cbn [readInternal_loop];
    destruct (finished_at p); kb.
  apply kb_readRecord.
Qed.

Lemma kb_readInternal fuel : keeps_buffer (readInternal fuel).
Proof. unfold readInternal. kb. apply kb_readInternal_loop. Qed.

Lemma rkb_ret {A} (a : A) : reader_keeps_buffer (ret a).
Proof. intros r o r' H. now inversion H. Qed.

Lemma rkb_throw {A} e : reader_keeps_buffer (@throw DataReader.t A e).
Proof. intros r o r' H. now inversion H. Qed.

Lemma rkb_out_of_fuel {A} : reader_keeps_buffer (@out_of_fuel DataReader.t A).
Proof. intros r o r' H. now inversion H. Qed.

Lemma rkb_view {A} (o : option A) : reader_keeps_buffer (view o).
Proof. destruct o; [apply rkb_ret | apply rkb_throw]. Qed.

Lemma rkb_new_Array n : reader_keeps_buffer (new_Array n).
Proof. unfold new_Array. destruct (n <? 0); [apply rkb_throw | apply rkb_ret]. Qed.

Lemma rkb_gets {A} (f : DataReader.t -> A) : reader_keeps_buffer (gets f).
Proof. intros r o r' H. now inversion H. Qed.

Lemma rkb_set_cursor c : reader_keeps_buffer (DataReader.set_cursor c).
Proof. intros r o r' H. now inversion H. Qed.

Lemma rkb_set_instructions v : reader_keeps_buffer (DataReader.set_instructions v).
Proof. intros r o r' H. now inversion H. Qed.

Lemma rkb_on_world {A} (m : M World A) :
  keeps_buffer m -> reader_keeps_buffer (DataReader.on_world m).
Proof.
  intros Hm r o r'. unfold DataReader.on_world, zoom.
  destruct (m (DataReader.world r)) as [o1 w1] eqn:E. intros H.
  inversion H; subst. cbn. now apply Hm in E.
Qed.

Lemma rkb_bind {A B} (m : M DataReader.t A) (k : A -> M DataReader.t B) :
  reader_keeps_buffer m -> (forall a, reader_keeps_buffer (k a)) ->
  reader_keeps_buffer (bind m k).
Proof.
  intros Hm Hk r o r'. unfold bind.
  destruct (m r) as [[a | e |] r1] eqn:E; intros H.
  - apply Hk in H. apply Hm in E. congruence.
  - inversion H; subst. now apply Hm in E.
  - inversion H; subst. now apply Hm in E.
Qed.

Lemma rkb_mapM {A B} (f : A -> M DataReader.t B) xs :
  (forall x, reader_keeps_buffer (f x)) -> reader_keeps_buffer (mapM f xs).
Proof.
  intros Hf. induction xs as [| x xs IH]; cbn [mapM].
  - apply rkb_ret.
  - apply rkb_bind; [apply Hf | intros y].
    apply rkb_bind; [exact IH | intros ys]. apply rkb_ret.
Qed.

Ltac rkb_step :=
  match goal with
  | |- reader_keeps_buffer (bind _ _) => apply rkb_bind; [| intros]
  | |- reader_keeps_buffer (ret _) => apply rkb_ret
  | |- reader_keeps_buffer (throw _) => apply rkb_throw
  | |- reader_keeps_buffer out_of_fuel => apply rkb_out_of_fuel
  | |- reader_keeps_buffer (view _) => apply rkb_view
  | |- reader_keeps_buffer (new_Array _) => apply rkb_new_Array
  | |- reader_keeps_buffer (gets _) => apply rkb_gets
  | |- reader_keeps_buffer (DataReader.set_cursor _) => apply rkb_set_cursor
  | |- reader_keeps_buffer (DataReader.set_instructions _) =>
      apply rkb_set_instructions
  | |- reader_keeps_buffer (DataReader.on_world _) => apply rkb_on_world; kb
  | |- reader_keeps_buffer (mapM _ _) => apply rkb_mapM; intros
  | |- reader_keeps_buffer (if ?c then _ else _) => destruct c
  | |- reader_keeps_buffer (match ?o with Some _ => _ | None => _ end) =>
      destruct o
  | |- reader_keeps_buffer (let _ := _ in _) => cbv zeta
  | H : forall x, reader_keeps_buffer (?f x) |- reader_keeps_buffer (?f _) =>
      apply H
  | H : forall x y, reader_keeps_buffer (?f x y)
    |- reader_keeps_buffer (?f _ _) => apply H
  end.

Ltac rkb := repeat rkb_step.

Lemma rkb_compressedCodes fuel : reader_keeps_buffer (DataReader.compressedCodes fuel).
Proof.
  induction fuel as [| fuel IH]; cbn [DataReader.compressedCodes]; rkb.
  exact IH.
Qed.

Lemma rkb_uncompressedString_loop fuel : forall n pieces,
  reader_keeps_buffer (DataReader.uncompressedString_loop fuel n pieces).
Proof.
  induction fuel as [| fuel IH]; intros n pieces;
    cbn [DataReader.uncompressedString_loop]; rkb.
Qed.

Lemma rkb_compressedString_loop fuel : forall n pieces,
  reader_keeps_buffer (DataReader.compressedString_loop fuel n pieces).
Proof.
  induction fuel as [| fuel IH]; intros n pieces;
    cbn [DataReader.compressedString_loop]; rkb.
  apply rkb_compressedCodes.
Qed.

Lemma rkb_readCell sch fuel header :
  reader_keeps_buffer (DataReader.readCell sch fuel header).
Proof.
  unfold DataReader.readCell, DataReader.readString, DataReader.readNumber,
    DataReader.compressedString, DataReader.uncompressedString,
    DataReader.compressedNumber, DataReader.uncompressedNumber.
  rkb; first [apply rkb_compressedString_loop | apply rkb_uncompressedString_loop
             | apply rkb_compressedCodes].
Qed.

Lemma rkb_read sch fuel : reader_keeps_buffer (DataReader.read sch fuel).
Proof.
  unfold DataReader.read, DataReader.readRow. rkb. apply rkb_readCell.
Qed.

Lemma kb_read_rows fuel sch : keeps_buffer (read_rows fuel sch).
Proof.
  intros w r w'. unfold read_rows.
  destruct (DataReader.read sch fuel (DataReader.create w)) as [o rd] eqn:E.
  intros H. inversion H; subst. now apply rkb_read in E.
Qed.

(** ** Promises *)

Lemma kb_in_promise {A} (m : M World A) : keeps_buffer m -> keeps_buffer (in_promise m).
Proof.
  intros Hm w r w'. unfold in_promise.
  destruct (m w) as [[a | e |] w1] eqn:E; intros H; inversion H; subst;
    now apply Hm in E.
Qed.

Lemma kb_then {A B} (p : M World (settled A)) (k : A -> M World B) :
  keeps_buffer p -> (forall a, keeps_buffer (k a)) -> keeps_buffer (then_ p k).
Proof.
  intros Hp Hk. unfold then_. apply kb_bind; [exact Hp |].
  intros [a | e]; [now apply kb_in_promise | apply kb_ret].
Qed.

Lemma kb_finally {A} (p : M World (settled A)) cb :
  keeps_buffer p -> keeps_buffer cb -> keeps_buffer (finally_ p cb).
Proof.
  intros Hp Hcb. unfold finally_. apply kb_bind; [exact Hp |].
  intros s w r w'. destruct (cb w) as [[u | e |] w1] eqn:E; intros H;
    inversion H; subst; now apply Hcb in E.
Qed.

Lemma kb_meta_executor : keeps_buffer meta_executor.
Proof.
  intros w r w'. unfold meta_executor.
  destruct (next 176 w) as [[chunk | e |] w1] eqn:E; apply kb_next in E.
  - destruct (negb _).
    + rewrite after_reject_pure. intros H. now inversion H; subst.
    + intros H. apply kb_in_promise in H; [congruence |].
      intros w2 r2 w3 H2. destruct (meta_fields_pure chunk w2) as (r3 & H3 & _).
      rewrite H3 in H2. now inversion H2.
  - intros H. now inversion H; subst.
  - intros H. now inversion H; subst.
Qed.

Lemma kb_meta : keeps_buffer meta.
Proof.
  unfold meta. kb. apply kb_finally; [apply kb_meta_executor | apply kb_jump].
Qed.

Lemma kb_schema fuel : keeps_buffer (schema fuel).
Proof.
  unfold schema. kb. apply kb_finally; [| apply kb_jump].
  apply kb_then; [apply kb_then; [apply kb_then; [apply kb_meta |] |] |]; intros; kb.
  - apply kb_readFields.
  - apply kb_readInternal.
Qed.

Lemma kb_all fuel : keeps_buffer (all fuel).
Proof.
  unfold all. kb. apply kb_finally; [| apply kb_jump].
  apply kb_then; [apply kb_schema |]. intros. kb. apply kb_read_rows.
Qed.

Lemma nt_in_promise {A} (m : M World A) : never_throws (in_promise m).
Proof.
  intros w e w'. unfold in_promise. destruct (m w) as [[a | e' |] w1]; discriminate.
Qed.

Lemma nt_then {A B} (p : M World (settled A)) (k : A -> M World B) :
  never_throws p -> never_throws (then_ p k).
Proof.
  intros Hp w e w'. unfold then_, bind.
  destruct (p w) as [[[a | e1] | e1 |] w1] eqn:E.
  - apply nt_in_promise.
  - discriminate.
  - now apply Hp in E.
  - discriminate.
Qed.

(** A promise with [finally(() => feeder.jump(at_))] attached, once it has
    settled, has put the cursor back at [at_]. *)
Lemma finally_jump_restores {A} (p : M World (settled A)) at_ w r w' :
  keeps_buffer p -> never_throws p ->
  0 <= at_ <= byteLength (buffer (feeder w)) ->
  finally_ p (jump at_) w = (r, w') ->
  r = OutOfFuel
  \/ ((exists s, r = Ret s) /\ cursor (feeder w') = at_
      /\ buffer (feeder w') = buffer (feeder w)).
Proof.
  intros Hkb Hnt Hat. unfold finally_, bind.
  destruct (p w) as [[s | e |] w1] eqn:E.
  - apply Hkb in E. rewrite jump_ok by (rewrite E; exact Hat).
    intros H. inversion H; subst. right. cbn. split; [now exists s | now split].
  - now apply Hnt in E.
  - intros H. inversion H. now left.
Qed.

(** ** The cursor after each entry point *)


(** The executor of [meta] has no loop: it always settles. *)
Lemma meta_executor_settles w : exists s w1, meta_executor w = (Ret s, w1).
Proof.
  unfold meta_executor.
  destruct (next 176 w) as [[chunk | e |] w1] eqn:E.
  - destruct (negb _).
    + rewrite after_reject_pure. eauto.
    + unfold in_promise. destruct (meta_fields_pure chunk w1) as (r & -> & Hr).
      destruct r; [eauto | eauto | contradiction].
  - eauto.
  - now apply next_never_out_of_fuel in E.
Qed.

(** [meta] always settles, and leaves the cursor where it found it. *)
Lemma meta_restores_cursor w r w' :
  cursor_valid w ->
  meta w = (r, w') ->
  (exists s, r = Ret s)
  /\ cursor (feeder w') = cursor (feeder w)
  /\ buffer (feeder w') = buffer (feeder w).
Proof.
  intros Hv. unfold meta.
  unfold bind at 1. cbn [log_clear modify].
  unfold bind at 1. cbn [position on_feeder zoom Feeder.position gets feeder].
  erewrite bind_Ret by (apply jump_ok; cbn; unfold cursor_valid in Hv; lia).
  cbn [feeder log]. unfold finally_.
  match goal with
  | |- bind meta_executor _ ?w0 = _ -> _ =>
      destruct (meta_executor_settles w0) as (s & w1 & E);
      rewrite (bind_Ret _ _ _ _ _ E); apply kb_meta_executor in E
  end.
  rewrite jump_ok by (rewrite E; exact Hv).
  intros H. inversion H; subst. cbn. split; [now exists s |]. now split.
Qed.

Lemma nt_meta : never_throws meta.
Proof.
  intros w e w'. unfold meta.
  unfold bind at 1. cbn [log_clear modify].
  unfold bind at 1. cbn [position on_feeder zoom Feeder.position gets feeder].
  erewrite bind_Ret
    by (apply jump_ok; cbn; pose proof (byteLength_nonneg (buffer (feeder w))); lia).
  unfold finally_.
  match goal with
  | |- bind meta_executor _ ?w0 <> _ =>
      destruct (meta_executor_settles w0) as (s & w1 & E);
      rewrite (bind_Ret _ _ _ _ _ E)
  end.
  destruct (jump _ w1) as [[u | e1 |] w2]; discriminate.
Qed.

(** Once [schema] has settled, the cursor is where it was at the call. *)
Lemma schema_restores_cursor fuel w r w' :
  cursor_valid w ->
  schema fuel w = (r, w') ->
  r = OutOfFuel
  \/ ((exists s, r = Ret s)
      /\ cursor (feeder w') = cursor (feeder w)
      /\ buffer (feeder w') = buffer (feeder w)).
Proof.
  intros Hv. unfold schema.
  unfold bind at 1. cbn [log_clear modify].
  unfold bind at 1. cbn [position on_feeder zoom Feeder.position gets feeder].
  intros H. apply finally_jump_restores in H.
  - exact H.
  - apply kb_then; [apply kb_then; [apply kb_then; [apply kb_meta |] |] |];
      intros; kb; [apply kb_readFields | apply kb_readInternal].
  - apply nt_then, nt_then, nt_then, nt_meta.
  - exact Hv.
Qed.

Lemma nt_schema fuel : never_throws (schema fuel).
Proof.
  intros w e w'. unfold schema.
  unfold bind at 1. cbn [log_clear modify].
  unfold bind at 1. cbn [position on_feeder zoom Feeder.position gets feeder].
  unfold finally_, bind.
  match goal with
  | |- match ?p ?w0 with _ => _ end <> _ =>
      assert (Hnt : never_throws p) by (apply nt_then, nt_then, nt_then, nt_meta);
      destruct (p w0) as [[s | e1 |] w1] eqn:E
  end.
  - destruct (jump _ w1) as [[u | e1 |] w2]; discriminate.
  - now apply Hnt in E.
  - discriminate.
Qed.

(** Once [all] has settled, the cursor is where it was at the call. *)
Lemma all_restores_cursor fuel w r w' :
  cursor_valid w ->
  all fuel w = (r, w') ->
  r = OutOfFuel
  \/ ((exists s, r = Ret s)
      /\ cursor (feeder w') = cursor (feeder w)
      /\ buffer (feeder w') = buffer (feeder w)).
Proof.
  intros Hv. unfold all.
  unfold bind at 1. cbn [log_clear modify].
  unfold bind at 1. cbn [position on_feeder zoom Feeder.position gets feeder].
  intros H. apply finally_jump_restores in H.
  - exact H.
  - apply kb_then; [apply kb_schema |]. intros. kb. apply kb_read_rows.
  - apply nt_then, nt_schema.
  - exact Hv.
Qed.

(** When [headers] returns a promise, the cursor is put back. *)
Lemma headers_settled_restores_cursor fuel w s w' :
  cursor_valid w ->
  headers fuel w = (Ret s, w') ->
  cursor (feeder w') = cursor (feeder w)
  /\ buffer (feeder w') = buffer (feeder w).
Proof.
  intros Hv. unfold headers. intros H.
  inv_bind H as u0 w0 H0. inversion H0; subst u0 w0. clear H0.
  inv_bind H as at_ w1 H1. inversion H1; subst at_ w1. clear H1.
  inv_bind H as u2 w2 H2. apply kb_jump in H2.
  inv_bind H as fields w3 H3. apply kb_readFields in H3.
  cbn [feeder] in *.
  unfold finally_ in H. inv_bind H as s4 w4 H4. inversion H4; subst s4 w4.
  rewrite jump_ok in H by (rewrite H3, H2; exact Hv).
  inversion H; subst. cbn. split; [reflexivity | congruence].
Qed.

(** C2, as the code has it: [headers] reads the fields before it has a
    promise to attach [finally] to.  On a buffer of 176 to 179 bytes the
    first tag cannot be read, [headers] throws, and the cursor stays at
    176, whatever it was at the call. *)
Theorem headers_failure_leaves_cursor_at_176 fuel buf pos lg :
  0 <= pos <= byteLength buf ->
  176 <= byteLength buf < 180 ->
  headers (S fuel) {| feeder := {| buffer := buf; cursor := pos |}; log := lg |}
  = (Throw UnexpectedEndOfFile,
     {| feeder := {| buffer := buf; cursor := 176 |};
        log := [LogReadingField 176] |}).
Proof.
  intros Hpos Hlen. unfold headers.
  unfold bind at 1. cbn [log_clear modify].
  unfold bind at 1. cbn [position on_feeder zoom Feeder.position gets feeder].
  erewrite bind_Ret by (apply jump_ok; cbn; lia).
  cbn [feeder buffer log].
  erewrite bind_Throw; [reflexivity |].
  unfold readFields.
  unfold bind at 1. cbn [position on_feeder zoom Feeder.position gets feeder].
  unfold bind at 1. cbn [log_push modify feeder log app].
  cbn [readFields_loop].
  erewrite bind_Throw; [reflexivity |].
  apply next_fail. cbn. lia.
Qed.

(** C2 on the sample header alone, 176 bytes, with the cursor at 0:
    [headers] throws and the cursor is at 176, while [meta], [schema] and
    [all] settle with the cursor at 0. *)
Lemma headers_failure_leaves_cursor_witness :
  let w := start_world (new_Feeder (sample_header 0 3)) in
  cursor (feeder w) = 0
  /\ (exists w', headers 1 w = (Throw UnexpectedEndOfFile, w')
                 /\ cursor (feeder w') = 176)
  /\ (exists s w', meta w = (Ret s, w') /\ cursor (feeder w') = 0)
  /\ (exists s w', schema 1 w = (Ret s, w') /\ cursor (feeder w') = 0)
  /\ (exists s w', all 1 w = (Ret s, w') /\ cursor (feeder w') = 0).
Proof.
  intros w. split; [reflexivity |]. split.
  - eexists. split.
    + apply (headers_failure_leaves_cursor_at_176 0 (sample_header 0 3) 0 []).
      * vm_compute. split; discriminate.
      * vm_compute. split; [discriminate | reflexivity].
    + reflexivity.
  - repeat split; eexists; eexists; (split; [vm_compute; reflexivity | reflexivity]).
Defined.

(** * Further properties of the code *)

(** ** Feeder: bounds and composition *)

(** X1: with sizes that are not negative, the cursor never leaves the
    buffer: whatever [jump] and [next] answer, a cursor that was in bounds
    still is.  And [done] answers true exactly when no byte is left, that
    is, when every [next] of a positive size fails. *)
Theorem Feeder_cursor_stays_in_bounds f :
  in_bounds f ->
  (forall p o f', Feeder.jump p f = (o, f') -> in_bounds f')
  /\ (forall size o f', 0 <= size -> Feeder.next size f = (o, f') -> in_bounds f')
  /\ (Feeder.done f = (Ret true, f)
      <-> forall size, 0 < size -> Feeder.next size f = (Throw UnexpectedEndOfFile, f)).
Proof.
  intros Hb. unfold in_bounds in *. repeat split.
  - unfold Feeder.jump in H.
    destruct ((p <? 0) || (p >? byteLength (buffer f))) eqn:E;
      inversion H; subst; cbn; [lia |].
    apply orb_false_iff in E. destruct E as [E _]. apply Z.ltb_ge in E. lia.
  - unfold Feeder.jump in H.
    destruct ((p <? 0) || (p >? byteLength (buffer f))) eqn:E;
      inversion H; subst; cbn; [lia |].
    apply orb_false_iff in E. destruct E as [_ E].
    rewrite Z.gtb_ltb in E. apply Z.ltb_ge in E. lia.
  - unfold Feeder.next in H0.
    destruct (cursor f + size >? byteLength (buffer f)); inversion H0; subst; cbn; lia.
  - unfold Feeder.next in H0.
    destruct (cursor f + size >? byteLength (buffer f)) eqn:E;
      inversion H0; subst; cbn; [lia |].
    rewrite Z.gtb_ltb in E. apply Z.ltb_ge in E. lia.
  - intros Hdone size Hsize. apply Feeder_next_fail.
    unfold Feeder.done, gets in Hdone. inversion Hdone as [E].
    apply Z.eqb_eq in E. lia.
  - intros Hfail. unfold Feeder.done, gets. f_equal. f_equal.
    apply Z.eqb_eq. specialize (Hfail 1 ltac:(lia)).
    unfold Feeder.next in Hfail.
    destruct (cursor f + 1 >? byteLength (buffer f)) eqn:E; [| discriminate].
    apply Z.gtb_lt in E. lia.
Qed.

(** X1 on a feeder of four bytes: from the cursor 1, [next 3] reaches the
    end, where [done] is true and one more byte cannot be read. *)
Lemma Feeder_cursor_stays_in_bounds_witness :
  let f := {| buffer := [x0a; x0b; x0c; x0d]; cursor := 1 |} in
  let f' := {| buffer := [x0a; x0b; x0c; x0d]; cursor := 4 |} in
  in_bounds f'
  /\ Feeder.done f' = (Ret true, f')
  /\ Feeder.next 1 f' = (Throw UnexpectedEndOfFile, f')
  /\ Feeder.done f = (Ret false, f).
Proof.
  intros f f'.
  assert (Hf : in_bounds f) by (vm_compute; split; discriminate).
  destruct (Feeder_cursor_stays_in_bounds f Hf) as (_ & Hnext & _).
  assert (Hf' : in_bounds f')
    by (apply (Hnext 3 (Ret [x0b; x0c; x0d]) f'); [lia | reflexivity]).
  destruct (Feeder_cursor_stays_in_bounds f' Hf') as (_ & _ & Hdone).
  split; [exact Hf' |]. split; [reflexivity |].
  split; [apply Hdone; [reflexivity | lia] | reflexivity].
Defined.

Lemma firstn_plus {A} (a b : nat) : forall l : list A,
  firstn (a + b) l = firstn a l ++ firstn b (skipn a l).
Proof.
  induction a as [| a IH]; intros l; [reflexivity |].
  destruct l as [| x l]; cbn; [now rewrite firstn_nil | now rewrite IH].
Qed.

(** X2: reading [a + b] bytes is reading [a] bytes and then [b] bytes: the
    chunks concatenate to the long read and the feeder ends in the same
    state; and a [jump] to the position recorded before the reads puts the
    feeder back exactly as it was. *)
Theorem Feeder_next_splits f a b bytes f' :
  0 <= cursor f -> 0 <= a -> 0 <= b ->
  Feeder.next (a + b) f = (Ret bytes, f') ->
  (exists xs ys f1,
     Feeder.next a f = (Ret xs, f1)
     /\ Feeder.next b f1 = (Ret ys, f')
     /\ bytes = xs ++ ys)
  /\ Feeder.jump (cursor f) f' = (Ret tt, f).
Proof.
  intros Hc Ha Hb H.
  assert (Hle : cursor f + (a + b) <= byteLength (buffer f)).
  { unfold Feeder.next in H.
    destruct (cursor f + (a + b) >? byteLength (buffer f)) eqn:E; [discriminate |].
    rewrite Z.gtb_ltb in E. now apply Z.ltb_ge in E. }
  rewrite Feeder_next_ok in H by lia. inversion H; subst bytes f'. clear H.
  split.
  - eexists. eexists. eexists. split; [apply Feeder_next_ok; lia |].
    split.
    + rewrite Feeder_next_ok by (cbn; lia). cbn [buffer cursor].
      f_equal. f_equal. lia.
    + cbn [buffer cursor].
      rewrite Z2Nat.inj_add by lia. rewrite firstn_plus. f_equal.
      rewrite skipn_skipn. f_equal. f_equal. lia.
  - unfold Feeder.jump. cbn [buffer cursor].
    replace (cursor f <? 0) with false by (symmetry; apply Z.ltb_ge; lia).
    replace (cursor f >? byteLength (buffer f)) with false
      by (symmetry; rewrite Z.gtb_ltb; apply Z.ltb_ge; lia).
    now destruct f.
Qed.

(** X2 on a feeder of four bytes: three bytes read at once are one byte
    and then two. *)
Lemma Feeder_next_splits_witness :
  let f := {| buffer := [x0a; x0b; x0c; x0d]; cursor := 1 |} in
  exists f1 f',
    Feeder.next 1 f = (Ret [x0b], f1)
    /\ Feeder.next 2 f1 = (Ret [x0c; x0d], f')
    /\ Feeder.jump 1 f' = (Ret tt, f).
Proof.
  intros f.
  destruct (Feeder_next_splits f 1 2 [x0b; x0c; x0d]
              {| buffer := [x0a; x0b; x0c; x0d]; cursor := 4 |})
    as [_ Hjump].
  - vm_compute. discriminate.
  - lia.
  - lia.
  - reflexivity.
  - exists {| buffer := [x0a; x0b; x0c; x0d]; cursor := 2 |},
           {| buffer := [x0a; x0b; x0c; x0d]; cursor := 4 |}.
    split; [reflexivity |]. split; [reflexivity | exact Hjump].
Defined.

(** ** The instruction reader *)

Lemma getUint8_offset v off i : getUint8 v off = Some i -> 0 <= off.
Proof.
  unfold getUint8, view_bytes. destruct (off <? 0) eqn:E; [discriminate |].
  intros _. now apply Z.ltb_ge in E.
Qed.



(** X4: what a successful read of a code leaves behind.  The reader holds
    a block, its cursor is from 1 to 8 and stands just after the code it
    returned; the feeder moved by whole blocks of eight bytes only; the
    log and the reader's saved position are untouched. *)
Theorem compressedCodes_leaves_block fuel : forall r c r',
  DataReader.compressedCodes fuel r = (Ret c, r') ->
  1 <= DataReader.cursor r' <= 8
  /\ (exists v, DataReader.instructions r' = Some v
                /\ getUint8 v (DataReader.cursor r' - 1) = Some c)
  /\ (exists k, 0 <= k
                /\ cursor (feeder (DataReader.world r'))
                   = cursor (feeder (DataReader.world r)) + 8 * k)
  /\ buffer (feeder (DataReader.world r')) = buffer (feeder (DataReader.world r))
  /\ log (DataReader.world r') = log (DataReader.world r)
  /\ DataReader.position r' = DataReader.position r.
Proof.
  induction fuel as [| fuel IH]; intros r c r' H; [discriminate |].
  cbn [DataReader.compressedCodes] in H.
  inv_bind H as c0 s0 H0. inversion H0; subst c0 s0. clear H0.
  inv_bind H as u1 s1 H1. inv_bind H as ins s2 H2.
  inversion H2; subst ins s2. clear H2.
  destruct (DataReader.instructions s1) as [v |] eqn:Ev; [| discriminate].
  inv_bind H as c3 s3 H3. inversion H3; subst c3 s3. clear H3.
  inv_bind H as u4 s4 H4. inversion H4; subst u4 s4. clear H4.
  inv_bind H as i s5 H5. apply view_Ret_inv in H5. destruct H5 as [Hget ->].
  assert (Hs1 : DataReader.cursor s1 <= 7
                /\ (exists k, 0 <= k
                      /\ cursor (feeder (DataReader.world s1))
                         = cursor (feeder (DataReader.world r)) + 8 * k)
                /\ buffer (feeder (DataReader.world s1))
                   = buffer (feeder (DataReader.world r))
                /\ log (DataReader.world s1) = log (DataReader.world r)
                /\ DataReader.position s1 = DataReader.position r).
  { destruct (DataReader.cursor r >? 7) eqn:E7.
    - inv_bind H1 as chunk t1 Hn. inv_bind H1 as u t2 Hi.
      inversion Hi; subst u t2. clear Hi. inversion H1; subst u1 s1. clear H1.
      unfold DataReader.on_world, zoom in Hn.
      destruct (next 8 (DataReader.world r)) as [o w1] eqn:En.
      inversion Hn; subst o t1. clear Hn.
      apply next_Ret_inv in En. destruct En as [-> _]. cbn.
      split; [lia |]. split; [exists 1; lia | now repeat split].
    - inversion H1; subst u1 s1. rewrite Z.gtb_ltb in E7. apply Z.ltb_ge in E7.
      split; [lia |]. split; [exists 0; lia | now repeat split]. }
  destruct Hs1 as (H7 & (k & Hk & Hcur) & Hbuf & Hlog & Hpos).
  pose proof (getUint8_offset _ _ _ Hget) as Hoff.
  destruct (i =? 0) eqn:Ei.
  - apply IH in H.
    cbn [DataReader.world DataReader.position DataReader.cursor
           DataReader.instructions] in H.
    destruct H as (Hc & Hv & (k' & Hk' & Hcur') & Hbuf' & Hlog' & Hpos').
    split; [exact Hc |]. split; [exact Hv |].
    split; [exists (k + k'); lia |].
    repeat split; congruence.
  - inversion H; subst i r'.
    cbn [DataReader.world DataReader.position DataReader.cursor
           DataReader.instructions].
    split; [lia |]. split.
    + exists v. split; [exact Ev |].
      now replace (DataReader.cursor s1 + 1 - 1) with (DataReader.cursor s1) by lia.
    + split; [exists k; lia |]. now repeat split.
Qed.

(** X4 on the block 0, 0, 101, ...: the code 101 is read with the reader's
    cursor left at 3 and the feeder after the one block it fetched. *)
Lemma compressedCodes_leaves_block_witness :
  let r := sample_reader [x00; x00; x65; xfd; xff; x00; x00; x00] in
  exists r',
    DataReader.compressedCodes 3 r = (Ret 101, r')
    /\ DataReader.cursor r' = 3
    /\ cursor (feeder (DataReader.world r')) = 8.
Proof.
  intros r.
  set (r' := snd (DataReader.compressedCodes 3 r)).
  assert (H : DataReader.compressedCodes 3 r = (Ret 101, r'))
    by (vm_compute; reflexivity).
  destruct (compressedCodes_leaves_block 3 r 101 r' H) as (_ & _ & _).
  exists r'. split; [exact H |]. split; reflexivity.
Defined.

(** ** The metadata read, in full *)

Lemma feeder_eta f : {| buffer := buffer f; cursor := cursor f |} = f.
Proof. now destruct f. Qed.

Lemma getFloat64_some v off le :
  0 <= off -> off + 8 <= byteLength v -> exists x, getFloat64 v off le = Some x.
Proof.
  intros H0 H8. unfold getFloat64, view_bytes.
  replace (off <? 0) with false by (symmetry; apply Z.ltb_ge; lia).
  replace (off + 8 >? byteLength v) with false
    by (symmetry; rewrite Z.gtb_ltb; apply Z.ltb_ge; lia).
  cbn. eauto.
Qed.

(** A view on the first [k] bytes reads what the buffer holds there. *)
Lemma view_bytes_firstn buf k off n :
  0 <= off -> 0 <= n -> off + n <= k -> k <= byteLength buf ->
  view_bytes (firstn (Z.to_nat k) buf) off n = view_bytes buf off n.
Proof.
  intros H0 Hn Hk Hlen. unfold view_bytes.
  assert (Hb : byteLength (firstn (Z.to_nat k) buf) = k).
  { unfold byteLength in *. rewrite length_firstn. lia. }
  rewrite Hb.
  replace (off <? 0) with false by (symmetry; apply Z.ltb_ge; lia).
  replace (off + n >? k) with false
    by (symmetry; rewrite Z.gtb_ltb; apply Z.ltb_ge; lia).
  replace (off + n >? byteLength buf) with false
    by (symmetry; rewrite Z.gtb_ltb; apply Z.ltb_ge; lia).
  cbn [orb]. f_equal.
  rewrite skipn_firstn_comm, firstn_firstn. f_equal. lia.
Qed.

Lemma slice_firstn buf k lo hi :
  0 <= lo -> lo <= hi -> hi <= k -> k <= byteLength buf ->
  slice (firstn (Z.to_nat k) buf) lo hi = slice buf lo hi.
Proof.
  intros H0 Hle Hk Hlen.
  assert (Hb : byteLength (firstn (Z.to_nat k) buf) = k).
  { unfold byteLength in *. rewrite length_firstn. lia. }
  rewrite !slice_within by lia.
  rewrite skipn_firstn_comm, firstn_firstn. f_equal. lia.
Qed.

(** The three ways the executor of [meta] ends, from the start of the
    buffer. *)
Lemma meta_executor_short buf lg :
  byteLength buf < 176 ->
  meta_executor {| feeder := {| buffer := buf; cursor := 0 |}; log := lg |}
  = (Ret (Rejected UnexpectedEndOfFile),
     {| feeder := {| buffer := buf; cursor := 0 |}; log := lg |}).
Proof.
  intros H. unfold meta_executor. now rewrite next_fail by (cbn; lia).
Qed.

Lemma meta_executor_mismatch buf lg :
  176 <= byteLength buf ->
  decode (firstn 4 buf) <> FL2 ->
  meta_executor {| feeder := {| buffer := buf; cursor := 0 |}; log := lg |}
  = (Ret (Rejected (NotSav FL2 (decode (firstn 4 buf)))),
     {| feeder := {| buffer := buf; cursor := 176 |}; log := lg |}).
Proof.
  intros Hlen Hdec. unfold meta_executor.
  rewrite next_ok; [| lia | split; cbn; lia].
  cbn [feeder]. rewrite firstn_4_of_chunk by exact Hlen.
  rewrite (text_eqb_neq _ _ Hdec). cbn [negb].
  now rewrite after_reject_pure.
Qed.

Lemma chunk_at_start buf k :
  chunk_at {| buffer := buf; cursor := 0 |} k = firstn (Z.to_nat k) buf.
Proof. reflexivity. Qed.

Lemma getInt32_firstn buf k off le :
  0 <= off -> off + 4 <= k -> k <= byteLength buf ->
  getInt32 (firstn (Z.to_nat k) buf) off le = getInt32 buf off le.
Proof.
  intros. unfold getInt32. now rewrite view_bytes_firstn by lia.
Qed.

Lemma getFloat64_firstn buf k off le :
  0 <= off -> off + 8 <= k -> k <= byteLength buf ->
  getFloat64 (firstn (Z.to_nat k) buf) off le = getFloat64 buf off le.
Proof.
  intros. unfold getFloat64. now rewrite view_bytes_firstn by lia.
Qed.

Lemma meta_executor_match buf lg :
  176 <= byteLength buf ->
  decode (firstn 4 buf) = FL2 ->
  exists m,
    meta_executor {| feeder := {| buffer := buf; cursor := 0 |}; log := lg |}
    = (Ret (Resolved m),
       {| feeder := {| buffer := buf; cursor := 176 |}; log := lg |})
    /\ getInt32 buf 64 true = Some (layout m)
    /\ getInt32 buf 68 true = Some (variables m)
    /\ getInt32 buf 72 true = Some (compression m)
    /\ getInt32 buf 76 true = Some (weightIndex m)
    /\ getInt32 buf 80 true = Some (cases m)
    /\ getFloat64 buf 84 true = Some (bias m)
    /\ product m = trim (decode (slice buf 4 64))
    /\ createdDate m = decode (slice buf 92 101)
    /\ createdTime m = decode (slice buf 101 109)
    /\ file_label m = trim (decode (slice buf 109 173)).
Proof.
  intros Hlen Hdec. unfold meta_executor.
  rewrite next_ok; [| lia | split; cbn; lia].
  cbn [feeder]. rewrite firstn_4_of_chunk by exact Hlen.
  rewrite Hdec. cbn [text_eqb FL2 Z.eqb Pos.eqb andb negb].
  rewrite chunk_at_start.
  unfold in_promise, meta_fields.
  rewrite !getInt32_firstn, !getFloat64_firstn, !slice_firstn by lia.
  destruct (getInt32_some buf 64 true) as [a Ha]; [lia | lia |].
  destruct (getInt32_some buf 68 true) as [b Hb']; [lia | lia |].
  destruct (getInt32_some buf 72 true) as [c Hc]; [lia | lia |].
  destruct (getInt32_some buf 76 true) as [d Hd]; [lia | lia |].
  destruct (getInt32_some buf 80 true) as [e He]; [lia | lia |].
  destruct (getFloat64_some buf 84 true) as [x Hx]; [lia | lia |].
  unfold bind. rewrite Ha, Hb', Hc, Hd, He, Hx. cbn [view ret].
  eexists. split; [reflexivity |]. cbn. now repeat split.
Qed.

Lemma meta_from_start w :
  meta w
  = finally_ meta_executor (jump (cursor (feeder w)))
      {| feeder := {| buffer := buffer (feeder w); cursor := 0 |}; log := [] |}.
Proof.
  unfold meta.
  unfold bind at 1. cbn [log_clear modify].
  unfold bind at 1. cbn [position on_feeder zoom Feeder.position gets feeder].
  erewrite bind_Ret
    by (apply jump_ok; cbn; pose proof (byteLength_nonneg (buffer (feeder w))); lia).
  reflexivity.
Qed.

Lemma finally_jump_back {A} (p : M World (settled A)) w0 s buf c lg at_ :
  p w0 = (Ret s, {| feeder := {| buffer := buf; cursor := c |}; log := lg |}) ->
  0 <= at_ <= byteLength buf ->
  finally_ p (jump at_) w0
  = (Ret s, {| feeder := {| buffer := buf; cursor := at_ |}; log := lg |}).
Proof.
  intros Hp Hat. unfold finally_. rewrite (bind_Ret _ _ _ _ _ Hp).
  now rewrite jump_ok by exact Hat.
Qed.

(** Every way [meta] ends, for a cursor inside the buffer. *)
Lemma meta_three_ways w :
  cursor_valid w ->
  (byteLength (buffer (feeder w)) < 176
   /\ meta w = (Ret (Rejected UnexpectedEndOfFile), cleared w))
  \/ (176 <= byteLength (buffer (feeder w))
      /\ decode (firstn 4 (buffer (feeder w))) <> FL2
      /\ meta w
         = (Ret (Rejected (NotSav FL2 (decode (firstn 4 (buffer (feeder w)))))),
            cleared w))
  \/ (176 <= byteLength (buffer (feeder w))
      /\ decode (firstn 4 (buffer (feeder w))) = FL2
      /\ exists m,
           meta w = (Ret (Resolved m), cleared w)
           /\ getInt32 (buffer (feeder w)) 64 true = Some (layout m)
           /\ getInt32 (buffer (feeder w)) 68 true = Some (variables m)
           /\ getInt32 (buffer (feeder w)) 72 true = Some (compression m)
           /\ getInt32 (buffer (feeder w)) 76 true = Some (weightIndex m)
           /\ getInt32 (buffer (feeder w)) 80 true = Some (cases m)
           /\ getFloat64 (buffer (feeder w)) 84 true = Some (bias m)
           /\ product m = trim (decode (slice (buffer (feeder w)) 4 64))
           /\ createdDate m = decode (slice (buffer (feeder w)) 92 101)
           /\ createdTime m = decode (slice (buffer (feeder w)) 101 109)
           /\ file_label m = trim (decode (slice (buffer (feeder w)) 109 173))).
Proof.
  intros Hv. rewrite meta_from_start. unfold cleared.
  destruct w as [[buf c] lg]. unfold cursor_valid in Hv.
  cbn [feeder buffer cursor log] in *.
  destruct (Z_lt_ge_dec (byteLength buf) 176) as [Hs | Hl].
  - left. split; [exact Hs |].
    apply finally_jump_back with (c := 0); [| exact Hv].
    now apply meta_executor_short.
  - right.
    destruct (list_eq_dec Z.eq_dec (decode (firstn 4 buf)) FL2) as [Hd | Hd].
    + right. split; [lia |]. split; [exact Hd |].
      destruct (meta_executor_match buf [] ltac:(lia) Hd) as (m & Hm & Hfields).
      exists m. split; [| exact Hfields].
      now apply finally_jump_back with (c := 176).
    + left. split; [lia |]. split; [exact Hd |].
      apply finally_jump_back with (c := 176); [| exact Hv].
      apply meta_executor_mismatch; [lia | exact Hd].
Qed.

(** X5: [meta] resolves exactly when the buffer holds at least 176 bytes
    that start with the bytes of '$FL2'.  The metadata it resolves with is
    read at fixed offsets of the header: the integers little-endian at 64,
    68, 72, 76 and 80, the bias as a little-endian double at 84, and the
    four texts from their byte ranges. *)
Theorem meta_resolves_on_signed_header w :
  cursor_valid w ->
  ((exists m w', meta w = (Ret (Resolved m), w'))
   <-> (176 <= byteLength (buffer (feeder w))
        /\ firstn 4 (buffer (feeder w)) = [x24; x46; x4c; x32]))
  /\ (forall m w', meta w = (Ret (Resolved m), w') ->
        getInt32 (buffer (feeder w)) 64 true = Some (layout m)
        /\ getInt32 (buffer (feeder w)) 68 true = Some (variables m)
        /\ getInt32 (buffer (feeder w)) 72 true = Some (compression m)
        /\ getInt32 (buffer (feeder w)) 76 true = Some (weightIndex m)
        /\ getInt32 (buffer (feeder w)) 80 true = Some (cases m)
        /\ getFloat64 (buffer (feeder w)) 84 true = Some (bias m)
        /\ product m = trim (decode (slice (buffer (feeder w)) 4 64))
        /\ createdDate m = decode (slice (buffer (feeder w)) 92 101)
        /\ createdTime m = decode (slice (buffer (feeder w)) 101 109)
        /\ file_label m = trim (decode (slice (buffer (feeder w)) 109 173))).
Proof.
  intros Hv.
  destruct (meta_three_ways w Hv)
    as [[Hs E] | [(Hl & Hd & E) | (Hl & Hd & m & E & Hfields)]].
  - split.
    + split.
      * intros (m & w' & H). rewrite E in H. discriminate.
      * intros [Hl _]. lia.
    + intros m w' H. rewrite E in H. discriminate.
  - split.
    + split.
      * intros (m & w' & H). rewrite E in H. discriminate.
      * intros [_ Hsig]. exfalso. apply Hd. now rewrite Hsig.
    + intros m w' H. rewrite E in H. discriminate.
  - split.
    + split.
      * intros _. split; [exact Hl |]. apply decode_FL2; [| exact Hd].
        rewrite length_firstn. unfold byteLength in Hl. lia.
      * intros _. now exists m, (cleared w).
    + intros m' w' H. rewrite E in H. inversion H; subst m' w'. exact Hfields.
Qed.

(** X5 on the sample file: it resolves, with three cases, no compression
    and the bias 100. *)
Lemma meta_resolves_on_signed_header_witness :
  exists m w',
    meta (start_world (new_Feeder sample_file)) = (Ret (Resolved m), w')
    /\ cases m = 3 /\ compression m = 0 /\ bias m = 100%float
    /\ getInt32 sample_file 80 true = Some 3.
Proof.
  destruct (meta_resolves_on_signed_header (start_world (new_Feeder sample_file)))
    as [[_ Hres] Hfields].
  - vm_compute. split; discriminate.
  - destruct Hres as (m & w' & H).
    + split; [vm_compute; discriminate | reflexivity].
    + exists m, w'. split; [exact H |].
      assert (E : exists m0 w0,
                 meta (start_world (new_Feeder sample_file)) = (Ret (Resolved m0), w0)
                 /\ cases m0 = 3 /\ compression m0 = 0 /\ bias m0 = 100%float
                 /\ getInt32 sample_file 80 true = Some 3).
      { eexists. eexists. split; [vm_compute; reflexivity |].
        repeat split; reflexivity. }
      destruct E as (m0 & w0 & E & Hrest). rewrite H in E.
      inversion E; subst m0 w0. exact Hrest.
Defined.

Lemma meta_settles w :
  cursor_valid w ->
  exists s,
    meta w = (Ret s, cleared w)
    /\ meta (cleared w) = (Ret s, cleared w).
Proof.
  intros Hv.
  assert (Hsame : meta (cleared w) = meta w) by (now rewrite !meta_from_start).
  rewrite Hsame.
  destruct (meta_three_ways w Hv)
    as [[_ E] | [(_ & _ & E) | (_ & _ & m & E & _)]];
    eexists; split; exact E.
Qed.

(** X6: [meta] always settles, whatever the buffer holds, and leaves no
    trace: the feeder is exactly as it was and the log is empty.  So a
    second call answers what the first did. *)
Theorem meta_leaves_no_trace w :
  cursor_valid w ->
  exists s,
    meta w = (Ret s, cleared w)
    /\ meta (cleared w) = (Ret s, cleared w).
Proof.
  intros Hv.
  assert (Hsame : meta (cleared w) = meta w) by (now rewrite !meta_from_start).
  rewrite Hsame.
  destruct (meta_three_ways w Hv)
    as [[_ E] | [(_ & _ & E) | (_ & _ & m & E & _)]];
    eexists; split; exact E.
Qed.

(** X6 on the sample file read from the middle: the cursor, at 200 before
    the call, is at 200 after it. *)
Lemma meta_leaves_no_trace_witness :
  let w := {| feeder := {| buffer := sample_file; cursor := 200 |};
              log := [LogReadingInternal] |} in
  exists s,
    meta w = (Ret s, {| feeder := {| buffer := sample_file; cursor := 200 |};
                        log := [] |}).
Proof.
  intros w. destruct (meta_leaves_no_trace w) as (s & H & _).
  - vm_compute. split; discriminate.
  - exists s. exact H.
Defined.

(** ** The other entry points *)

Lemma schema_ignores_log fuel w : schema fuel w = schema fuel (cleared w).
Proof. reflexivity. Qed.

Lemma all_ignores_log fuel w : all fuel w = all fuel (cleared w).
Proof. reflexivity. Qed.

Lemma same_feeder_cleared w w' : feeder w' = feeder w -> cleared w' = cleared w.
Proof. unfold cleared. now intros ->. Qed.

Lemma feeder_restored w w' :
  cursor (feeder w') = cursor (feeder w) ->
  buffer (feeder w') = buffer (feeder w) ->
  feeder w' = feeder w.
Proof.
  destruct w as [[b c] l], w' as [[b' c'] l']. cbn. now intros -> ->.
Qed.

(** X7: once [schema] has settled, resolved or rejected, the feeder is
    exactly as it was at the call, and [schema] never throws instead of
    returning its promise.  A second call then answers what the first
    did. *)
Theorem schema_settled_leaves_feeder fuel w s w' :
  cursor_valid w ->
  schema fuel w = (Ret s, w') ->
  feeder w' = feeder w
  /\ schema fuel w' = (Ret s, w')
  /\ forall e w1, schema fuel w <> (Throw e, w1).
Proof.
  intros Hv H.
  assert (Hf : feeder w' = feeder w).
  { destruct (schema_restores_cursor fuel w _ _ Hv H) as [E | (_ & Hc & Hb)];
      [discriminate | now apply feeder_restored]. }
  split; [exact Hf |]. split.
  - rewrite schema_ignores_log, (same_feeder_cleared _ _ Hf), <- schema_ignores_log.
    exact H.
  - intros e w1. apply nt_schema.
Qed.

(** X7 on the sample file: [schema] resolves and the cursor, at 0 before,
    is at 0 after. *)
Lemma schema_settled_leaves_feeder_witness :
  exists s w',
    schema 3 (start_world (new_Feeder sample_file)) = (Ret (Resolved s), w')
    /\ feeder w' = new_Feeder sample_file
    /\ finished (internal_of s) = 216.
Proof.
  assert (E : exists s w',
             schema 3 (start_world (new_Feeder sample_file)) = (Ret (Resolved s), w')
             /\ finished (internal_of s) = 216).
  { eexists. eexists. split; [vm_compute; reflexivity | reflexivity]. }
  destruct E as (s & w' & E & Hfin).
  destruct (schema_settled_leaves_feeder 3
              (start_world (new_Feeder sample_file)) (Resolved s) w')
    as (Hf & _).
  - vm_compute. split; discriminate.
  - exact E.
  - exists s, w'. split; [exact E |]. split; [exact Hf | exact Hfin].
Defined.

(** X8: once [all] has settled, resolved or rejected, the feeder is
    exactly as it was at the call, although the rows were read from the
    data offset; [all] never throws instead of returning its promise, and
    a second call answers what the first did. *)
Theorem all_settled_leaves_feeder fuel w s w' :
  cursor_valid w ->
  all fuel w = (Ret s, w') ->
  feeder w' = feeder w
  /\ all fuel w' = (Ret s, w')
  /\ forall e w1, all fuel w <> (Throw e, w1).
Proof.
  intros Hv H.
  assert (Hf : feeder w' = feeder w).
  { destruct (all_restores_cursor fuel w _ _ Hv H) as [E | (_ & Hc & Hb)];
      [discriminate | now apply feeder_restored]. }
  split; [exact Hf |]. split.
  - rewrite all_ignores_log, (same_feeder_cleared _ _ Hf), <- all_ignores_log.
    exact H.
  - intros e w1. unfold all.
    unfold bind at 1. cbn [log_clear modify].
    unfold bind at 1. cbn [position on_feeder zoom Feeder.position gets feeder].
    unfold finally_, bind.
    match goal with
    | |- match ?p ?w0 with _ => _ end <> _ =>
        assert (Hnt : never_throws p) by (apply nt_then, nt_schema);
        destruct (p w0) as [[s0 | e1 |] w2] eqn:E
    end.
    + destruct (jump _ w2) as [[u | e1 |] w3]; discriminate.
    + now apply Hnt in E.
    + discriminate.
Qed.

(** X8 on the compressed sample file read by a feeder left at byte 7. *)
Lemma all_settled_leaves_feeder_witness :
  let w := {| feeder := {| buffer := sample_compressed_file; cursor := 7 |};
              log := [] |} in
  exists p w',
    all 3 w = (Ret (Resolved p), w')
    /\ feeder w' = {| buffer := sample_compressed_file; cursor := 7 |}
    /\ length (rows p) = 1%nat.
Proof.
  intros w.
  assert (E : exists p w',
             all 3 w = (Ret (Resolved p), w') /\ length (rows p) = 1%nat).
  { eexists. eexists. split; [vm_compute; reflexivity | reflexivity]. }
  destruct E as (p & w' & E & Hlen).
  destruct (all_settled_leaves_feeder 3 w (Resolved p) w') as (Hf & _).
  - vm_compute. split; discriminate.
  - exact E.
  - exists p, w'. split; [exact E |]. split; [exact Hf | exact Hlen].
Defined.

Lemma kb_headers fuel : keeps_buffer (headers fuel).
Proof.
  unfold headers. kb.
  - apply kb_readFields.
  - apply kb_finally; [apply kb_ret | apply kb_jump].
Qed.

Lemma jump_fail w p :
  ~ (0 <= p <= byteLength (buffer (feeder w))) ->
  jump p w = (Throw JumpOutOfBounds, w).
Proof.
  intros H. unfold jump, on_feeder, zoom, Feeder.jump.
  destruct ((p <? 0) || (p >? byteLength (buffer (feeder w)))) eqn:E.
  - now destruct w.
  - apply orb_false_iff in E. destruct E as [E1 E2].
    apply Z.ltb_ge in E1. rewrite Z.gtb_ltb in E2. apply Z.ltb_ge in E2.
    exfalso. apply H. lia.
Qed.

(** X9: [headers] returns a rejected promise only when the cursor at the
    call is outside the buffer.  On a buffer shorter than 176 bytes it
    throws the out-of-bounds error of [jump] with the cursor unmoved.
    Otherwise, when it returns a promise, the fields have been read from
    byte 176; from a cursor inside the buffer the promise is resolved with
    them and the feeder is exactly as it was; from a cursor outside it the
    jump back fails, the promise is rejected with the out-of-bounds error
    and the feeder stays where the fields ended. *)
Theorem headers_throws_or_resolves fuel w :
  (byteLength (buffer (feeder w)) < 176 ->
   headers fuel w = (Throw JumpOutOfBounds, cleared w))
  /\ (forall s w', headers fuel w = (Ret s, w') ->
        176 <= byteLength (buffer (feeder w))
        /\ exists fields w1,
             readFields fuel
               {| feeder := {| buffer := buffer (feeder w); cursor := 176 |};
                  log := [] |}
             = (Ret fields, w1)
             /\ (cursor_valid w ->
                 s = Resolved fields /\ feeder w' = feeder w /\ log w' = log w1)
             /\ (~ cursor_valid w ->
                 s = Rejected JumpOutOfBounds /\ w' = w1)).
Proof.
  split.
  - intros Hs. unfold headers.
    unfold bind at 1. cbn [log_clear modify].
    unfold bind at 1. cbn [position on_feeder zoom Feeder.position gets feeder].
    erewrite bind_Throw; [reflexivity |].
    unfold jump, on_feeder, zoom, Feeder.jump. cbn [feeder buffer].
    replace (176 >? byteLength (buffer (feeder w))) with true
      by (symmetry; apply Z.gtb_lt; lia).
    reflexivity.
  - intros s w' H. unfold headers in H.
    inv_bind H as u0 w0 H0. inversion H0; subst u0 w0. clear H0.
    inv_bind H as at_ w1 H1. inversion H1; subst at_ w1. clear H1.
    inv_bind H as u2 w2 H2.
    apply jump_Ret_inv in H2. cbn [feeder buffer log] in H2.
    destruct H2 as [Hlen ->].
    inv_bind H as fields w3 H3.
    split; [lia |]. exists fields, w3. split; [exact H3 |].
    pose proof (kb_readFields _ _ _ _ H3) as Hb. cbn [feeder buffer] in Hb.
    unfold finally_ in H. inv_bind H as s4 w4 H4. inversion H4; subst s4 w4.
    clear H4. cbn [feeder cursor] in H.
    split.
    + intros Hv. rewrite jump_ok in H by (rewrite Hb; exact Hv).
      inversion H; subst. cbn [feeder log]. rewrite Hb.
      split; [reflexivity |]. split; [now rewrite feeder_eta | reflexivity].
    + intros Hn. rewrite jump_fail in H by (rewrite Hb; exact Hn).
      inversion H; subst. now split.
Qed.

(** X9 on the sample file, on a buffer of four bytes, and on the sample
    file read by a feeder whose cursor is -1. *)
Lemma headers_throws_or_resolves_witness :
  (exists fields w',
     headers 3 (start_world (new_Feeder sample_file)) = (Ret (Resolved fields), w')
     /\ feeder w' = new_Feeder sample_file
     /\ map name fields = [[65; 66]])
  /\ headers 3 (start_world (new_Feeder [x41; x42; x43; x44]))
     = (Throw JumpOutOfBounds, start_world (new_Feeder [x41; x42; x43; x44]))
  /\ (exists w',
        headers 3 {| feeder := {| buffer := sample_file; cursor := -1 |}; log := [] |}
        = (Ret (Rejected JumpOutOfBounds), w')
        /\ cursor (feeder w') = 208).
Proof.
  split; [| split].
  - assert (E : exists s w',
               headers 3 (start_world (new_Feeder sample_file)) = (Ret s, w')
               /\ exists fields, s = Resolved fields /\ map name fields = [[65; 66]]).
    { eexists. eexists. split; [vm_compute; reflexivity |].
      eexists. split; reflexivity. }
    destruct E as (s & w' & E & fields & -> & Hn).
    destruct (headers_throws_or_resolves 3 (start_world (new_Feeder sample_file)))
      as [_ Hres].
    destruct (Hres _ _ E) as (_ & fields' & w1 & _ & Hvalid & _).
    destruct Hvalid as (_ & Hf & _); [vm_compute; split; discriminate |].
    exists fields, w'. split; [exact E |]. split; [exact Hf | exact Hn].
  - destruct (headers_throws_or_resolves 3
                (start_world (new_Feeder [x41; x42; x43; x44])))
      as [Hthrow _].
    apply Hthrow. reflexivity.
  - set (w := {| feeder := {| buffer := sample_file; cursor := -1 |}; log := [] |}).
    assert (E : exists s w', headers 3 w = (Ret s, w') /\ cursor (feeder w') = 208)
      by (eexists; eexists; split; [vm_compute; reflexivity | reflexivity]).
    destruct E as (s & w' & E & Hc).
    destruct (headers_throws_or_resolves 3 w) as [_ Hres].
    destruct (Hres _ _ E) as (_ & fields & w1 & _ & _ & Hout).
    destruct Hout as [-> _].
    + unfold cursor_valid. cbn. lia.
    + exists w'. split; [exact E | exact Hc].
Defined.

Lemma then_Rejected {A B} (p : M World (settled A)) (k : A -> M World B) w e w1 :
  p w = (Ret (Rejected e), w1) -> then_ p k w = (Ret (Rejected e), w1).
Proof. intros H. unfold then_. now rewrite (bind_Ret _ _ _ _ _ H). Qed.

(** X10: a rejection of [meta] is the rejection of [schema] and of [all].
    When the header is too short or its signature is wrong, the two larger
    reads reject with the very error [meta] gives, read nothing else, and
    leave the feeder as it was. *)
Theorem meta_rejection_reaches_schema_and_all fuel w e w1 :
  cursor_valid w ->
  meta w = (Ret (Rejected e), w1) ->
  schema fuel w = (Ret (Rejected e), cleared w)
  /\ all fuel w = (Ret (Rejected e), cleared w).
Proof.
  intros Hv H.
  assert (Hm : meta (cleared w) = (Ret (Rejected e), cleared w)).
  { destruct (meta_settles w Hv) as (s & E1 & E2).
    rewrite E1 in H. inversion H; subst s w1. exact E2. }
  assert (Hs : schema fuel w = (Ret (Rejected e), cleared w)).
  { unfold schema.
    unfold bind at 1. cbn [log_clear modify].
    unfold bind at 1. cbn [position on_feeder zoom Feeder.position gets feeder].
    fold (cleared w). unfold finally_.
    erewrite bind_Ret by (do 3 apply then_Rejected; exact Hm).
    rewrite jump_ok by exact Hv. unfold cleared. cbn [feeder log].
    now rewrite feeder_eta. }
  split; [exact Hs |].
  unfold all.
  unfold bind at 1. cbn [log_clear modify].
  unfold bind at 1. cbn [position on_feeder zoom Feeder.position gets feeder].
  fold (cleared w). unfold finally_.
  erewrite bind_Ret.
  2:{ apply then_Rejected. rewrite schema_ignores_log in Hs. exact Hs. }
  rewrite jump_ok by exact Hv. unfold cleared. cbn [feeder log].
  now rewrite feeder_eta.
Qed.

(** X10 on the sample file with its first byte changed to A. *)
Lemma meta_rejection_reaches_schema_and_all_witness :
  let w := start_world (new_Feeder (x41 :: tl sample_file)) in
  all 3 w = (Ret (Rejected (NotSav [36; 70; 76; 50] [65; 70; 76; 50])), w)
  /\ schema 3 w = (Ret (Rejected (NotSav [36; 70; 76; 50] [65; 70; 76; 50])), w).
Proof.
  intros w.
  destruct (meta_rejection_reaches_schema_and_all 3 w
              (NotSav [36; 70; 76; 50] [65; 70; 76; 50]) w) as [Hs Ha].
  - vm_compute. split; discriminate.
  - vm_compute. reflexivity.
  - split; [exact Ha | exact Hs].
Defined.

(** ** How far each reader moves the cursor *)

Lemma consumes_ret {A} (a : A) n : n = 0 -> consumes n (ret a).
Proof. intros -> w a' w' H. inversion H; subst. lia. Qed.

Lemma consumes_throw {A} e n : consumes n (@throw World A e).
Proof. intros w a w' H. discriminate H. Qed.

Lemma consumes_view {A} (o : option A) n : n = 0 -> consumes n (view o).
Proof.
  intros -> w a w' H. destruct o; cbn in H; [| discriminate H].
  inversion H; subst. lia.
Qed.

Lemma consumes_new_Array k n : n = 0 -> consumes n (@new_Array World k).
Proof.
  intros -> w a w' H. unfold new_Array in H.
  destruct (k <? 0); [discriminate H |]. inversion H; subst. lia.
Qed.

Lemma consumes_position n : n = 0 -> consumes n position.
Proof. intros -> w a w' H. inversion H; subst. cbn. lia. Qed.

Lemma consumes_log_push e n : n = 0 -> consumes n (log_push e).
Proof. intros -> w a w' H. inversion H; subst. cbn. lia. Qed.

Lemma consumes_next k n : n = k -> consumes n (next k).
Proof.
  intros -> w a w' H. apply next_Ret_inv in H. destruct H as [-> _].
  reflexivity.
Qed.

Lemma consumes_bind {A B} (m : M World A) (k : A -> M World B) a n :
  consumes a m -> (forall x, consumes (n - a) (k x)) -> consumes n (bind m k).
Proof.
  intros Hm Hk w b w' H. inv_bind H as x w1 H1.
  apply Hm in H1. apply Hk in H. lia.
Qed.

Lemma consumes_mapM {A B} (f : A -> M World B) xs n :
  n = 0 -> (forall x, consumes 0 (f x)) -> consumes n (mapM f xs).
Proof.
  intros -> Hf. induction xs as [| x xs IH]; cbn [mapM].
  - now apply consumes_ret.
  - eapply consumes_bind; [apply Hf |]. intros y.
    eapply consumes_bind; [exact IH |]. intros ys. now apply consumes_ret.
Qed.

Lemma consumes_eq {A} (m : M World A) a n : consumes a m -> n = a -> consumes n m.
Proof. now intros H ->. Qed.

Ltac size_facts :=
  repeat match goal with
         | H : negb _ = true |- _ => apply negb_true_iff in H
         | H : negb _ = false |- _ => apply negb_false_iff in H
         | H : (_ =? _) = true |- _ => apply Z.eqb_eq in H
         | H : (_ =? _) = false |- _ => apply Z.eqb_neq in H
         end.

Ltac size_arith := size_facts; unfold js_rem in *; try lia.

Ltac moved :=
  lazymatch goal with
  | |- consumes _ (bind _ _) =>
      eapply consumes_bind; [moved_head | intros; moved]
  | |- consumes _ (if ?c then _ else _) => destruct c eqn:?; moved
  | |- consumes _ (throw _) => apply consumes_throw
  | |- consumes _ (ret _) => apply consumes_ret; size_arith
  | |- consumes _ (view _) => apply consumes_view; size_arith
  | |- consumes _ (new_Array _) => apply consumes_new_Array; size_arith
  | |- consumes _ position => apply consumes_position; size_arith
  | |- consumes _ (log_push _) => apply consumes_log_push; size_arith
  | |- consumes _ (next _) => apply consumes_next; size_arith
  | |- consumes _ (mapM _ _) => apply consumes_mapM; [size_arith | intros; moved]
  | |- _ => idtac
  end
with moved_head :=
  lazymatch goal with
  | |- consumes _ (view _) => apply consumes_view; reflexivity
  | |- consumes _ (new_Array _) => apply consumes_new_Array; reflexivity
  | |- consumes _ position => apply consumes_position; reflexivity
  | |- consumes _ (log_push _) => apply consumes_log_push; reflexivity
  | |- consumes _ (next _) => apply consumes_next; reflexivity
  | |- consumes _ (ret _) => apply consumes_ret; reflexivity
  | |- consumes _ (mapM _ _) => apply consumes_mapM; [reflexivity | intros; moved]
  | |- _ => idtac
  end.

Lemma consumes_readSysInteger : consumes 32 readSysInteger.
Proof. unfold readSysInteger. moved. Qed.

Lemma consumes_readSysFloat : consumes 24 readSysFloat.
Proof. unfold readSysFloat. moved. Qed.

Lemma consumes_readSysDisplay count : consumes (count * 12) (readSysDisplay count).
Proof. unfold readSysDisplay. moved. Qed.

Lemma consumes_readNames size : consumes size (readNames size).
Proof. unfold readNames. moved. Qed.

Lemma consumes_readLongWidths size : consumes size (readLongWidths size).
Proof. unfold readLongWidths. moved. Qed.

Lemma consumes_readLongNames size : consumes size (readLongNames size).
Proof. unfold readLongNames. moved. Qed.

Lemma consumes_readUnrecognized count length :
  consumes (count * length) (readUnrecognized count length).
Proof. unfold readUnrecognized. moved. Qed.

(** X11: an extension record is read to its declared end.  Whatever its
    subtype, a tag-7 record that is read without an error from a cursor
    inside the buffer moves the cursor by exactly length times count bytes,
    the size its sub-header declares, so the record that follows is read
    from the right place.  The size and the count are 32-bit values and
    their product is within 2^53 in magnitude, where the arithmetic of the
    source is exact. *)
Theorem readExtension_consumes_declared_size p subcode length count w p' w' :
  int32 length -> int32 count ->
  safe_integer (length * count) ->
  cursor_valid w ->
  readExtension p subcode length count w = (Ret p', w') ->
  cursor (feeder w') = cursor (feeder w) + length * count.
Proof.
  intros _ _ _ _. revert w p' w'. change (consumes (length * count) (readExtension p subcode length count)).
  unfold readExtension.
  repeat match goal with
         | |- consumes _ (if ?c then _ else _) => destruct c eqn:?
         end.
  - eapply consumes_bind; [moved_head |]. intros _.
    destruct (negb (length * count =? 32)) eqn:E; [apply consumes_throw |].
    eapply consumes_bind; [apply consumes_readSysInteger |]. intros; moved.
  - eapply consumes_bind; [moved_head |]. intros _.
    destruct (negb (length * count =? 24)) eqn:E; [apply consumes_throw |].
    eapply consumes_bind; [apply consumes_readSysFloat |]. intros; moved.
  - eapply consumes_bind; [moved_head |]. intros _.
    destruct (negb (length =? 4)) eqn:E; [apply consumes_throw |].
    destruct (negb (js_rem count 3 =? 0)) eqn:E3; [apply consumes_throw |].
    eapply consumes_bind; [apply consumes_readSysDisplay |]. intros; moved.
    pose proof (Z.quot_rem' count 3). lia.
  - eapply consumes_bind; [moved_head |]. intros _.
    eapply consumes_bind; [apply consumes_readNames |]. intros; moved.
  - eapply consumes_bind; [moved_head |]. intros _.
    eapply consumes_bind; [apply consumes_readLongWidths |]. intros; moved.
  - eapply consumes_bind; [moved_head |]. intros _.
    eapply consumes_bind; [apply consumes_readLongNames |]. intros; moved.
  - eapply consumes_bind; [moved_head |]. intros _.
    eapply consumes_bind; [apply consumes_readUnrecognized |]. intros; moved.
Qed.

(** X11 on a long-names record of five one-byte elements. *)
Lemma readExtension_consumes_declared_size_witness :
  let w := start_world (new_Feeder [x41; x42; x43; x44; x45; x46]) in
  exists p' w',
    readExtension empty_partial 21 1 5 w = (Ret p', w')
    /\ cursor (feeder w') = 5.
Proof.
  intros w.
  assert (E : exists p' w', readExtension empty_partial 21 1 5 w = (Ret p', w'))
    by (eexists; eexists; vm_compute; reflexivity).
  destruct E as (p' & w' & E). exists p', w'. split; [exact E |].
  rewrite (readExtension_consumes_declared_size empty_partial 21 1 5 w p' w').
  - reflexivity.
  - unfold int32. lia.
  - unfold int32. lia.
  - unfold safe_integer. lia.
  - vm_compute. split; discriminate.
  - exact E.
Defined.

(** ** The offset of the case data *)

Ltac inv_run H :=
  repeat lazymatch type of H with
         | bind _ _ _ = (Ret _, _) =>
             let a := fresh "a" in
             let s := fresh "s" in
             let H1 := fresh "H1" in
             apply bind_Ret_inv in H; destruct H as (a & s & H1 & H);
             try clear H1
         | (if ?c then _ else _) _ = (Ret _, _) => destruct c
         | throw _ _ = (Ret _, _) => discriminate H
         end.

Lemma readExtension_keeps_finished p subcode length count w p' w' :
  readExtension p subcode length count w = (Ret p', w') ->
  p_finished p' = p_finished p.
Proof.
  unfold readExtension. intros H.
  repeat match type of H with
         | (if ?c then _ else _) _ = _ => destruct c
         end;
    inv_run H; inversion H; reflexivity.
Qed.

Lemma readRecord_finished p w p' w' :
  readRecord p w = (Ret p', w') ->
  p_finished p' = p_finished p \/ p_finished p' = Some (cursor (feeder w')).
Proof.
  unfold readRecord. intros H.
  inv_bind H as chunk w1 H1. inv_bind H as tag w2 H2.
  destruct (tag =? 3).
  { inv_bind H as s w3 H3. inversion H. now left. }
  destruct (tag =? 6).
  { inv_bind H as s w3 H3. inversion H. now left. }
  destruct (tag =? 7).
  { inv_bind H as s3 w3 H3. inv_bind H as s4 w4 H4.
    inv_bind H as s5 w5 H5. inv_bind H as s6 w6 H6.
    left. eapply readExtension_keeps_finished; exact H. }
  destruct (tag =? 999); [| discriminate H].
  inv_bind H as s3 w3 H3. inv_bind H as at_ w4 H4.
  inversion H; subst. right. cbn [p_finished].
  inversion H4; subst. reflexivity.
Qed.

Lemma readInternal_loop_finished fuel : forall p w i w',
  finished_at p = None \/ p_finished p = Some (cursor (feeder w)) ->
  readInternal_loop fuel p w = (Ret i, w') ->
  finished i = cursor (feeder w') /\ finished i <> 0.
Proof.
  induction fuel as [| fuel IH]; intros p w i w' Hinv H.
  - cbn [readInternal_loop] in H. destruct (finished_at p) as [fin |] eqn:Ef;
      [| discriminate H].
    inversion H; subst. cbn [finished freeze].
    destruct Hinv as [Hn | Hs]; [discriminate Hn |].
    unfold finished_at in Ef. rewrite Hs in Ef.
    destruct (cursor (feeder w') =? 0) eqn:E0; [discriminate Ef |].
    inversion Ef; subst. apply Z.eqb_neq in E0. now split.
  - cbn [readInternal_loop] in H. destruct (finished_at p) as [fin |] eqn:Ef.
    + inversion H; subst. cbn [finished freeze].
      destruct Hinv as [Hn | Hs]; [discriminate Hn |].
      unfold finished_at in Ef. rewrite Hs in Ef.
      destruct (cursor (feeder w') =? 0) eqn:E0; [discriminate Ef |].
      inversion Ef; subst. apply Z.eqb_neq in E0. now split.
    + inv_bind H as p1 w1 H1.
      apply (IH p1 w1 i w'); [| exact H].
      destruct (readRecord_finished _ _ _ _ H1) as [Hk | Hc].
      * left. unfold finished_at in *. now rewrite Hk.
      * now right.
Qed.

(** X12: the data offset of a schema is where the dictionary ends.  When
    [readInternal] returns, the [finished] it reports is the cursor it
    leaves, right after the terminator record, and it is not 0: the case
    data are read from where the dictionary reader stopped. *)
Theorem readInternal_finished_is_cursor fuel w i w' :
  readInternal fuel w = (Ret i, w') ->
  finished i = cursor (feeder w') /\ finished i <> 0.
Proof.
  unfold readInternal. intros H. inv_bind H as u w1 H1.
  eapply readInternal_loop_finished; [| exact H]. now left.
Qed.

(** X12 on a buffer that holds only the terminator record. *)
Lemma readInternal_finished_is_cursor_witness :
  let w := start_world (new_Feeder sample_terminator) in
  exists i w',
    readInternal 2 w = (Ret i, w')
    /\ finished i = 8 /\ cursor (feeder w') = 8.
Proof.
  intros w.
  assert (E : exists i w', readInternal 2 w = (Ret i, w')
                           /\ cursor (feeder w') = 8)
    by (eexists; eexists; vm_compute; split; reflexivity).
  destruct E as (i & w' & E & Hc). exists i, w'. split; [exact E |].
  destruct (readInternal_finished_is_cursor _ _ _ _ E) as [Hf _].
  split; [now rewrite Hf | exact Hc].
Defined.

(** ** The dictionary loop on records it cannot fold *)




Lemma next_of_Feeder n f lg r f' :
  Feeder.next n f = (r, f') ->
  next n {| feeder := f; log := lg |} = (r, {| feeder := f'; log := lg |}).
Proof. intros H. unfold next, on_feeder, zoom. cbn [feeder log]. now rewrite H. Qed.

Lemma Feeder_next_Ret_inv n f chunk f' :
  Feeder.next n f = (Ret chunk, f') ->
  f' = {| buffer := buffer f; cursor := cursor f + n |}
  /\ cursor f + n <= byteLength (buffer f).
Proof.
  unfold Feeder.next. intros H.
  destruct (cursor f + n >? byteLength (buffer f)) eqn:E; [discriminate |].
  inversion H; subst. split; [reflexivity |].
  rewrite Z.gtb_ltb in E. now apply Z.ltb_ge in E.
Qed.

Section LabelOfMinus36.

(** A field record at the cursor that declares a label of -36 bytes. *)
Variable f f1 f2 f3 : Feeder.
Variable tag_chunk record length_chunk : ArrayBuffer.
Variable type_code labeled : Z.
Hypothesis tag_read : Feeder.next 4 f = (Ret tag_chunk, f1).
Hypothesis tag_is_2 : getInt32 tag_chunk 0 true = Some 2.
Hypothesis record_read : Feeder.next 28 f1 = (Ret record, f2).
Hypothesis record_code : getInt32 record 0 true = Some type_code.
Hypothesis record_labeled : getInt32 record 4 true = Some labeled.
Hypothesis record_missings : getInt32 record 8 true = Some 0.
Hypothesis length_read : Feeder.next 4 f2 = (Ret length_chunk, f3).
Hypothesis length_is : getInt32 length_chunk 0 true = Some (-36).
Hypothesis is_field : type_code > -1.
Hypothesis has_label : labeled <> 0.

Lemma label_read_goes_back :
  exists chunk, Feeder.next (-36) f3 = (Ret chunk, f).
Proof.
  destruct (Feeder_next_Ret_inv _ _ _ _ tag_read) as [E1 L1].
  destruct (Feeder_next_Ret_inv _ _ _ _ record_read) as [E2 L2].
  destruct (Feeder_next_Ret_inv _ _ _ _ length_read) as [E3 L3].
  subst f1 f2 f3. cbn [buffer cursor] in *.
  unfold Feeder.next. cbn [buffer cursor].
  replace (cursor f + 4 + 28 + 4 + -36) with (cursor f) by lia.
  replace (cursor f >? byteLength (buffer f)) with false
    by (symmetry; rewrite Z.gtb_ltb; apply Z.ltb_ge; lia).
  eexists. destruct f; reflexivity.
Qed.

Lemma readFieldLabel_goes_back lg :
  exists l, readFieldLabel {| feeder := f2; log := lg |}
            = (Ret l, {| feeder := f; log := lg |}).
Proof.
  destruct label_read_goes_back as [chunk Hback].
  exists (trim (decode chunk)). unfold readFieldLabel.
  erewrite bind_Ret by (apply next_of_Feeder; exact length_read).
  erewrite bind_Ret by (rewrite length_is; reflexivity).
  change (js_rem (-36) 4 =? 0) with true. cbv iota.
  erewrite bind_Ret by (apply next_of_Feeder; exact Hback).
  reflexivity.
Qed.

Lemma readField_goes_back lg :
  exists field lg',
    readField {| feeder := f1; log := lg |}
    = (Ret field, {| feeder := f; log := lg' |})
    /\ code field = type_code.
Proof.
  destruct (readFieldLabel_goes_back (lg ++ [LogReadingField (cursor f1)]))
    as [l Hl].
  eexists; eexists. split.
  - unfold readField.
    erewrite bind_Ret by reflexivity.
    erewrite bind_Ret by reflexivity.
    erewrite bind_Ret by reflexivity.
    cbn [feeder log].
    erewrite bind_Ret by (apply next_of_Feeder; exact record_read).
    erewrite bind_Ret by (rewrite record_code; reflexivity).
    erewrite bind_Ret by (rewrite record_labeled; reflexivity).
    erewrite bind_Ret by (rewrite record_missings; reflexivity).
    replace (labeled =? 0) with false by (symmetry; now apply Z.eqb_neq).
    erewrite bind_Ret by exact Hl.
    change (0 =? 0) with true. cbv iota.
    erewrite bind_Ret by reflexivity.
    reflexivity.
  - reflexivity.
Qed.

Lemma readFields_loop_stuck fuel : forall acc lg,
  fst (readFields_loop fuel acc {| feeder := f; log := lg |}) = OutOfFuel.
Proof.
  induction fuel as [| fuel IH]; intros acc lg; [reflexivity |].
  cbn [readFields_loop].
  erewrite bind_Ret by (apply next_of_Feeder; exact tag_read).
  erewrite bind_Ret by (rewrite tag_is_2; reflexivity).
  change (negb (2 =? 2)) with false. cbv iota.
  destruct (readField_goes_back lg) as (field & lg' & Hr & Hc).
  erewrite bind_Ret by exact Hr.
  rewrite Hc.
  replace (type_code >? -1) with true by (symmetry; apply Z.gtb_lt; lia).
  apply IH.
Qed.

(** X14: a label of -36 bytes keeps [readFields] on the same record for
    ever.  A field record that declares a label of length -36 and no
    missing values sends the cursor back to its own tag, so the loop reads
    it again and again: no amount of fuel lets [readFields] return or
    throw. *)
Theorem readFields_never_ends_on_label_of_minus_36 fuel lg :
  fst (readFields fuel {| feeder := f; log := lg |}) = OutOfFuel.
Proof.
  unfold readFields.
  unfold bind at 1. cbn [position on_feeder zoom Feeder.position gets feeder log].
  unfold bind at 1. cbn [log_push modify feeder log].
  apply readFields_loop_stuck.
Qed.

End LabelOfMinus36.

(** X14 on a buffer that holds one such record. *)
Lemma readFields_never_ends_on_label_of_minus_36_witness :
  let b := le32 2 ++ le32 0 ++ le32 1 ++ le32 0 ++ repeat x00 16 ++ le32 (-36) in
  fst (readFields 1000 (start_world (new_Feeder b))) = OutOfFuel.
Proof.
  intros b.
  apply (readFields_never_ends_on_label_of_minus_36
           (new_Feeder b)
           {| buffer := b; cursor := 4 |}
           {| buffer := b; cursor := 32 |}
           {| buffer := b; cursor := 36 |}
           (le32 2) (le32 0 ++ le32 1 ++ le32 0 ++ repeat x00 16) (le32 (-36))
           0 1);
    try (vm_compute; reflexivity); try lia.
Defined.

(** ** The entries of a row *)

Lemma map_set_keys {V} k (v : V) m :
  map fst (map_set text_eqb k v m)
  = if existsb (text_eqb k) (map fst m) then map fst m else map fst m ++ [k].
Proof.
  induction m as [| [k' v'] m IH]; [reflexivity |].
  cbn [map_set map fst existsb]. destruct (text_eqb k k') eqn:E.
  - reflexivity.
  - cbn [orb map fst]. rewrite IH. now destruct (existsb _ _).
Qed.

Lemma existsb_text_eqb k ks : existsb (text_eqb k) ks = true <-> In k ks.
Proof.
  rewrite existsb_exists. split.
  - intros (x & Hin & E). apply text_eqb_eq in E. now subst.
  - intros H. exists k. split; [exact H | now apply text_eqb_eq].
Qed.

Lemma map_set_fresh {V} k (v : V) m :
  ~ In k (map fst m) -> map_set text_eqb k v m = m ++ [(k, v)].
Proof.
  induction m as [| [k' v'] m IH]; intros H; [reflexivity |].
  cbn [map_set]. rewrite text_eqb_neq by (intros ->; apply H; now left).
  cbn [app]. f_equal. apply IH. intros Hin. apply H. now right.
Qed.

Lemma map_of_acc_keys {V} (entries : list (text * V)) : forall acc,
  NoDup (map fst acc) ->
  let m := fold_left (fun m kv => map_set text_eqb (fst kv) (snd kv) m) entries acc in
  NoDup (map fst m)
  /\ (length m <= length acc + length entries)%nat
  /\ (forall k, In k (map fst m) <-> In k (map fst acc) \/ In k (map fst entries))
  /\ (NoDup (map fst (acc ++ entries)) -> m = acc ++ entries).
Proof.
  induction entries as [| [k v] entries IH]; intros acc Hnd; cbn [fold_left].
  - cbv zeta. rewrite app_nil_r. repeat split; try tauto; try lia.
    + intros [H | []]. exact H.
  - cbv zeta. cbn [fst snd].
    assert (Hnd' : NoDup (map fst (map_set text_eqb k v acc))).
    { rewrite map_set_keys. destruct (existsb _ _) eqn:E; [exact Hnd |].
      apply NoDup_app; [exact Hnd | repeat constructor; intros [] |].
      intros x Hx [<- | []].
      apply existsb_text_eqb in Hx. congruence. }
    destruct (IH _ Hnd') as (H1 & H2 & H3 & H4).
    split; [exact H1 |]. split; [| split].
    + etransitivity; [exact H2 |].
      assert (length (map fst (map_set text_eqb k v acc)) <= S (length acc))%nat.
      { rewrite map_set_keys. destruct (existsb _ _).
        - rewrite length_map. lia.
        - rewrite length_app, length_map. cbn. lia. }
      rewrite length_map in H. cbn [length]. lia.
    + intros k'. rewrite H3. rewrite map_set_keys. cbn [map fst In].
      destruct (existsb (text_eqb k) (map fst acc)) eqn:E.
      * apply existsb_text_eqb in E. split; [tauto |].
        intros [H | [<- | H]]; tauto.
      * rewrite in_app_iff. cbn [In]. tauto.
    + intros Hall.
      assert (Hk : ~ In k (map fst acc)).
      { rewrite map_app in Hall. cbn [map fst] in Hall.
        apply NoDup_remove_2 in Hall. intros Hin. apply Hall.
        apply in_or_app. now left. }
      rewrite (map_set_fresh _ _ _ Hk) in *.
      rewrite H4; rewrite <- app_assoc; [reflexivity | exact Hall].
Qed.

Lemma mapM_readCell_names sch fuel hs : forall r entries r',
  mapM (fun header => v <- DataReader.readCell sch fuel header ;; ret (name header, v))
       hs r = (Ret entries, r') ->
  map fst entries = map name hs.
Proof.
  induction hs as [| h hs IH]; intros r entries r' H.
  - inversion H. reflexivity.
  - cbn [mapM] in H. inv_bind H as y r1 H1. inv_bind H as ys r2 H2.
    inversion H; subst. inv_bind H1 as c r3 H3. inversion H1; subst.
    cbn [map fst]. f_equal. eapply IH. exact H2.
Qed.

(** X15: a row has one entry for each header name.  The names of a row
    that [readRow] returns are the header names, no name twice and no more
    entries than headers; when the header names are distinct, they are the
    header names in the headers' order.  (Two headers of one name share one
    entry.) *)
Theorem readRow_one_entry_per_name sch fuel r row r' :
  DataReader.readRow sch fuel r = (Ret row, r') ->
  NoDup (map fst row)
  /\ (length row <= length (headers_of sch))%nat
  /\ (forall k, In k (map fst row) <-> In k (map name (headers_of sch)))
  /\ (NoDup (map name (headers_of sch)) -> map fst row = map name (headers_of sch)).
Proof.
  unfold DataReader.readRow. intros H. inv_bind H as entries r1 H1.
  inversion H; subst. clear H.
  pose proof (mapM_readCell_names _ _ _ _ _ _ H1) as Hn.
  pose proof (mapM_length _ _ _ _ _ H1) as Hl.
  destruct (map_of_acc_keys entries [] (NoDup_nil _)) as (K1 & K2 & K3 & K4).
  unfold map_of. split; [exact K1 |]. split; [cbn in K2; lia |]. split.
  - intros k. rewrite K3. cbn [map In]. rewrite Hn. tauto.
  - intros Hnd. rewrite K4; [exact Hn |]. cbn [app]. now rewrite Hn.
Qed.

(** X15 on a row of two numeric fields A and B that are not compressed. *)
Lemma readRow_one_entry_per_name_witness :
  let hA := {| start := 0; code := 0; name := [65]; label := [];
               missing := no_missing; trailers := 0 |} in
  let hB := {| start := 0; code := 0; name := [66]; label := [];
               missing := no_missing; trailers := 0 |} in
  let data := be64 0x3FF0000000000000 ++ be64 0x4000000000000000 in
  exists row r',
    DataReader.readRow (sample_schema 0 [hA; hB]) 1 (sample_reader data)
    = (Ret row, r')
    /\ map fst row = [[65]; [66]].
Proof.
  intros hA hB data.
  assert (E : exists row r',
             DataReader.readRow (sample_schema 0 [hA; hB]) 1 (sample_reader data)
             = (Ret row, r'))
    by (eexists; eexists; vm_compute; reflexivity).
  destruct E as (row & r' & E). exists row, r'. split; [exact E |].
  destruct (readRow_one_entry_per_name _ _ _ _ _ E) as (_ & _ & _ & H).
  apply H. repeat constructor; cbn; intuition discriminate.
Defined.

(** ** The case data are read in bounded time *)

Lemma ew_ret {A} fuel (a : A) : ends_within fuel (ret a).
Proof. intros r _. cbn. lia. Qed.

Lemma ew_throw {A} fuel e : ends_within fuel (@throw DataReader.t A e).
Proof. intros r _. exact I. Qed.

Lemma ew_view {A} fuel (o : option A) : ends_within fuel (view o).
Proof. destruct o; [apply ew_ret | apply ew_throw]. Qed.

Lemma ew_new_Array fuel n : ends_within fuel (new_Array n).
Proof. unfold new_Array. destruct (n <? 0); [apply ew_throw | apply ew_ret]. Qed.

Lemma ew_bind {A B} fuel (m : M DataReader.t A) (k : A -> M DataReader.t B) :
  ends_within fuel m -> (forall a, ends_within fuel (k a)) ->
  ends_within fuel (bind m k).
Proof.
  intros Hm Hk r Hb. specialize (Hm r Hb). unfold bind.
  destruct (m r) as [[a | e |] r1]; [| exact I | exact Hm].
  assert (Hb1 : (codes_budget r1 < fuel)%nat) by lia.
  specialize (Hk a r1 Hb1).
  destruct (k a r1) as [[b | e |] r2]; [lia | exact I | exact Hk].
Qed.

Lemma ew_mapM {A B} fuel (f : A -> M DataReader.t B) xs :
  (forall x, ends_within fuel (f x)) -> ends_within fuel (mapM f xs).
Proof.
  intros Hf. induction xs as [| x xs IH]; cbn [mapM].
  - apply ew_ret.
  - apply ew_bind; [apply Hf | intros y].
    apply ew_bind; [exact IH | intros ys]. apply ew_ret.
Qed.

Lemma ew_log_push fuel e : ends_within fuel (DataReader.on_world (log_push e)).
Proof. intros r _. cbn. unfold codes_budget. cbn. lia. Qed.

(** A read of eight bytes takes eight from the budget. *)
Lemma next_8_spends r :
  match DataReader.on_world (next 8) r with
  | (Ret _, r') => (codes_budget r' + 8 <= codes_budget r)%nat
  | (Throw _, _) => True
  | (OutOfFuel, _) => False
  end.
Proof.
  unfold DataReader.on_world, zoom.
  destruct (next 8 (DataReader.world r)) as [[chunk | e |] w1] eqn:E.
  - apply next_Ret_inv in E. destruct E as [-> Hle].
    unfold codes_budget. cbn. lia.
  - exact I.
  - now apply next_never_out_of_fuel in E.
Qed.

Lemma ew_next_8 fuel : ends_within fuel (DataReader.on_world (next 8)).
Proof.
  intros r _. pose proof (next_8_spends r) as H.
  destruct (DataReader.on_world (next 8) r) as [[chunk | e |] r1];
    [lia | exact I | exact H].
Qed.

(** The instruction reader takes at least one from the budget. *)
Lemma compressedCodes_spends fuel : forall r,
  (codes_budget r < fuel)%nat ->
  match DataReader.compressedCodes fuel r with
  | (Ret _, r') => (codes_budget r' < codes_budget r)%nat
  | (Throw _, _) => True
  | (OutOfFuel, _) => False
  end.
Proof.
  induction fuel as [| fuel IH]; intros r Hb; [lia |].
  cbn [DataReader.compressedCodes]. unfold bind at 1. cbn [gets].
  destruct (DataReader.cursor r >? 7) eqn:Ec.
  - unfold bind at 1. unfold bind at 1.
    pose proof (next_8_spends r) as Hn.
    destruct (DataReader.on_world (next 8) r) as [[chunk | e |] r1] eqn:En;
      [| exact I | exact Hn].
    assert (Hc : DataReader.cursor r1 = DataReader.cursor r).
    { unfold DataReader.on_world, zoom in En.
      destruct (next 8 (DataReader.world r)); inversion En; reflexivity. }
    cbn [bind DataReader.set_instructions DataReader.set_cursor modify gets
           DataReader.instructions DataReader.cursor DataReader.world].
    unfold bind at 1.
    destruct (getUint8 chunk 0) as [i |]; cbn [view ret throw]; [| exact I].
    set (r2 := {| DataReader.world := DataReader.world r1;
                  DataReader.position := _; DataReader.instructions := _;
                  DataReader.cursor := 0 + 1 |}).
    assert (Hb2 : (codes_budget r2 < codes_budget r)%nat).
    { unfold codes_budget in *. subst r2. cbn [DataReader.world DataReader.cursor].
      rewrite Hc in *. rewrite Ec in *. change (0 + 1 >? 7) with false. cbv iota.
      change (Z.to_nat (9 - (0 + 1))) with 8%nat. lia. }
    destruct (i =? 0); [| exact Hb2].
    assert (Hf : (codes_budget r2 < fuel)%nat) by lia.
    specialize (IH r2 Hf).
    destruct (DataReader.compressedCodes fuel r2) as [[c | e |] r3];
      [lia | exact I | exact IH].
  - cbn [bind ret gets].
    destruct (DataReader.instructions r) as [v |] eqn:Ei; [| exact I].
    cbn [bind DataReader.set_cursor modify gets DataReader.cursor].
    unfold bind at 1.
    destruct (getUint8 v (DataReader.cursor r)) as [i |];
      cbn [view ret throw]; [| exact I].
    set (r2 := {| DataReader.world := DataReader.world r;
                  DataReader.position := _; DataReader.instructions := _;
                  DataReader.cursor := DataReader.cursor r + 1 |}).
    assert (Hb2 : (codes_budget r2 < codes_budget r)%nat).
    { unfold codes_budget in *. subst r2. cbn [DataReader.world DataReader.cursor].
      rewrite Ec in *. rewrite Z.gtb_ltb in Ec. apply Z.ltb_ge in Ec.
      destruct (DataReader.cursor r + 1 >? 7) eqn:E7.
      - lia.
      - rewrite Z.gtb_ltb in E7. apply Z.ltb_ge in E7. lia. }
    destruct (i =? 0); [| exact Hb2].
    assert (Hf : (codes_budget r2 < fuel)%nat) by lia.
    specialize (IH r2 Hf).
    destruct (DataReader.compressedCodes fuel r2) as [[c | e |] r3];
      [lia | exact I | exact IH].
Qed.

Lemma ew_compressedCodes fuel : ends_within fuel (DataReader.compressedCodes fuel).
Proof.
  intros r Hb. pose proof (compressedCodes_spends fuel r Hb) as H.
  destruct (DataReader.compressedCodes fuel r) as [[c | e |] r1];
    [lia | exact I | exact H].
Qed.

Lemma ew_weaken {A} fuel fuel' (m : M DataReader.t A) :
  (fuel' <= fuel)%nat -> ends_within fuel m -> ends_within fuel' m.
Proof. intros Hle H r Hb. apply H. lia. Qed.

Lemma uncompressedString_loop_ends fuel : forall n pieces,
  ends_within fuel (DataReader.uncompressedString_loop fuel n pieces).
Proof.
  induction fuel as [| fuel IH]; intros n pieces r Hb; [lia |].
  cbn [DataReader.uncompressedString_loop]. unfold bind.
  pose proof (next_8_spends r) as Hn.
  destruct (DataReader.on_world (next 8) r) as [[chunk | e |] r1];
    [| exact I | exact Hn].
  destruct (n - 1 =? 0); [cbn; lia |].
  assert (Hf : (codes_budget r1 < fuel)%nat) by lia.
  specialize (IH (n - 1) pieces r1 Hf).
  destruct (DataReader.uncompressedString_loop fuel (n - 1) pieces r1)
    as [[s | e |] r2]; [lia | exact I | exact IH].
Qed.

Lemma compressedString_loop_ends fuel : forall n pieces,
  ends_within fuel (DataReader.compressedString_loop fuel n pieces).
Proof.
  induction fuel as [| fuel IH]; intros n pieces r Hb; [lia |].
  cbn [DataReader.compressedString_loop]. unfold bind at 1.
  pose proof (compressedCodes_spends (S fuel) r Hb) as Hc.
  destruct (DataReader.compressedCodes (S fuel) r) as [[c | e |] r1];
    [| exact I | exact Hc].
  assert (Hf : (codes_budget r1 < fuel)%nat) by lia.
  assert (Hcont : forall ps r2,
             (codes_budget r2 <= codes_budget r1)%nat ->
             match (if n - 1 =? 0 then ret (CString (join ps))
                    else DataReader.compressedString_loop fuel (n - 1) ps) r2 with
             | (Ret _, r') => (codes_budget r' <= codes_budget r)%nat
             | (Throw _, _) => True
             | (OutOfFuel, _) => False
             end).
  { intros ps r2 Hle. destruct (n - 1 =? 0); [cbn; lia |].
    assert (Hf2 : (codes_budget r2 < fuel)%nat) by lia.
    specialize (IH (n - 1) ps r2 Hf2).
    destruct (DataReader.compressedString_loop fuel (n - 1) ps r2)
      as [[s | e |] r3]; [lia | exact I | exact IH]. }
  destruct (c =? 252); [exact I |].
  destruct (c =? 253).
  { unfold bind. pose proof (next_8_spends r1) as Hn.
    destruct (DataReader.on_world (next 8) r1) as [[chunk | e |] r2];
      [| exact I | exact Hn].
    apply Hcont. lia. }
  destruct (c =? 254); [apply Hcont; lia |].
  destruct (c =? 255); [cbn; lia | exact I].
Qed.

Lemma readCell_ends sch fuel header :
  ends_within fuel (DataReader.readCell sch fuel header).
Proof.
  unfold DataReader.readCell. apply ew_bind; [apply ew_log_push | intros _].
  destruct (negb (code header =? 0)).
  - unfold DataReader.readString.
    destruct (negb (compression (meta_of sch) =? 0)).
    + apply compressedString_loop_ends.
    + apply ew_bind; [apply uncompressedString_loop_ends | intros s; apply ew_ret].
  - unfold DataReader.readNumber.
    destruct (negb (compression (meta_of sch) =? 0)).
    + unfold DataReader.compressedNumber.
      apply ew_bind; [apply ew_compressedCodes | intros c].
      destruct (c =? 252); [apply ew_throw |].
      destruct (c =? 253).
      { apply ew_bind; [apply ew_next_8 | intros chunk].
        apply ew_bind; [apply ew_view | intros x; apply ew_ret]. }
      destruct (c =? 254); [apply ew_throw |].
      destruct (c =? 255); apply ew_ret.
    + unfold DataReader.uncompressedNumber.
      apply ew_bind; [| intros x; apply ew_ret].
      apply ew_bind; [apply ew_next_8 | intros chunk; apply ew_view].
Qed.

Lemma readRow_ends sch fuel : ends_within fuel (DataReader.readRow sch fuel).
Proof.
  unfold DataReader.readRow.
  apply ew_bind; [| intros entries; apply ew_ret].
  apply ew_mapM. intros header.
  apply ew_bind; [apply readCell_ends | intros v; apply ew_ret].
Qed.

Lemma jump_never_out_of_fuel p w w' : jump p w <> (OutOfFuel, w').
Proof.
  unfold jump, on_feeder, zoom, Feeder.jump. destruct (_ || _); discriminate.
Qed.

(** X16: the case data are read in bounded time.  Whatever the schema and
    the buffer, reading the rows ends, with the rows or with an error, once
    the fuel exceeds the buffer's length plus nine: every turn of the
    loops of [DataReader] spends bytes of the buffer or codes of the
    current instruction block. *)
Theorem read_rows_terminates fuel sch w :
  (Z.to_nat (byteLength (buffer (feeder w))) + 9 < fuel)%nat ->
  exists o w',
    read_rows fuel sch w = (o, w')
    /\ ((exists rs, o = Ret rs) \/ (exists e, o = Throw e)).
Proof.
  intros Hfuel. unfold read_rows.
  destruct (DataReader.read sch fuel (DataReader.create w)) as [o rd] eqn:E.
  exists o, (DataReader.world rd). split; [reflexivity |].
  destruct o as [rs | e |]; [left; now exists rs | right; now exists e |].
  exfalso. unfold DataReader.read in E.
  unfold bind at 1 in E.
  destruct (DataReader.on_world (jump (finished (internal_of sch)))
              (DataReader.create w)) as [[u | e |] r1] eqn:Ej;
    [| discriminate E |].
  2:{ unfold DataReader.on_world, zoom in Ej.
      destruct (jump (finished (internal_of sch)) (DataReader.world (DataReader.create w)))
        as [o1 w1] eqn:Ej'.
      inversion Ej; subst. now apply jump_never_out_of_fuel in Ej'. }
  assert (Hb : (codes_budget r1 < fuel)%nat).
  { unfold DataReader.on_world, zoom in Ej.
    destruct (jump (finished (internal_of sch)) (DataReader.world (DataReader.create w)))
      as [o1 w1] eqn:Ej'.
    inversion Ej; subst. apply jump_Ret_inv in Ej'. destruct Ej' as [Hr ->].
    unfold codes_budget. cbn in *. lia. }
  unfold bind at 1 in E.
  destruct (new_Array (cases (meta_of sch)) r1) as [[idxs | e |] r2] eqn:En;
    [| discriminate E |].
  2:{ unfold new_Array in En. destruct (_ <? 0); discriminate En. }
  apply new_Array_inv in En. destruct En as (_ & _ & ->).
  unfold bind at 1 in E.
  pose proof (ew_mapM fuel
                (fun idx => DataReader.on_world (log_push (LogRow idx)) ;;;
                            DataReader.readRow sch fuel) idxs) as Hm.
  specialize (Hm (fun idx => ew_bind _ _ _ (ew_log_push _ _)
                               (fun _ => readRow_ends sch fuel)) r1 Hb).
  destruct (mapM _ idxs r1) as [[rows | e |] r3]; [| discriminate E | exact Hm].
  unfold bind at 1 in E. cbn [gets] in E.
  unfold bind at 1 in E.
  destruct (DataReader.on_world (jump (DataReader.position r3)) r3)
    as [[u' | e |] r4] eqn:Ej2; [discriminate E | discriminate E |].
  unfold DataReader.on_world, zoom in Ej2.
  destruct (jump (DataReader.position r3) (DataReader.world r3)) as [o1 w1] eqn:Ej'.
  inversion Ej2; subst. now apply jump_never_out_of_fuel in Ej'.
Qed.

(** X16 on sixteen zero bytes read as one compressed numeric cell: the
    instruction reader runs to the end of the buffer and the read ends
    with an error. *)
Lemma read_rows_terminates_witness :
  let header := {| start := 0; code := 0; name := [65]; label := [];
                   missing := no_missing; trailers := 0 |} in
  let w := start_world (new_Feeder (repeat x00 16)) in
  exists w',
    read_rows 26 (sample_schema 1 [header]) w = (Throw UnexpectedEndOfFile, w').
Proof.
  intros header w.
  destruct (read_rows_terminates 26 (sample_schema 1 [header]) w)
    as (o & w' & H & _).
  - vm_compute. lia.
  - exists w'.
    assert (E : fst (read_rows 26 (sample_schema 1 [header]) w)
                = Throw UnexpectedEndOfFile) by (vm_compute; reflexivity).
    rewrite H in E. cbn [fst] in E. now rewrite <- E.
Defined.

(** ** Numbers that are not compressed *)

(** X17: a numeric cell of a file that is not compressed is the double of
    the next eight bytes, read big-endian unless the schema has a
    machine-integer record whose endianness is 2: a schema with no such
    record reads its numbers big-endian. *)
Theorem readCell_uncompressed_number sch fuel header r :
  compression (meta_of sch) = 0 ->
  code header = 0 ->
  available 8 (DataReader.world r) ->
  let chunk := chunk_at (feeder (DataReader.world r)) 8 in
  DataReader.readCell sch fuel header r
  = (Ret (CNumber (f64_of_bits (if DataReader.little_endian sch
                                then le_value chunk else be_value chunk))),
     with_world (advance 8 (logged (LogCell (name header)) (DataReader.world r))) r)
  /\ (DataReader.little_endian sch = true
      <-> exists i, sys_integer (internal_of sch) = Some i /\ endianness i = 2).
Proof.
  intros Hcomp Hcode Hav chunk. split.
  - unfold DataReader.readCell, bind at 1.
    cbn [DataReader.on_world zoom log_push modify].
    rewrite Hcode. cbn [Z.eqb negb]. unfold DataReader.readNumber.
    rewrite Hcomp. cbn [Z.eqb negb]. unfold DataReader.uncompressedNumber.
    erewrite bind_Ret.
    2:{ erewrite bind_Ret by (apply reader_next_ok; [lia | exact Hav]).
        cbn [with_world DataReader.world logged feeder]. fold chunk.
        rewrite getFloat64_whole
          by (destruct Hav; apply byteLength_chunk_at; lia).
        reflexivity. }
    reflexivity.
  - unfold DataReader.little_endian.
    destruct (sys_integer (internal_of sch)) as [i |].
    + rewrite Z.eqb_eq. split.
      * intros H. now exists i.
      * intros (i' & E & H). now inversion E; subst.
    + split; [discriminate | intros (i & E & _); discriminate].
Qed.

(** X17 on the eight bytes 3F F0 00 .. 00 and a schema with no
    machine-integer record: the cell is 1. *)
Lemma readCell_uncompressed_number_witness :
  let header := {| start := 0; code := 0; name := [65]; label := [];
                   missing := no_missing; trailers := 0 |} in
  exists r1,
    DataReader.readCell (sample_schema 0 [header]) 1 header
      (sample_reader (be64 0x3FF0000000000000))
    = (Ret (CNumber 1%float), r1)
    /\ cursor (feeder (DataReader.world r1)) = 8.
Proof.
  intros header.
  destruct (readCell_uncompressed_number
              (sample_schema 0 [header]) 1 header
              (sample_reader (be64 0x3FF0000000000000)))
    as [H _].
  - reflexivity.
  - reflexivity.
  - vm_compute. split; discriminate.
  - eexists. split; [exact H | reflexivity].
Defined.

(** ** What [schema] is made of *)

Lemma readInternal_finished fuel w i w' :
  readInternal fuel w = (Ret i, w') ->
  finished i = cursor (feeder w') /\ finished i <> 0.
Proof.
  unfold readInternal. intros H. inv_bind H as u w1 H1.
  eapply readInternal_loop_finished; [| exact H]. now left.
Qed.

(** X18: what [schema] resolves with.  The metadata are what [meta]
    resolves with; the headers are what [readFields] reads from byte 176,
    wherever the cursor stood at the call; the internal records are read
    from where the headers ended, and the data offset is where they end.
    The feeder is then put back, and the log left is that of the
    dictionary. *)
Theorem schema_reads_dictionary_from_176 fuel w s w' :
  cursor_valid w ->
  schema fuel w = (Ret (Resolved s), w') ->
  exists w2 w3,
    meta w = (Ret (Resolved (meta_of s)), cleared w)
    /\ readFields fuel {| feeder := {| buffer := buffer (feeder w); cursor := 176 |};
                          log := [] |}
       = (Ret (headers_of s), w2)
    /\ readInternal fuel w2 = (Ret (internal_of s), w3)
    /\ finished (internal_of s) = cursor (feeder w3)
    /\ w' = {| feeder := feeder w; log := log w3 |}.
Proof.
  intros Hv H. unfold schema in H.
  inv_bind H as u0 w0 H0. inversion H0; subst u0 w0. clear H0.
  inv_bind H as at_ w0 H0. inversion H0; subst at_ w0. clear H0.
  cbn [feeder] in H. fold (cleared w) in H.
  apply finally_Resolved_inv in H. destruct H as (w4 & H & Hjump).
  apply then_Resolved_inv in H. destruct H as (partial & w5 & H & Hint).
  apply then_Resolved_inv in H. destruct H as (m1 & wa & H & Hfields).
  apply then_Resolved_inv in H. destruct H as (m & wb & Hmeta & Hret).
  inversion Hret; subst m1 wa. clear Hret.
  destruct (meta_settles w Hv) as (s0 & E1 & E2).
  rewrite E2 in Hmeta. inversion Hmeta; subst s0 wb. clear Hmeta.
  inv_bind Hfields as u1 w6 Hj. inv_bind Hfields as hs w7 Hf.
  inversion Hfields; subst partial w7. clear Hfields.
  apply jump_Ret_inv in Hj. destruct Hj as [_ ->].
  inv_bind Hint as i w8 Hi. inversion Hint; subst s w8. clear Hint.
  cbn [meta_of headers_of internal_of fst snd] in *.
  exists w5, w4. split; [exact E1 |]. split; [exact Hf |]. split; [exact Hi |].
  split; [exact (proj1 (readInternal_finished _ _ _ _ Hi)) |].
  apply jump_Ret_inv in Hjump. destruct Hjump as [_ ->].
  pose proof (kb_readInternal _ _ _ _ Hi) as B1.
  pose proof (kb_readFields _ _ _ _ Hf) as B2.
  cbn [feeder buffer cleared] in *. rewrite B1, B2.
  now rewrite feeder_eta.
Qed.

(** X18 on the sample file read by a feeder left at byte 7. *)
Lemma schema_reads_dictionary_from_176_witness :
  let w := {| feeder := {| buffer := sample_file; cursor := 7 |}; log := [] |} in
  exists s w' w2 w3,
    schema 3 w = (Ret (Resolved s), w')
    /\ readFields 3 {| feeder := {| buffer := sample_file; cursor := 176 |};
                       log := [] |}
       = (Ret (headers_of s), w2)
    /\ readInternal 3 w2 = (Ret (internal_of s), w3)
    /\ cursor (feeder w3) = 216
    /\ cursor (feeder w') = 7.
Proof.
  intros w.
  assert (E : exists s w', schema 3 w = (Ret (Resolved s), w')
                           /\ finished (internal_of s) = 216)
    by (eexists; eexists; split; [vm_compute; reflexivity | reflexivity]).
  destruct E as (s & w' & E & Hfin).
  destruct (schema_reads_dictionary_from_176 3 w s w')
    as (w2 & w3 & _ & Hf & Hi & Hc & Hw).
  - vm_compute. split; discriminate.
  - exact E.
  - exists s, w', w2, w3. split; [exact E |]. split; [exact Hf |].
    split; [exact Hi |]. split; [congruence |]. now rewrite Hw.
Defined.

(** ** Document records *)

(** X19: a document record is its lines of eighty bytes.  After the line
    count it reads count times eighty bytes and answers the decoded lines
    in order, nothing trimmed.  A negative count is a range error, raised
    after the cursor has gone back by eighty bytes for each line it
    declares. *)
Theorem readDocument_lines w count :
  available 4 w ->
  getInt32 (chunk_at (feeder w) 4) 0 true = Some count ->
  let w0 := logged (LogSysDocument (cursor (feeder w))) w in
  let payload := chunk_at (feeder (advance 4 w)) (count * 80) in
  (0 <= count -> available (4 + count * 80) w ->
   readDocument w
   = (Ret (map decode (elements payload count 80)), advance (4 + count * 80) w0)
   /\ concat (elements payload count 80) = payload
   /\ List.length (elements payload count 80) = Z.to_nat count
   /\ Forall (fun s => byteLength s = 80) (elements payload count 80))
  /\ (count < 0 ->
      readDocument w = (Throw RangeError, advance (4 + count * 80) w0)).
Proof.
  intros Hav Hcount w0 payload.
  assert (Hstart :
             readDocument w
             = (x <- next (count * 80) ;; docArray <- new_Array count ;;
                ret (map (fun idx => decode (slice x (idx * 80) (idx * 80 + 80)))
                         docArray)) (advance 4 w0)).
  { unfold readDocument.
    erewrite bind_Ret by reflexivity.
    erewrite bind_Ret by reflexivity.
    erewrite bind_Ret by (apply next_ok; [lia | exact Hav]).
    cbn [logged feeder]. rewrite Hcount.
    erewrite bind_Ret by reflexivity. reflexivity. }
  split.
  - intros Hc Hall.
    assert (Hlen : byteLength payload = count * 80).
    { destruct Hall. apply byteLength_chunk_at; cbn; lia. }
    split; [| now apply elements_concat].
    rewrite Hstart.
    erewrite bind_Ret.
    2:{ apply next_ok; [lia |]. apply available_advance; [lia | exact Hall]. }
    erewrite bind_Ret by (apply new_Array_ok; exact Hc).
    rewrite advance_advance. cbn [advance logged feeder buffer cursor].
    fold payload. rewrite <- (slices_are_elements payload count 80) by lia.
    now rewrite map_map.
  - intros Hneg. rewrite Hstart.
    assert (Hn : next (count * 80) (advance 4 w0)
                 = (Ret (slice (buffer (feeder w))
                           (cursor (feeder w) + 4) (cursor (feeder w) + 4 + count * 80)),
                    advance (count * 80) (advance 4 w0))).
    { unfold next, on_feeder, zoom, Feeder.next. subst w0.
      cbn [advance logged feeder buffer cursor log].
      destruct Hav as [H0 H4].
      replace (cursor (feeder w) + 4 + count * 80 >? byteLength (buffer (feeder w)))
        with false by (symmetry; rewrite Z.gtb_ltb; apply Z.ltb_ge; lia).
      replace (cursor (feeder w) + 4 + count * 80 - count * 80)
        with (cursor (feeder w) + 4) by lia.
      reflexivity. }
    rewrite (bind_Ret _ _ _ _ _ Hn).
    unfold new_Array.
    replace (count <? 0) with true by (symmetry; apply Z.ltb_lt; lia).
    unfold bind, throw. now rewrite advance_advance.
Qed.

(** X19 on a record of one line of eighty letters A. *)
Lemma readDocument_lines_witness :
  let w := start_world (new_Feeder (le32 1 ++ repeat x41 80)) in
  exists w',
    readDocument w = (Ret [repeat 65 80], w') /\ cursor (feeder w') = 84.
Proof.
  intros w.
  destruct (readDocument_lines w 1) as [H _].
  - vm_compute. split; discriminate.
  - reflexivity.
  - destruct H as [H _].
    + lia.
    + vm_compute. split; discriminate.
    + eexists. split; [rewrite H; vm_compute; reflexivity | reflexivity].
Defined.

(** ** Missing values of a string field *)

(** X20: the missing values of a string field.  A count [n > 0] gives the
    [n] strings of eight bytes each that follow, decoded in order and not
    trimmed, with no code and no range; any other count gives nothing,
    though eight bytes for each unit of the count are still consumed. *)
Theorem readFieldMissing_string count w :
  available (8 * Z.abs count) w ->
  let chunk := chunk_at (feeder w) (8 * Z.abs count) in
  (0 < count ->
   readFieldMissing false count w
   = (Ret {| codes := []; range := None;
             strings := map decode (elements chunk count 8) |},
      advance (8 * count) w)
   /\ List.length (elements chunk count 8) = Z.to_nat count
   /\ Forall (fun s => byteLength s = 8) (elements chunk count 8))
  /\ (count <= 0 ->
      readFieldMissing false count w = (Ret no_missing, advance (8 * Z.abs count) w)).
Proof.
  intros Hav chunk. unfold readFieldMissing.
  rewrite (bind_Ret _ _ _ _ _ (next_ok w (8 * Z.abs count) ltac:(lia) Hav)).
  fold chunk. cbn [andb negb].
  assert (Hlen : byteLength chunk = 8 * Z.abs count)
    by (destruct Hav; apply byteLength_chunk_at; lia).
  split.
  - intros Hpos.
    replace (count >? 0) with true by (symmetry; apply Z.gtb_lt; lia).
    assert (Hlen' : byteLength chunk = count * 8) by lia.
    split;
      [| destruct (elements_concat chunk count 8) as (_ & L & F);
         [lia | lia | exact Hlen' | split; [exact L | exact F]]].
    erewrite bind_Ret by reflexivity. erewrite bind_Ret by reflexivity.
    unfold readFieldMissingStrings.
    erewrite bind_Ret.
    2:{ erewrite bind_Ret by (apply new_Array_ok; lia). reflexivity. }
    replace (Z.abs count) with count by lia.
    rewrite <- (slices_are_elements chunk count 8) by lia.
    rewrite map_map. unfold ret. do 3 f_equal.
    apply map_ext. intros idx. now rewrite (Z.mul_comm 8 idx).
  - intros Hneg.
    replace (count >? 0) with false
      by (symmetry; rewrite Z.gtb_ltb; apply Z.ltb_ge; lia).
    reflexivity.
Qed.

(** X20 on the two missing strings ABCDEFGH and eight spaces. *)
Lemma readFieldMissing_string_witness :
  let data := [x41; x42; x43; x44; x45; x46; x47; x48] ++ repeat x20 8 in
  exists w',
    readFieldMissing false 2 (start_world (new_Feeder data))
    = (Ret {| codes := []; range := None;
              strings := [[65; 66; 67; 68; 69; 70; 71; 72]; repeat 32 8] |}, w')
    /\ cursor (feeder w') = 16.
Proof.
  intros data.
  destruct (readFieldMissing_string 2 (start_world (new_Feeder data))) as [H _].
  - vm_compute. split; discriminate.
  - destruct H as [H _]; [lia |].
    eexists. split; [rewrite H; vm_compute; reflexivity | reflexivity].
Defined.

(** ** Value labels *)



